(** * The playback synchronisation engine of the QT storytelling front end

    A shallow embedding of the browser script that drives the robot face
    (configuration, state variables, [displayEmotion], [startClock],
    [scheduleEmotions], [clearScheduledEmotions], [pauseAudio],
    [resumeAudio], [selectStory], the story button handler and the
    [ended] listener), together with the part of the browser the script
    relies on: the timer queue behind [setTimeout] / [setInterval] /
    [clearTimeout], the audio element and the face image.

    The loading of the catalogue ([downloadStories] and the tail of the
    script) and the story generator that writes the story documents
    ([extractEmotions] and the time line of [processStory]) are modelled
    after it.

    JavaScript numbers are modelled as exact rationals ([Q]); the scripts
    only add, subtract, multiply by 1000 and compare them.  A JavaScript
    string the generator parses is the list of its UTF-16 code units. *)

From Stdlib Require Import QArith Qround Lqa.
From Equations Require Import Equations.
From stdpp Require Import base strings list gmap.

(** ** Stories and cues *)

(** One element of a story's [emotions] array.  [consumed] is absent until
    [selectStory] writes it; an absent field reads as falsy, which is
    [false] here. *)
Record Cue := mkCue {
  time : Q;
  emotion : string;
  consumed : bool
}.

(** A story document as pushed into [CONFIG.stories]. *)
Record Story := mkStory {
  name : string;
  audio_name : string;
  audio : string;
  emotions : list Cue
}.

(** ** The browser objects the script touches *)

(** The audio element: the script writes [src], calls [play()] and
    [pause()] and reads [currentTime]. *)
Record Audio := mkAudio {
  src : string;
  paused : bool;
  currentTime : Q
}.

(** The closures handed to [setTimeout] / [setInterval].  [CueFire k j] is
    the closure of [scheduleEmotions] over the cue object
    [CONFIG.stories[k].emotions[j]]. *)
Inductive Callback :=
| CueFire (k j : nat)
| ClearEmotion
| RenderTick
| BlinkTick
| BlinkOff
| MouthTick
| MouthOff.

(** A pending timer: its id, the wall-clock time (ms) it is due, its
    closure, and its period when it was made by [setInterval]. *)
Record Timer := mkTimer {
  tid : nat;
  due : Q;
  cb : Callback;
  period : option Q
}.

Inductive Exn := TypeError.

(** ** Program state

    [stories] is [CONFIG.stories], the store that owns every cue object.
    [emotionSchedule] aliases the [emotions] array of one story
    ([Some k]) or is the empty array of the declaration ([None]). *)
Record State := mkState {
  stories : list Story;
  emotionSchedule : option nat;
  timeouts : list nat;
  blinking : bool;
  closedMouth : bool;
  keepMouthShut : bool;
  currentEmotion : option string;
  isPaused : bool;
  hasEnded : bool;
  faceImage : string;
  audioEl : Audio;
  timers : list Timer;
  nextId : nat;
  now : Q
}.

Definition set_stories (v : list Story) (s : State) : State :=
  mkState v (emotionSchedule s) (timeouts s) (blinking s) (closedMouth s)
    (keepMouthShut s) (currentEmotion s) (isPaused s) (hasEnded s)
    (faceImage s) (audioEl s) (timers s) (nextId s) (now s).
Definition set_emotionSchedule (v : option nat) (s : State) : State :=
  mkState (stories s) v (timeouts s) (blinking s) (closedMouth s)
    (keepMouthShut s) (currentEmotion s) (isPaused s) (hasEnded s)
    (faceImage s) (audioEl s) (timers s) (nextId s) (now s).
Definition set_timeouts (v : list nat) (s : State) : State :=
  mkState (stories s) (emotionSchedule s) v (blinking s) (closedMouth s)
    (keepMouthShut s) (currentEmotion s) (isPaused s) (hasEnded s)
    (faceImage s) (audioEl s) (timers s) (nextId s) (now s).
Definition set_blinking (v : bool) (s : State) : State :=
  mkState (stories s) (emotionSchedule s) (timeouts s) v (closedMouth s)
    (keepMouthShut s) (currentEmotion s) (isPaused s) (hasEnded s)
    (faceImage s) (audioEl s) (timers s) (nextId s) (now s).
Definition set_closedMouth (v : bool) (s : State) : State :=
  mkState (stories s) (emotionSchedule s) (timeouts s) (blinking s) v
    (keepMouthShut s) (currentEmotion s) (isPaused s) (hasEnded s)
    (faceImage s) (audioEl s) (timers s) (nextId s) (now s).
Definition set_keepMouthShut (v : bool) (s : State) : State :=
  mkState (stories s) (emotionSchedule s) (timeouts s) (blinking s)
    (closedMouth s) v (currentEmotion s) (isPaused s) (hasEnded s)
    (faceImage s) (audioEl s) (timers s) (nextId s) (now s).
Definition set_currentEmotion (v : option string) (s : State) : State :=
  mkState (stories s) (emotionSchedule s) (timeouts s) (blinking s)
    (closedMouth s) (keepMouthShut s) v (isPaused s) (hasEnded s)
    (faceImage s) (audioEl s) (timers s) (nextId s) (now s).
Definition set_isPaused (v : bool) (s : State) : State :=
  mkState (stories s) (emotionSchedule s) (timeouts s) (blinking s)
    (closedMouth s) (keepMouthShut s) (currentEmotion s) v (hasEnded s)
    (faceImage s) (audioEl s) (timers s) (nextId s) (now s).
Definition set_hasEnded (v : bool) (s : State) : State :=
  mkState (stories s) (emotionSchedule s) (timeouts s) (blinking s)
    (closedMouth s) (keepMouthShut s) (currentEmotion s) (isPaused s) v
    (faceImage s) (audioEl s) (timers s) (nextId s) (now s).
Definition set_faceImage (v : string) (s : State) : State :=
  mkState (stories s) (emotionSchedule s) (timeouts s) (blinking s)
    (closedMouth s) (keepMouthShut s) (currentEmotion s) (isPaused s)
    (hasEnded s) v (audioEl s) (timers s) (nextId s) (now s).
Definition set_audioEl (v : Audio) (s : State) : State :=
  mkState (stories s) (emotionSchedule s) (timeouts s) (blinking s)
    (closedMouth s) (keepMouthShut s) (currentEmotion s) (isPaused s)
    (hasEnded s) (faceImage s) v (timers s) (nextId s) (now s).
Definition set_timers (v : list Timer) (s : State) : State :=
  mkState (stories s) (emotionSchedule s) (timeouts s) (blinking s)
    (closedMouth s) (keepMouthShut s) (currentEmotion s) (isPaused s)
    (hasEnded s) (faceImage s) (audioEl s) v (nextId s) (now s).
Definition set_nextId (v : nat) (s : State) : State :=
  mkState (stories s) (emotionSchedule s) (timeouts s) (blinking s)
    (closedMouth s) (keepMouthShut s) (currentEmotion s) (isPaused s)
    (hasEnded s) (faceImage s) (audioEl s) (timers s) v (now s).
Definition set_now (v : Q) (s : State) : State :=
  mkState (stories s) (emotionSchedule s) (timeouts s) (blinking s)
    (closedMouth s) (keepMouthShut s) (currentEmotion s) (isPaused s)
    (hasEnded s) (faceImage s) (audioEl s) (timers s) (nextId s) v.

(** ** CONFIG *)

Module CONFIG.
Definition qtBase : string := "/qt/".

(** [CONFIG.emotionImageMap], an object used as a map from emotion keys
    to image names: the entries of the literal, its own properties. *)
Definition emotionImageMap : gmap string string :=
  list_to_map
    [ ("affection", "affection.png"); ("colère", "colère.png");
      ("confusion", "confusion.png"); ("cri", "cri.png");
      ("embarassement", "embarassement.png"); ("joie", "joie.png");
      ("neutre", "neutre.png"); ("peur", "peur.png");
      ("surprise", "surprise.png"); ("timide", "timide.png");
      ("tristesse", "tristesse.png") ].

(** The members the object inherits from [Object.prototype]: a property
    read [CONFIG.emotionImageMap[key]] finds them as well. *)
Definition inherited : list string :=
  [ "constructor"; "toString"; "toLocaleString"; "valueOf";
    "hasOwnProperty"; "isPrototypeOf"; "propertyIsEnumerable";
    "__proto__"; "__defineGetter__"; "__defineSetter__";
    "__lookupGetter__"; "__lookupSetter__" ].

(** [CONFIG.faceImages] *)
Definition blinkingClosed : string := "normal.png".
Definition blinkingOpen : string := "normal4.png".
Definition normalClosed : string := "normal2.png".
Definition normalOpen : string := "normal3.png".

(** [CONFIG.intervals], in milliseconds *)
Definition clock : Q := 100.
Definition blink : Q := 3000.
Definition blinkDuration : Q := 200.
Definition mouthClose : Q := 500.
Definition mouthCloseDuration : Q := 250.
Definition emotionDelay : Q := 1000.
End CONFIG.

(** ** JavaScript primitives *)

(** Truthiness of a string value: only the empty string is falsy. *)
Definition truthy (s : string) : bool :=
  match s with EmptyString => false | _ => true end.

(** Truthiness of [currentEmotion], which is [null] or a string. *)
Definition truthy_opt (o : option string) : bool :=
  match o with Some s => truthy s | None => false end.

(** What a property read on [CONFIG.emotionImageMap] can give: a string of
    the literal, or an inherited member (a built-in function, or the
    prototype object for [__proto__]). *)
Inductive Value :=
| VString (s : string)
| VMember (name : string).

(** Functions and objects are truthy. *)
Definition truthy_value (v : Value) : bool :=
  match v with VString s => truthy s | VMember _ => true end.

(** The text a template literal gives for a value.  A built-in function
    prints as [function name() { [native code] }] (the white space is the
    engine's; this is how V8 and JavaScriptCore print it), the prototype
    object as [[object Object]]. *)
Definition to_text (v : Value) : string :=
  match v with
  | VString s => s
  | VMember m =>
      if String.eqb m "__proto__" then "[object Object]"
      else "function " +:+ (if String.eqb m "constructor" then "Object" else m)
           +:+ "() { [native code] }"
  end.

(** [CONFIG.emotionImageMap[key]]: an own property first, then the
    prototype chain; [None] is [undefined]. *)
Definition emotionImageMap_get (key : string) : option Value :=
  match CONFIG.emotionImageMap !! key with
  | Some img => Some (VString img)
  | None =>
      if bool_decide (key ∈ CONFIG.inherited) then Some (VMember key) else None
  end.

(** [a[i]] on an array: [undefined] (here [None]) outside [0 .. length-1]. *)
Definition array_get {A} (a : list A) (i : Z) : option A :=
  if (0 <=? i)%Z then a !! Z.to_nat i else None.

(** [0 < q] as a boolean. *)
Definition Qpos_b (q : Q) : bool :=
  if Qlt_le_dec 0 q then true else false.

(** [setTimeout(cb, delay)]: a fresh id, a one-shot timer appended to the
    queue. *)
Definition setTimeout (c : Callback) (delay : Q) (s : State) : nat * State :=
  let id := nextId s in
  (id, set_nextId (S id)
         (set_timers (timers s ++ [mkTimer id (now s + delay) c None]) s)).

(** [setInterval(cb, p)]: as [setTimeout], but the timer re-arms itself. *)
Definition setInterval (c : Callback) (p : Q) (s : State) : nat * State :=
  let id := nextId s in
  (id, set_nextId (S id)
         (set_timers (timers s ++ [mkTimer id (now s + p) c (Some p)]) s)).

(** [clearTimeout(id)]: the timer with that id, if still pending, leaves
    the queue; otherwise nothing happens. *)
Definition clearTimeout (id : nat) (s : State) : State :=
  set_timers (filter (λ t, tid t ≠ id) (timers s)) s.

(** ** The store of cue objects *)

(** The cue object [CONFIG.stories[k].emotions[j]]. *)
Definition cue_at (s : State) (k j : nat) : option Cue :=
  st ← stories s !! k; emotions st !! j.

Definition set_consumed (b : bool) (c : Cue) : Cue :=
  mkCue (time c) (emotion c) b.

Definition set_emotions (cs : list Cue) (st : Story) : Story :=
  mkStory (name st) (audio_name st) (audio st) cs.

(** [CONFIG.stories[k].emotions[j].consumed = b] *)
Definition write_consumed (k j : nat) (b : bool) (s : State) : State :=
  set_stories
    (alter (λ st, set_emotions (alter (set_consumed b) j (emotions st)) st)
           k (stories s)) s.

(** The array [emotionSchedule] currently refers to. *)
Definition schedule_cues (s : State) : list Cue :=
  match emotionSchedule s with
  | Some k => default [] (emotions <$> stories s !! k)
  | None => []
  end.

(** ** Helper functions of the script *)

(** [displayEmotion(emotion)] *)
Definition displayEmotion (e : string) (s : State) : State :=
  match emotionImageMap_get e with
  | Some v =>
      if truthy_value v then
        let s1 := set_currentEmotion (Some e) s in
        let s2 := set_faceImage (CONFIG.qtBase +:+ to_text v) s1 in
        snd (setTimeout ClearEmotion CONFIG.emotionDelay s2)
      else s
  | None => s
  end.

(** The 2x2 lookup of the render tick: eyes (blinking or not) by mouth
    (closed or open). *)
Definition composition (blink shut : bool) : string :=
  if blink
  then if shut then CONFIG.qtBase +:+ CONFIG.blinkingClosed
       else CONFIG.qtBase +:+ CONFIG.blinkingOpen
  else if shut then CONFIG.qtBase +:+ CONFIG.normalClosed
       else CONFIG.qtBase +:+ CONFIG.normalOpen.

(** The body of the 100 ms interval of [startClock]. *)
Definition renderTick (s : State) : State :=
  if negb (isPaused s) && negb (truthy_opt (currentEmotion s))
  then set_faceImage
         (composition (blinking s) (closedMouth s || keepMouthShut s)) s
  else s.

(** The bodies of the blink and mouth intervals of [startClock]. *)
Definition blinkTick (s : State) : State :=
  snd (setTimeout BlinkOff CONFIG.blinkDuration (set_blinking true s)).

Definition mouthTick (s : State) : State :=
  snd (setTimeout MouthOff CONFIG.mouthCloseDuration (set_closedMouth true s)).

(** [startClock()] *)
Definition startClock (s : State) : State :=
  let s1 := snd (setInterval RenderTick CONFIG.clock s) in
  let s2 := snd (setInterval BlinkTick CONFIG.blink s1) in
  snd (setInterval MouthTick CONFIG.mouthClose s2).

(** [clearScheduledEmotions()] *)
Definition clearScheduledEmotions (s : State) : State :=
  set_timeouts [] (foldl (λ acc id, clearTimeout id acc) s (timeouts s)).

(** One iteration of the [forEach] of [scheduleEmotions], on the cue
    [tp] found at index [j] of story [k]'s array. *)
Definition arm_cue (k j : nat) (tp : Cue) (s : State) : State :=
  let delay := ((time tp - currentTime (audioEl s)) * 1000)%Q in
  if negb (consumed tp) && Qpos_b delay then
    let '(timeoutId, s1) := setTimeout (CueFire k j) delay s in
    set_timeouts (timeouts s1 ++ [timeoutId]) s1
  else s.

(** The [forEach] itself, from index [j] on.  The loop body writes no cue,
    so the array is read once. *)
Fixpoint arm_cues (k j : nat) (cs : list Cue) (s : State) : State :=
  match cs with
  | [] => s
  | tp :: cs' => arm_cues k (S j) cs' (arm_cue k j tp s)
  end.

(** [scheduleEmotions()] *)
Definition scheduleEmotions (s : State) : State :=
  let s1 := clearScheduledEmotions s in
  match emotionSchedule s1 with
  | Some k => arm_cues k 0 (schedule_cues s1) s1
  | None => s1
  end.

(** [audio.pause()] and [audio.play()] *)
Definition audio_pause (s : State) : State :=
  set_audioEl (mkAudio (src (audioEl s)) true (currentTime (audioEl s))) s.

Definition audio_play (s : State) : State :=
  set_audioEl (mkAudio (src (audioEl s)) false (currentTime (audioEl s))) s.

(** [pauseAudio()] *)
Definition pauseAudio (s : State) : State :=
  let s1 := audio_pause s in
  let s2 := set_isPaused true s1 in
  let s3 := set_keepMouthShut true s2 in
  clearScheduledEmotions s3.

(** [resumeAudio()] *)
Definition resumeAudio (s : State) : State :=
  let s1 := set_isPaused false s in
  if negb (hasEnded s1) then
    let s2 := set_keepMouthShut false s1 in
    let s3 := audio_play s2 in
    scheduleEmotions s3
  else s1.

(** The outcome of a call that may throw: the state reached, and the
    exception when one was thrown. *)
Inductive Outcome :=
| Done (s : State)
| Threw (e : Exn) (s : State).

Definition state_of (o : Outcome) : State :=
  match o with Done s => s | Threw _ s => s end.

(** [selectStory(index)].  Reading [story.emotions] on [undefined] throws
    a [TypeError] before anything is written. *)
Definition selectStory (index : Z) (s : State) : Outcome :=
  match array_get (stories s) index with
  | None => Threw TypeError s
  | Some story =>
      let k := Z.to_nat index in
      let s1 := set_emotionSchedule (Some k) s in
      let s2 := set_stories
                  (<[k := set_emotions (set_consumed false <$> emotions story) story]>
                     (stories s1)) s1 in
      Done (set_audioEl (mkAudio (audio story) (paused (audioEl s2))
                           (currentTime (audioEl s2))) s2)
  end.

(** The click listener of a story button. *)
Definition clickStory (index : Z) (s : State) : Outcome :=
  match selectStory index s with
  | Done s1 => Done (resumeAudio (set_hasEnded false s1))
  | Threw e s1 => Threw e s1
  end.

(** The [ended] listener of the audio element. *)
Definition onEnded (s : State) : State :=
  set_hasEnded true (set_keepMouthShut true s).

(** The state variables as declared, with [CONFIG.stories] as left by
    [downloadStories]; the page supplies the first image and the audio
    element. *)
Definition initial (ss : list Story) (img : string) (a : Audio) : State :=
  mkState ss None [] false false true None false false img a [] 0 0.

(** The tail of the script: [selectStory(0); startClock()]. *)
Definition boot (s : State) : Outcome :=
  match selectStory 0 s with
  | Done s1 => Done (startClock s1)
  | Threw e s1 => Threw e s1
  end.

(** ** The event loop *)

(** What a timer's closure does when it runs. *)
Definition run_callback (c : Callback) (s : State) : State :=
  match c with
  | CueFire k j =>
      match cue_at s k j with
      | Some tp => displayEmotion (emotion tp) (write_consumed k j true s)
      | None => s
      end
  | ClearEmotion => set_currentEmotion None s
  | RenderTick => renderTick s
  | BlinkTick => blinkTick s
  | BlinkOff => set_blinking false s
  | MouthTick => mouthTick s
  | MouthOff => set_closedMouth false s
  end.

(** The timer with id [id] is due again [p] ms later. *)
Definition postpone (id : nat) (p : Q) (t' : Timer) : Timer :=
  if decide (tid t' = id)
  then mkTimer (tid t') (due t' + p) (cb t') (period t') else t'.

(** The queue after timer [t] has been taken to run: a one-shot timer is
    gone, an interval timer is due again one period later. *)
Definition requeue (t : Timer) (q : list Timer) : list Timer :=
  match period t with
  | None => filter (λ t', tid t' ≠ tid t) q
  | Some p => postpone (tid t) p <$> q
  end.

(** Running timer [t]. *)
Definition fire (t : Timer) (s : State) : State :=
  run_callback (cb t) (set_timers (requeue t (timers s)) s).

Definition find_timer (id : nat) (s : State) : option Timer :=
  list_find (λ t, tid t = id) (timers s) ≫= λ p, Some p.2.

(** The audio element moves its position to [pos]. *)
Definition seek (pos : Q) (s : State) : State :=
  set_audioEl (mkAudio (src (audioEl s)) (paused (audioEl s)) pos) s.

Definition Qle_b (a b : Q) : bool :=
  if Qlt_le_dec b a then false else true.

(** What can happen to the page.  Wall-clock time passes; a pending timer
    whose time has come runs; the audio element moves its position or
    reports the end of the track; the script's own entry points are
    called. *)
Inductive Event :=
| Elapse (d : Q)
| Fire (id : nat)
| Seek (pos : Q)
| Ended
| Pause
| Resume
| Select (index : Z)
| Click (index : Z).

(** One event.  [None] when the event cannot happen in [s]: time does not
    run backwards, and only a pending timer that is due can run.  A
    thrown exception ends the handler and leaves the state it reached. *)
Definition step (e : Event) (s : State) : option State :=
  match e with
  | Elapse d => if Qle_b 0 d then Some (set_now (now s + d) s) else None
  | Fire id =>
      match find_timer id s with
      | Some t => if Qle_b (due t) (now s) then Some (fire t s) else None
      | None => None
      end
  | Seek pos => Some (seek pos s)
  | Ended => Some (onEnded s)
  | Pause => Some (pauseAudio s)
  | Resume => Some (resumeAudio s)
  | Select i => Some (state_of (selectStory i s))
  | Click i => Some (state_of (clickStory i s))
  end.

(** A run: events applied one after the other. *)
Fixpoint run (es : list Event) (s : State) : option State :=
  match es with
  | [] => Some s
  | e :: es' => step e s ≫= run es'
  end.

(** The cue a timer is a trigger for, and the time it is due. *)
Definition cue_of (t : Timer) : option (nat * nat * Q) :=
  match cb t with
  | CueFire k j => Some (k, j, due t)
  | _ => None
  end.

(** The cues that have a pending trigger, with the time each is due. *)
Definition pending (s : State) : list (nat * nat * Q) :=
  omap cue_of (timers s).

(** The same, as cues only. *)
Definition pending_cues (s : State) : list (nat * nat) :=
  fst <$> pending s.

(** ** The faithful event loop

    [advance] lets wall-clock time pass up to [target] and runs every
    timer on time: the earliest due timer first, the older one on a tie. *)

Definition earlier (a b : Timer) : Timer :=
  if Qle_b (due a) (due b) then a else b.

Definition next_timer (q : list Timer) : option Timer :=
  match q with
  | [] => None
  | t :: q' => Some (foldl earlier t q')
  end.

Fixpoint advance (fuel : nat) (target : Q) (s : State) : option State :=
  match next_timer (timers s) with
  | Some t =>
      if Qle_b (due t) target then
        match fuel with
        | O => None
        | S fuel' =>
            let s1 := if Qle_b (due t) (now s) then s else set_now (due t) s in
            advance fuel' target (fire t s1)
        end
      else Some (set_now target s)
  | None => Some (set_now target s)
  end.

(** ** What the spec calls the pending fires of a playing scheduler

    The fires that arming at audio position [pos] and wall-clock time [t0]
    produces for the cues [cs] of story [k], numbered from [j]: one per
    cue that is not consumed and lies strictly ahead of [pos]. *)
Fixpoint due_fires (k j : nat) (cs : list Cue) (pos t0 : Q) : list (nat * nat * Q) :=
  match cs with
  | [] => []
  | c :: cs' =>
      (if negb (consumed c) && Qpos_b ((time c - pos) * 1000)
       then [(k, j, (t0 + (time c - pos) * 1000)%Q)] else [])
      ++ due_fires k (S j) cs' pos t0
  end.

Definition expected (s : State) : list (nat * nat * Q) :=
  match emotionSchedule s with
  | Some k => due_fires k 0 (schedule_cues s) (currentTime (audioEl s)) (now s)
  | None => []
  end.

(** Two lists of fires agree: the same cues in the same order, due at
    equal times. *)
Definition same_fires (a b : list (nat * nat * Q)) : Prop :=
  Forall2 (λ x y, x.1 = y.1 ∧ (x.2 == y.2)%Q) a b.

(** ** Invariants of the timer queue *)

(** Every pending cue trigger is a one-shot timer whose id the script
    holds in [timeouts]. *)
Definition tracked_timer (ids : list nat) (t : Timer) : bool :=
  match cb t, period t with
  | CueFire _ _, None => bool_decide (tid t ∈ ids)
  | CueFire _ _, Some _ => false
  | _, _ => true
  end.

Definition tracked (s : State) : Prop :=
  forallb (tracked_timer (timeouts s)) (timers s) = true.

Record wf (s : State) : Prop := mkWf {
  wf_ids : NoDup (tid <$> timers s);
  wf_fresh : ∀ t, t ∈ timers s → tid t < nextId s;
  wf_tracked : tracked s;
  wf_nodup : NoDup (pending_cues s);
  wf_unconsumed : ∀ k j, (k, j) ∈ pending_cues s →
                         ∃ c, cue_at s k j = Some c ∧ consumed c = false
}.

(** The events that arm triggers, and those that install a story. *)
Definition arming (e : Event) : bool :=
  match e with Resume | Click _ => true | _ => false end.

Definition selecting (e : Event) : bool :=
  match e with Select _ | Click _ => true | _ => false end.

(** ** Auxiliary notions used in the proofs *)

Definition not_cue (c : Callback) : Prop :=
  match c with CueFire _ _ => False | _ => True end.

(** A call that arms at most one timer, never a cue trigger, and leaves
    [timeouts] as it was. *)
Definition arms_no_cue (s s' : State) : Prop :=
  timeouts s' = timeouts s
  ∧ ((timers s' = timers s ∧ nextId s' = nextId s)
     ∨ ∃ d c p, not_cue c ∧ nextId s' = S (nextId s)
                ∧ timers s' = timers s ++ [mkTimer (nextId s) d c p]).

(** The timers [arm_cues] appends: one per fire of [due_fires], with
    consecutive fresh ids, each id pushed on [timeouts]. *)
Fixpoint armed_timers (id : nat) (fs : list (nat * nat * Q)) : list Timer :=
  match fs with
  | [] => []
  | (k, j, d) :: fs' => mkTimer id d (CueFire k j) None :: armed_timers (S id) fs'
  end.

(** The page once the script has run to its end. *)
Definition booted (ss : list Story) (img : string) (a : Audio) : State :=
  state_of (boot (initial ss img a)).

(** The display is frozen: paused, no cue trigger pending, a fixed
    image. *)
Definition frozen (img : string) (s : State) : Prop :=
  isPaused s = true ∧ pending s = [] ∧ faceImage s = img.

(** Cue [j] of story [k] reads [c] and has no pending trigger. *)
Definition unarmed (k j : nat) (c : Cue) (s : State) : Prop :=
  ((k, j) ∉ pending_cues s) ∧ cue_at s k j = Some c.

(** Story [i] is installed, every pending trigger is for one of its
    cues, and the other stories read as in [ss0]. *)
Definition only_story (i : nat) (ss0 : list Story) (s : State) : Prop :=
  emotionSchedule s = Some i
  ∧ (∀ k j, (k, j) ∈ pending_cues s → k = i)
  ∧ ∀ k, k ≠ i → stories s !! k = ss0 !! k.

(** The events that neither arm triggers nor install a story. *)
Definition quiet (e : Event) : bool :=
  negb (arming e) && negb (selecting e).

(** Armed-Playing: the audio plays, the scheduler is neither paused nor
    ended, and the triggers that are pending are the scheduler's own. *)
Definition ArmedPlaying (s : State) : Prop :=
  isPaused s = false ∧ hasEnded s = false ∧ paused (audioEl s) = false
  ∧ tracked s.

(** The pending fires are in step with the audio: they are the ones the
    audio position calls for, each unconsumed cue ahead of the position
    being due when the audio, running with the wall clock, reaches it.
    Nothing in the script keeps this: the position is read when the
    triggers are armed and never again until the next arming. *)
Definition synchronised (s : State) : Prop :=
  same_fires (pending s) (expected s).

(** [u] is a state of the playback that started in [s]: no trigger has
    been armed since, the triggers of [s] that are gone have run, on or
    after their due time, and each has marked its cue; every other cue
    reads as in [s]. *)
Record played (s u : State) : Prop := mkPlayed {
  played_wf : wf u;
  played_schedule : emotionSchedule u = emotionSchedule s;
  played_audio : audioEl u = audioEl s;
  played_flags : isPaused u = isPaused s ∧ hasEnded u = hasEnded s;
  played_sub : pending u `sublist_of` pending s;
  played_fired : ∀ k j, (k, j) ∈ pending_cues s → (k, j) ∉ pending_cues u →
      cue_at u k j = set_consumed true <$> cue_at s k j
      ∧ ∀ d, (k, j, d) ∈ pending s → (d <= now u)%Q;
  played_kept : ∀ k j, (k, j) ∈ pending_cues u ∨ (k, j) ∉ pending_cues s →
      cue_at u k j = cue_at s k j
}.

(** What playback up to wall-clock time [t0 + d] makes of a cue that was
    read at audio position [pos] and time [t0]: consumed if its trigger
    was armed and has come due. *)
Definition play_cue (pos t0 d : Q) (c : Cue) : Cue :=
  if negb (consumed c) && Qpos_b ((time c - pos) * 1000)
     && Qle_b (t0 + (time c - pos) * 1000) (t0 + d)
  then set_consumed true c else c.

#[local] Instance Callback_eq_dec : EqDecision Callback.
Proof. solve_decision. Defined.

#[local] Instance Qlt_decision (x y : Q) : Decision (x < y)%Q.
Proof.
  destruct (Qlt_le_dec x y) as [H|H]; [by left|right].
  intros H'. by apply (Qlt_not_le _ _ H').
Defined.

(** ** A sample page

    Three stories; the first has the cues of the spec's scenario, the
    second a cue whose emotion has no image, the third two cues half a
    second apart. *)
Definition ex_stories : list Story :=
  [ mkStory "Le renard" "/audio/renard_name.mp3" "/audio/renard.opus"
      [ mkCue 2 "joie" false; mkCue 5 "peur" false ];
    mkStory "La lune" "/audio/lune_name.mp3" "/audio/lune.opus"
      [ mkCue 1 "surprise" false; mkCue 3 "ennui" false ];
    mkStory "Le loup" "/audio/loup_name.mp3" "/audio/loup.opus"
      [ mkCue 1 "surprise" false; mkCue (3 # 2) "tristesse" false ] ].

Definition ex_page : State :=
  booted ex_stories "/qt/normal2.png" (mkAudio "" true 0).

(** The first story is started, its track ends, then [pauseAudio] is
    called. *)
Definition ex_ended_paused : State :=
  pauseAudio (onEnded (resumeAudio ex_page)).

(** The first story has been playing for 100 ms: the first render tick
    has drawn the open mouth. *)
Definition ex_talking : State :=
  default ex_page (advance 10 100 (resumeAudio ex_page)).

(** The third story is started by its button, and has been playing for
    1.5 s. *)
Definition ex_loup : State := state_of (clickStory 2 ex_page).

Definition ex_loup_1500 : State :=
  default ex_loup (advance 100 1500 ex_loup).

(** The audio position is moved to 3 s while nothing plays. *)
Definition ex_at3 : State :=
  default ex_page (run [Seek 3] ex_page).

(** The trigger that a resume from [ex_at3] arms for the second cue of
    the first story, two seconds ahead. *)
Definition ex_peur_trigger : Timer := mkTimer 3 2000 (CueFire 0 1) None.

(** The first story is playing and [selectStory(1)] is called, without a
    resume. *)
Definition ex_switched : State :=
  state_of (selectStory 1 (resumeAudio ex_page)).

(** The second story is started by its button and three seconds pass:
    the trigger of its second cue, whose emotion has no image, is due. *)
Definition ex_lune_3000 : State :=
  default ex_page (run [Click 1; Elapse 3000] ex_page).

Definition ex_ennui_trigger : Timer := mkTimer 4 3000 (CueFire 1 1) None.

(** A catalogue whose story has a cue named after a member every object
    inherits; the story is started and one second passes: the trigger of
    that cue is due. *)
Definition ex_singe : list Story :=
  [ mkStory "Le singe" "/audio/singe_name.mp3" "/audio/singe.opus"
      [ mkCue 1 "constructor" false; mkCue 3 "joie" false ] ].

Definition ex_singe_1000 : State :=
  default ex_page
    (run [Click 0; Elapse 1000]
       (booted ex_singe "/qt/normal2.png" (mkAudio "" true 0))).

Definition ex_singe_trigger : Timer := mkTimer 3 1000 (CueFire 0 0) None.



(** ** The rest of the page script *)

(** One row of the story choice table: the button's text, the index its
    click listener passes to [selectStory], and the preview clip its
    mouseover listener plays. *)
Record Button := mkButton {
  label : string;
  click_index : Z;
  preview : string
}.

(** How [downloadStories] ends: the catalogue is loaded and the table is
    built, or a fetch (or the parsing of its body) failed and the
    function rejects with whatever it had pushed so far. *)
Inductive LoadResult :=
| Loaded (s : State) (table : list Button)
| LoadFailed (s : State).

(** The first loop of [downloadStories]: each story document is fetched
    and pushed, one after the other.  [fetch url] is the parsed document,
    or [None] when the fetch or the parsing fails. *)
Fixpoint fetch_stories (fetch : string → option Story) (urls : list string)
    (s : State) : option State * State :=
  match urls with
  | [] => (Some s, s)
  | storyUrl :: urls' =>
      match fetch storyUrl with
      | Some story =>
          fetch_stories fetch urls' (set_stories (stories s ++ [story]) s)
      | None => (None, s)
      end
  end.

(** The second loop of [downloadStories]: one row per element of
    [CONFIG.stories], in index order, after the table was emptied. *)
Definition build_table (ss : list Story) : list Button :=
  imap (λ index story, mkButton (name story) (Z.of_nat index) (audio_name story)) ss.

(** [downloadStories()].  [index] is the parsed story index, or [None]
    when fetching or parsing it fails. *)
Definition downloadStories (index : option (list string))
    (fetch : string → option Story) (s : State) : LoadResult :=
  match index with
  | None => LoadFailed s
  | Some urls =>
      match fetch_stories fetch urls s with
      | (Some s', _) => Loaded s' (build_table (stories s'))
      | (None, s') => LoadFailed s'
      end
  end.

(** The state variables as declared, before anything is loaded. *)
Definition declared (img : string) (a : Audio) : State := initial [] img a.

(** How the script ends: the catalogue could not be loaded, or it was and
    the tail of the script ran. *)
Inductive PageResult :=
| PageUp (o : Outcome) (table : list Button)
| PageDown (s : State).

(** The script from [await downloadStories()] on. *)
Definition main (index : option (list string)) (fetch : string → option Story)
    (img : string) (a : Audio) : PageResult :=
  match downloadStories index fetch (declared img a) with
  | Loaded s table => PageUp (boot s) table
  | LoadFailed s => PageDown s
  end.

(** ** Further invariants *)

(** [timeouts] holds ids the page has handed out, and none of them is the
    id of a pending timer other than a cue trigger. *)
Definition owned (s : State) : Prop :=
  (∀ id, id ∈ timeouts s → id < nextId s)
  ∧ ∀ t, t ∈ timers s → not_cue (cb t) → tid t ∉ timeouts s.

(** A pending interval timer with the given id, closure and period. *)
Definition has_interval (s : State) (id : nat) (c : Callback) (p : Q) : Prop :=
  ∃ t, t ∈ timers s ∧ tid t = id ∧ cb t = c ∧ period t = Some p.

(** The three intervals of [startClock] are pending. *)
Definition clock_on (s : State) : Prop :=
  has_interval s 0 RenderTick CONFIG.clock
  ∧ has_interval s 1 BlinkTick CONFIG.blink
  ∧ has_interval s 2 MouthTick CONFIG.mouthClose.

(** The overlay, when active, is for an emotion that the image map
    answers for, an inherited member included; the image displayed is
    the text of the answer after [qtBase], and an auto-clear is pending
    that is due at most [emotionDelay] from now. *)
Definition overlay_ok (s : State) : Prop :=
  ∀ e, currentEmotion s = Some e →
    (∃ v, emotionImageMap_get e = Some v
          ∧ faceImage s = CONFIG.qtBase +:+ to_text v)
    ∧ ∃ t, t ∈ timers s ∧ cb t = ClearEmotion
           ∧ (due t <= now s + CONFIG.emotionDelay)%Q.

(** The mouth is forced shut whenever the track has ended or the
    scheduler is paused. *)
Definition flags_ok (s : State) : Prop :=
  (hasEnded s = true → keepMouthShut s = true)
  ∧ (isPaused s = true → keepMouthShut s = true).

(** The displayed image is the one the page came with, one of the four
    compositions, or [qtBase] followed by the text of what the image map
    answers for some key: the file name of one of its own entries, or
    the text of a member it inherits. *)
Definition image_ok (img0 : string) (s : State) : Prop :=
  faceImage s = img0
  ∨ (∃ blink shut, faceImage s = composition blink shut)
  ∨ ∃ e v, emotionImageMap_get e = Some v
           ∧ faceImage s = CONFIG.qtBase +:+ to_text v.

(** What the scheduler never writes of a story: everything but the
    [consumed] flags. *)
Definition skeleton (st : Story) : string * string * string * list (Q * string) :=
  (name st, audio_name st, audio st, (λ c, (time c, emotion c)) <$> emotions st).

(** The cue whose trigger an event runs, if it runs one. *)
Definition fired_cue (e : Event) (s : State) : option (nat * nat) :=
  match e with
  | Fire id => t ← find_timer id s; fst <$> cue_of t
  | _ => None
  end.

(** The cues whose triggers run in the course of a run, in order. *)
Fixpoint cue_log (es : list Event) (s : State) : list (nat * nat) :=
  match es with
  | [] => []
  | e :: es' =>
      match step e s with
      | Some s' => option_list (fired_cue e s) ++ cue_log es' s'
      | None => []
      end
  end.

(** An auto-clear of the overlay is pending, due by [t1]. *)
Definition clear_by (t1 : Q) (s : State) : Prop :=
  ∃ t, t ∈ timers s ∧ cb t = ClearEmotion ∧ (due t <= t1)%Q.

(** A one-shot timer running [c] is pending, due at most [d] from now. *)
Definition reset_pending (s : State) (c : Callback) (d : Q) : Prop :=
  ∃ t, t ∈ timers s ∧ cb t = c ∧ period t = None ∧ (due t <= now s + d)%Q.

(** Shut eyes and a closed mouth have their reopening pending. *)
Definition animation_ok (s : State) : Prop :=
  (blinking s = true → reset_pending s BlinkOff CONFIG.blinkDuration)
  ∧ (closedMouth s = true → reset_pending s MouthOff CONFIG.mouthCloseDuration).

(** The timer is a cue trigger. *)
Definition cue_trigger (t : Timer) : bool :=
  match cb t with CueFire _ _ => true | _ => false end.

(** ** How much the event loop has left to run

    A callback runs its own body and arms at most one one-shot timer
    whose callback arms nothing: [cost] counts both runs. *)
Definition cost (c : Callback) : nat :=
  match c with
  | CueFire _ _ | BlinkTick | MouthTick => 2
  | _ => 1
  end.

(** How many times timer [t] is due up to time [T]. *)
Definition fires_left (T : Q) (t : Timer) : nat :=
  if Qle_b (due t) T then
    match period t with
    | None => 1
    | Some p => S (Z.to_nat (Qfloor ((T - due t) / p)))
    end
  else 0.

Definition weight (T : Q) (t : Timer) : nat := fires_left T t * cost (cb t).

(** A bound on the number of timer runs up to time [T]. *)
Definition backlog (T : Q) (s : State) : nat :=
  sum_list_with (weight T) (timers s).

(** Every interval has a positive period. *)
Definition periods_ok (s : State) : Prop :=
  ∀ t p, t ∈ timers s → period t = Some p → (0 < p)%Q.

(** * The story generator

    [make_story.js] and [make_story_gtts.js] turn a text with emotion
    tags into the story document the page loads; the two differ only in
    the speech service they call.  The parsing of the text and the
    building of the time line are modelled here. *)

Module make_story.

(** A JavaScript string: its UTF-16 code units. *)
Definition JSString := list N.

(** [LineTerminator]: LF, CR, LS, PS.  The [.] of a regular expression
    without the [s] flag matches any code unit but these. *)
Definition is_line_terminator (c : N) : bool :=
  (c =? 10)%N || (c =? 13)%N || (c =? 8232)%N || (c =? 8233)%N.

(** What [String.prototype.trim] strips: [WhiteSpace] (TAB, VT, FF, the
    space separators, ZWNBSP) and [LineTerminator]. *)
Definition is_white_space (c : N) : bool :=
  (c =? 9)%N || (c =? 11)%N || (c =? 12)%N || (c =? 32)%N || (c =? 160)%N
  || (c =? 5760)%N || ((8192 <=? c)%N && (c <=? 8202)%N)
  || (c =? 8239)%N || (c =? 8287)%N || (c =? 12288)%N || (c =? 65279)%N
  || is_line_terminator c.

Fixpoint trimStart (s : JSString) : JSString :=
  match s with
  | c :: s' => if is_white_space c then trimStart s' else s
  | [] => []
  end.

(** [s.trim()] *)
Definition trim (s : JSString) : JSString :=
  reverse (trimStart (reverse (trimStart s))).

(** The rest of [/\[(.*?)\]/] once [\[] has matched: the lazy group takes
    as few code units as it can, none of them a line terminator, up to
    the first [\]].  The result is the group and what follows the match. *)
Fixpoint close_tag (s : JSString) : option (JSString * JSString) :=
  match s with
  | [] => None
  | c :: s' =>
      if (c =? 93)%N then Some ([], s')
      else if is_line_terminator c then None
      else '(group, rest) ← close_tag s'; Some (c :: group, rest)
  end.

(** [regex.exec(text)] from [lastIndex] on, [s] being the text from there:
    the leftmost match.  The result is the text skipped before the match
    ([text.substring(lastIndex, match.index)]), the group [match[1]], and
    the text from the new [lastIndex] on. *)
Fixpoint regex_exec (s : JSString) : option (JSString * JSString * JSString) :=
  match s with
  | [] => None
  | c :: s' =>
      match (if (c =? 91)%N then close_tag s' else None) with
      | Some (group, rest) => Some ([], group, rest)
      | None => '(skipped, group, rest) ← regex_exec s';
                Some (c :: skipped, group, rest)
      end
  end.

Record Part := mkPart { text : JSString; emotion : JSString }.

Definition inspect {A} (a : A) : {b | a = b} := exist _ a eq_refl.

#[local] Unset Equations With Funext.

(** [extractEmotions(text)]: the [while] loop, [s] being the text from
    [lastIndex] on.  The result is [(parts, emotions)]. *)
Equations? extractEmotions (s : JSString) : list Part * list JSString
    by wf (length s) lt :=
  extractEmotions s with inspect (regex_exec s) := {
    | exist _ None _ => ([], []);
    | exist _ (Some (skipped, group, rest)) _ =>
        let emotion := trim group in
        let precedingText := trim skipped in
        let r := extractEmotions rest in
        ((match precedingText with
          | [] => []
          | _ => [mkPart precedingText emotion]
          end) ++ r.1,
         emotion :: r.2) }.
Proof.
  clear extractEmotions.
  assert (Hc : ∀ s g r, close_tag s = Some (g, r) → length r < length s).
  { clear. induction s as [|c s IH]; intros g r; cbn; [done|].
    destruct (c =? 93)%N; [intros [= <- <-]; lia|].
    destruct (is_line_terminator c); [done|].
    destruct (close_tag s) as [[g' r']|]; [|done]. cbn.
    intros [= <- <-]. specialize (IH _ _ eq_refl). lia. }
  assert (He : ∀ s k g r, regex_exec s = Some (k, g, r) → length r < length s).
  { clear -Hc. induction s as [|c s IH]; intros k g r; cbn; [done|].
    destruct (if (c =? 91)%N then close_tag s else None) as [[g' r']|] eqn:E.
    - intros [= <- <- <-]. destruct (c =? 91)%N; [|done].
      apply Hc in E. lia.
    - destruct (regex_exec s) as [[[k' g'] r']|]; [|done]. cbn.
      intros [= <- <- <-]. specialize (IH _ _ _ eq_refl). lia. }
  by eapply He.
Qed.




End make_story.

(** * Properties *)

(** ** The timer queue under [clearScheduledEmotions] and [scheduleEmotions] *)

Lemma set_timers_same s : set_timers (timers s) s = s.
Proof. by destruct s. Qed.

Lemma filter_all {A} (P : A → Prop) `{∀ x, Decision (P x)} (l : list A) :
  (∀ x, x ∈ l → P x) → filter P l = l.
Proof.
  induction l as [|x l IH]; intros HP; [done|].
  rewrite filter_cons_True by (apply HP; left).
  f_equal. apply IH. intros y Hy. apply HP. by right.
Qed.

Lemma clear_fold ids s :
  foldl (λ acc id, clearTimeout id acc) s ids
  = set_timers (filter (λ t, tid t ∉ ids) (timers s)) s.
Proof.
  revert s. induction ids as [|id ids IH]; intros s; simpl.
  - rewrite filter_all; [by rewrite set_timers_same|].
    intros t _. apply not_elem_of_nil.
  - rewrite IH. unfold clearTimeout, set_timers; cbn. f_equal.
    rewrite list_filter_filter. apply list_filter_iff.
    intros t. rewrite not_elem_of_cons. tauto.
Qed.

Lemma clearScheduledEmotions_eq s :
  clearScheduledEmotions s
  = set_timeouts [] (set_timers (filter (λ t, tid t ∉ timeouts s) (timers s)) s).
Proof. unfold clearScheduledEmotions. by rewrite clear_fold. Qed.

Lemma pending_app s q :
  omap cue_of (timers s ++ q) = pending s ++ omap cue_of q.
Proof. apply omap_app. Qed.

Lemma tracked_spec s :
  tracked s ↔ ∀ t k j, t ∈ timers s → cb t = CueFire k j →
                       tid t ∈ timeouts s ∧ period t = None.
Proof.
  unfold tracked. rewrite forallb_forall. split.
  - intros H t k j Hin Hcb. apply list_elem_of_In, H in Hin.
    unfold tracked_timer in Hin. rewrite Hcb in Hin.
    destruct (period t); [done|]. by apply bool_decide_eq_true in Hin.
  - intros H t Hin. apply list_elem_of_In in Hin. unfold tracked_timer.
    destruct (cb t) as [k j| | | | | |] eqn:Hcb; try done.
    destruct (H t k j Hin Hcb) as [Hid ->]. by apply bool_decide_eq_true.
Qed.

Lemma cue_of_Some t k j d :
  cue_of t = Some (k, j, d) ↔ cb t = CueFire k j ∧ due t = d.
Proof.
  unfold cue_of. destruct (cb t); split; intros H;
    try discriminate; try (by destruct H); [|destruct H]; naive_solver.
Qed.

Lemma elem_of_pending s k j d :
  (k, j, d) ∈ pending s ↔ ∃ t, t ∈ timers s ∧ cb t = CueFire k j ∧ due t = d.
Proof.
  unfold pending. rewrite list_elem_of_omap.
  split; intros (t & Hin & H); exists t; split; try done; by apply cue_of_Some.
Qed.

Lemma elem_of_pending_cues s k j :
  (k, j) ∈ pending_cues s ↔ ∃ t, t ∈ timers s ∧ cb t = CueFire k j.
Proof.
  unfold pending_cues. rewrite list_elem_of_fmap. split.
  - intros ([[k' j'] d] & Heq & Hin). cbn in Heq. simplify_eq.
    apply elem_of_pending in Hin as (t & ? & ? & ?). eauto.
  - intros (t & Hin & Hcb). exists (k, j, due t). split; [done|].
    apply elem_of_pending. eauto.
Qed.

(** A tracked queue holds no cue trigger once the ids in [timeouts] are
    cleared. *)
Lemma clear_pending s :
  tracked s → pending (clearScheduledEmotions s) = [].
Proof.
  intros Htr. destruct (pending _) as [|[[k j] d] l] eqn:E; [done|exfalso].
  assert (Hin : (k, j, d) ∈ pending (clearScheduledEmotions s))
    by (rewrite E; left).
  apply elem_of_pending in Hin as (t & Hin & Hcb & _).
  rewrite clearScheduledEmotions_eq in Hin. cbn in Hin.
  apply list_elem_of_filter in Hin as [Hn Hin].
  apply Hn. by eapply tracked_spec.
Qed.

Lemma arm_cue_frame k j tp s :
  stories (arm_cue k j tp s) = stories s
  ∧ emotionSchedule (arm_cue k j tp s) = emotionSchedule s
  ∧ audioEl (arm_cue k j tp s) = audioEl s
  ∧ now (arm_cue k j tp s) = now s
  ∧ isPaused (arm_cue k j tp s) = isPaused s
  ∧ hasEnded (arm_cue k j tp s) = hasEnded s
  ∧ keepMouthShut (arm_cue k j tp s) = keepMouthShut s
  ∧ currentEmotion (arm_cue k j tp s) = currentEmotion s
  ∧ faceImage (arm_cue k j tp s) = faceImage s
  ∧ blinking (arm_cue k j tp s) = blinking s
  ∧ closedMouth (arm_cue k j tp s) = closedMouth s.
Proof. unfold arm_cue. by destruct (negb (consumed tp) && Qpos_b _). Qed.

Lemma arm_cues_frame k j cs s :
  stories (arm_cues k j cs s) = stories s
  ∧ emotionSchedule (arm_cues k j cs s) = emotionSchedule s
  ∧ audioEl (arm_cues k j cs s) = audioEl s
  ∧ now (arm_cues k j cs s) = now s
  ∧ isPaused (arm_cues k j cs s) = isPaused s
  ∧ hasEnded (arm_cues k j cs s) = hasEnded s
  ∧ keepMouthShut (arm_cues k j cs s) = keepMouthShut s
  ∧ currentEmotion (arm_cues k j cs s) = currentEmotion s
  ∧ faceImage (arm_cues k j cs s) = faceImage s
  ∧ blinking (arm_cues k j cs s) = blinking s
  ∧ closedMouth (arm_cues k j cs s) = closedMouth s.
Proof.
  revert j s. induction cs as [|c cs IH]; intros j s; simpl; [done|].
  destruct (IH (S j) (arm_cue k j c s)) as (->&->&->&->&->&->&->&->&->&->&->).
  apply arm_cue_frame.
Qed.

Lemma arm_cues_timers k j cs s :
  let fs := due_fires k j cs (currentTime (audioEl s)) (now s) in
  timers (arm_cues k j cs s) = timers s ++ armed_timers (nextId s) fs
  ∧ timeouts (arm_cues k j cs s) = timeouts s ++ seq (nextId s) (length fs)
  ∧ nextId (arm_cues k j cs s) = nextId s + length fs.
Proof.
  revert j s. induction cs as [|c cs IH]; intros j s; simpl.
  - rewrite !app_nil_r. auto with lia.
  - destruct (IH (S j) (arm_cue k j c s)) as (E1 & E2 & E3).
    destruct (arm_cue_frame k j c s) as (_&_&Ha&Hn&_).
    rewrite Ha, Hn in E1, E2, E3. rewrite E1, E2, E3. clear E1 E2 E3 IH.
    unfold arm_cue.
    destruct (negb (consumed c) && Qpos_b _); cbn.
    + rewrite <- !app_assoc. cbn. repeat split; auto with lia.
    + repeat split; auto with lia.
Qed.

Lemma omap_armed_timers id fs : omap cue_of (armed_timers id fs) = fs.
Proof.
  revert id. induction fs as [|[[k j] d] fs IH]; intros id; cbn; [done|].
  by rewrite IH.
Qed.

Lemma arm_cues_pending k j cs s :
  pending (arm_cues k j cs s)
  = pending s ++ due_fires k j cs (currentTime (audioEl s)) (now s).
Proof.
  unfold pending at 1. destruct (arm_cues_timers k j cs s) as (-> & _).
  by rewrite pending_app, omap_armed_timers.
Qed.

Lemma pending_nil_tracked s : pending s = [] → tracked s.
Proof.
  intros E. apply tracked_spec. intros t k j Hin Hcb. exfalso.
  assert (H : (k, j, due t) ∈ pending s) by (apply elem_of_pending; eauto).
  rewrite E in H. by apply not_elem_of_nil in H.
Qed.

(** [scheduleEmotions] leaves exactly the fires computed from the audio
    position it reads. *)
Lemma scheduleEmotions_pending s :
  tracked s → pending (scheduleEmotions s) = expected s.
Proof.
  intros Htr. unfold scheduleEmotions, expected.
  pose proof (clear_pending s Htr) as Hc.
  rewrite clearScheduledEmotions_eq in *. cbn.
  destruct (emotionSchedule s) as [k|]; [|done].
  by rewrite arm_cues_pending, Hc.
Qed.

Lemma scheduleEmotions_frame s :
  stories (scheduleEmotions s) = stories s
  ∧ emotionSchedule (scheduleEmotions s) = emotionSchedule s
  ∧ audioEl (scheduleEmotions s) = audioEl s
  ∧ now (scheduleEmotions s) = now s
  ∧ isPaused (scheduleEmotions s) = isPaused s
  ∧ hasEnded (scheduleEmotions s) = hasEnded s
  ∧ keepMouthShut (scheduleEmotions s) = keepMouthShut s
  ∧ currentEmotion (scheduleEmotions s) = currentEmotion s
  ∧ faceImage (scheduleEmotions s) = faceImage s
  ∧ blinking (scheduleEmotions s) = blinking s
  ∧ closedMouth (scheduleEmotions s) = closedMouth s.
Proof.
  unfold scheduleEmotions. rewrite clearScheduledEmotions_eq. cbn.
  destruct (emotionSchedule s) as [k|] eqn:E; [|by rewrite ?E].
  rewrite <- E.
  apply (arm_cues_frame k 0 _ (set_timeouts [] (set_timers _ s))).
Qed.

Lemma resumeAudio_playing s :
  hasEnded s = false →
  resumeAudio s
  = scheduleEmotions (audio_play (set_keepMouthShut false (set_isPaused false s))).
Proof. intros H. unfold resumeAudio. cbn. by rewrite H. Qed.

Lemma resumeAudio_pending s :
  tracked s → hasEnded s = false →
  pending (resumeAudio s)
  = due_fires (default 0 (emotionSchedule s)) 0 (schedule_cues s)
      (currentTime (audioEl s)) (now s).
Proof.
  intros Htr He. rewrite resumeAudio_playing by done.
  rewrite scheduleEmotions_pending by done.
  unfold expected, schedule_cues. cbn. by destruct (emotionSchedule s).
Qed.

(** The fires of [due_fires] for one cue index. *)
Lemma due_fires_filter k j cs pos t0 j' :
  filter (λ f, f.1 = (k, j')) (due_fires k j cs pos t0)
  = match (if decide (j ≤ j') then cs !! (j' - j) else None) with
    | Some c =>
        if negb (consumed c) && Qpos_b ((time c - pos) * 1000)
        then [(k, j', (t0 + (time c - pos) * 1000)%Q)] else []
    | None => []
    end.
Proof.
  revert j. induction cs as [|c cs IH]; intros j; cbn.
  { by destruct (decide (j ≤ j')). }
  rewrite filter_app, IH. clear IH.
  destruct (decide (j ≤ j')) as [Hle|Hgt].
  - destruct (decide (j = j')) as [->|Hne].
    + rewrite Nat.sub_diag. cbn.
      destruct (decide (S j' ≤ j')); [lia|]. rewrite app_nil_r.
      destruct (negb (consumed c) && Qpos_b _); [|done].
      by rewrite filter_cons_True.
    + destruct (decide (S j ≤ j')); [|lia].
      replace (j' - j) with (S (j' - S j)) by lia. cbn.
      destruct (negb (consumed c) && Qpos_b _); [|done].
      rewrite filter_cons_False; [done|]. cbn. congruence.
  - destruct (decide (S j ≤ j')); [lia|]. rewrite app_nil_r.
    destruct (negb (consumed c) && Qpos_b _); [|done].
    rewrite filter_cons_False; [done|]. cbn. intros [=]. lia.
Qed.

Lemma Qpos_b_true q : Qpos_b q = true ↔ (0 < q)%Q.
Proof.
  unfold Qpos_b. destruct (Qlt_le_dec 0 q) as [H|H]; split; try done.
  intros H'. exfalso. by apply (Qlt_not_le _ _ H').
Qed.

Lemma Qpos_b_false q : Qpos_b q = false ↔ (q <= 0)%Q.
Proof.
  unfold Qpos_b. destruct (Qlt_le_dec 0 q) as [H|H]; split; try done.
  intros H'. exfalso. by apply (Qlt_not_le _ _ H).
Qed.

Lemma Qle_b_true a b : Qle_b a b = true ↔ (a <= b)%Q.
Proof.
  unfold Qle_b. destruct (Qlt_le_dec b a) as [H|H]; split; try done.
  intros H'. exfalso. by apply (Qlt_not_le _ _ H).
Qed.

(** ** What the closures and the entry points leave alone *)

Lemma arms_no_cue_pending s s' : arms_no_cue s s' → pending s' = pending s.
Proof.
  intros [_ [[E _]|(d & c & p & Hc & _ & E)]]; unfold pending; rewrite E; [done|].
  rewrite omap_app. cbn. unfold cue_of at 2. cbn.
  destruct c; try done; by rewrite app_nil_r.
Qed.

Lemma displayEmotion_arms e s : arms_no_cue s (displayEmotion e s).
Proof.
  unfold displayEmotion, arms_no_cue.
  destruct (emotionImageMap_get e) as [v|]; [|by auto].
  destruct (truthy_value v); [|by auto]. cbn. split; [done|].
  right. by exists (now s + CONFIG.emotionDelay)%Q, ClearEmotion, None.
Qed.

Lemma displayEmotion_frame e s :
  stories (displayEmotion e s) = stories s
  ∧ emotionSchedule (displayEmotion e s) = emotionSchedule s
  ∧ audioEl (displayEmotion e s) = audioEl s
  ∧ now (displayEmotion e s) = now s
  ∧ isPaused (displayEmotion e s) = isPaused s
  ∧ hasEnded (displayEmotion e s) = hasEnded s
  ∧ keepMouthShut (displayEmotion e s) = keepMouthShut s.
Proof.
  unfold displayEmotion.
  destruct (emotionImageMap_get e) as [v|]; [|done].
  by destruct (truthy_value v).
Qed.

Lemma run_callback_arms c s : arms_no_cue s (run_callback c s).
Proof.
  destruct c; cbn.
  - destruct (cue_at s k j) as [tp|]; [|by split; auto].
    apply (displayEmotion_arms (emotion tp) (write_consumed k j true s)).
  - by split; auto.
  - unfold renderTick. destruct (_ && _); by split; auto.
  - split; [done|]. right. by eexists _, BlinkOff, None.
  - by split; auto.
  - split; [done|]. right. by eexists _, MouthOff, None.
  - by split; auto.
Qed.

Lemma run_callback_frame c s :
  emotionSchedule (run_callback c s) = emotionSchedule s
  ∧ audioEl (run_callback c s) = audioEl s
  ∧ now (run_callback c s) = now s
  ∧ isPaused (run_callback c s) = isPaused s
  ∧ hasEnded (run_callback c s) = hasEnded s
  ∧ keepMouthShut (run_callback c s) = keepMouthShut s.
Proof.
  destruct c; cbn; try done.
  - destruct (cue_at s k j) as [tp|]; [|done].
    destruct (displayEmotion_frame (emotion tp) (write_consumed k j true s))
      as (_&->&->&->&->&->&->). done.
  - unfold renderTick. by destruct (_ && _).
Qed.

(** Only a cue trigger writes the store, and only its own cue. *)
Lemma run_callback_stories c s :
  stories (run_callback c s)
  = match c with
    | CueFire k j =>
        match cue_at s k j with
        | Some _ => stories (write_consumed k j true s)
        | None => stories s
        end
    | _ => stories s
    end.
Proof.
  destruct c; cbn; try done.
  - destruct (cue_at s k j) as [tp|]; [|done].
    by destruct (displayEmotion_frame (emotion tp) (write_consumed k j true s))
      as (->&_).
  - unfold renderTick. by destruct (_ && _).
Qed.

Lemma cue_at_write_consumed s k j b k' j' :
  cue_at (write_consumed k j b s) k' j'
  = if decide ((k', j') = (k, j)) then set_consumed b <$> cue_at s k j
    else cue_at s k' j'.
Proof.
  unfold cue_at, write_consumed. cbn.
  destruct (decide (k' = k)) as [->|Hk].
  - rewrite list_lookup_alter_eq. destruct (stories s !! k) as [st|]; cbn.
    + destruct (decide (j' = j)) as [->|Hj].
      * rewrite decide_True by done. by rewrite list_lookup_alter_eq.
      * rewrite decide_False by congruence.
        by rewrite list_lookup_alter_ne.
    + by destruct (decide _).
  - rewrite decide_False by congruence. by rewrite list_lookup_alter_ne.
Qed.

Lemma requeue_interval_pending_cues (id : nat) (p : Q) (q : list Timer) :
  fst <$> omap cue_of (postpone id p <$> q) = fst <$> omap cue_of q.
Proof.
  unfold cue_of, postpone. induction q as [|t' q IH]; [done|]. cbn.
  destruct (decide (tid t' = id)); cbn; destruct (cb t'); cbn;
    by rewrite ?IH.
Qed.

(** The cue triggers left in the queue once a timer has been taken to
    run. *)
Lemma requeue_pending_cues t (q : list Timer) :
  fst <$> omap cue_of (requeue t q) ⊆ fst <$> omap cue_of q.
Proof.
  unfold requeue. destruct (period t) as [p|].
  - by rewrite requeue_interval_pending_cues.
  - intros x Hx. apply list_elem_of_fmap in Hx as (f & -> & Hf).
    apply list_elem_of_omap in Hf as (t' & Hin & Hc).
    apply list_elem_of_filter in Hin as [_ Hin].
    apply list_elem_of_fmap. exists f. split; [done|].
    apply list_elem_of_omap. eauto.
Qed.

(** ** The invariant is kept by every event *)

Lemma omap_sublist {A B} (f : A → option B) (l1 l2 : list A) :
  l1 `sublist_of` l2 → omap f l1 `sublist_of` omap f l2.
Proof.
  induction 1 as [|x l1 l2 _ IH|x l1 l2 _ IH]; cbn; [done| |].
  - destruct (f x); [by constructor|done].
  - destruct (f x); [by constructor|done].
Qed.

Lemma pending_cues_sublist (q q' : list Timer) :
  q' `sublist_of` q →
  (fst <$> omap cue_of q') `sublist_of` (fst <$> omap cue_of q).
Proof. intros H. by apply fmap_sublist, omap_sublist. Qed.

(** The invariant only reads the queue, the id counter, [timeouts] and
    the store. *)
Lemma wf_frame s s' :
  timers s' = timers s → nextId s' = nextId s →
  timeouts s' = timeouts s → stories s' = stories s →
  wf s → wf s'.
Proof.
  intros Et En Eo Es [H1 H2 H3 H4 H5].
  split; unfold tracked, pending_cues, pending, cue_at in *;
    rewrite ?Et, ?En, ?Eo, ?Es; done.
Qed.

(** Taking timers out of the queue keeps the invariant, whatever becomes
    of [timeouts], as long as the cue triggers left are tracked. *)
Lemma wf_remove s s' :
  timers s' `sublist_of` timers s → nextId s' = nextId s →
  stories s' = stories s → tracked s' →
  wf s → wf s'.
Proof.
  intros Hsub En Es Htr [H1 H2 H3 H4 H5]. split.
  - eapply sublist_NoDup; [exact H1|]. by apply fmap_sublist.
  - intros t Hin. rewrite En. apply H2. by eapply elem_of_sublist.
  - done.
  - eapply sublist_NoDup; [exact H4|]. by apply pending_cues_sublist.
  - intros k j Hin. unfold cue_at. rewrite Es. apply H5.
    eapply elem_of_sublist; [exact Hin|]. by apply pending_cues_sublist.
Qed.

Lemma wf_clear s : wf s → wf (clearScheduledEmotions s).
Proof.
  intros Hwf. apply (wf_remove s); try done.
  - rewrite clearScheduledEmotions_eq. cbn. apply sublist_filter.
  - by rewrite clearScheduledEmotions_eq.
  - by rewrite clearScheduledEmotions_eq.
  - apply pending_nil_tracked, clear_pending, Hwf.
Qed.

Lemma armed_timers_ids id fs : tid <$> armed_timers id fs = seq id (length fs).
Proof.
  revert id. induction fs as [|[[k j] d] fs IH]; intros id; cbn; [done|].
  by rewrite IH.
Qed.

Lemma elem_of_armed_timers t id fs :
  t ∈ armed_timers id fs →
  id ≤ tid t < id + length fs ∧ period t = None ∧ ∃ k j, cb t = CueFire k j.
Proof.
  revert id. induction fs as [|[[k j] d] fs IH]; intros id; cbn.
  - intros H. by apply not_elem_of_nil in H.
  - intros [->|Hin]%elem_of_cons; cbn.
    + split; [lia|]. eauto.
    + destruct (IH _ Hin) as (? & ? & ?). split; [lia|done].
Qed.

(** Membership in [due_fires]. *)
Lemma elem_of_due_fires k j cs pos t0 k' j' d :
  (k', j', d) ∈ due_fires k j cs pos t0 ↔
  k' = k ∧ j ≤ j' ∧ ∃ c, cs !! (j' - j) = Some c ∧ consumed c = false
    ∧ (0 < (time c - pos) * 1000)%Q ∧ d = (t0 + (time c - pos) * 1000)%Q.
Proof.
  revert j. induction cs as [|c cs IH]; intros j; cbn.
  { split; [intros H; by apply not_elem_of_nil in H|]. by intros (_&_&?&?&_). }
  rewrite elem_of_app, IH. clear IH. split.
  - intros [H|(-> & Hle & c' & Hl & Hc)].
    + destruct (negb (consumed c) && Qpos_b _) eqn:E;
        [|by apply not_elem_of_nil in H].
      apply list_elem_of_singleton in H. simplify_eq.
      apply andb_true_iff in E as [E1 E2]. apply negb_true_iff in E1.
      apply Qpos_b_true in E2. rewrite Nat.sub_diag. eauto 10.
    + split; [done|]. split; [lia|]. exists c'.
      replace (j' - j) with (S (j' - S j)) by lia. done.
  - intros (-> & Hle & c' & Hl & Hc & Hp & ->).
    destruct (decide (j' = j)) as [->|Hne].
    + rewrite Nat.sub_diag in Hl. cbn in Hl. simplify_eq. left.
      apply Qpos_b_true in Hp. rewrite Hc, Hp. cbn. left.
    + right. split; [done|]. split; [lia|]. exists c'.
      replace (j' - j) with (S (j' - S j)) in Hl by lia. done.
Qed.

Lemma due_fires_NoDup k j cs pos t0 : NoDup (fst <$> due_fires k j cs pos t0).
Proof.
  revert j. induction cs as [|c cs IH]; intros j; cbn; [constructor|].
  rewrite fmap_app. apply NoDup_app. split; [|split; [|apply IH]].
  - destruct (_ && _); cbn; [apply NoDup_singleton|constructor].
  - intros x Hx Hx'. destruct (_ && _); [|by apply not_elem_of_nil in Hx].
    apply list_elem_of_singleton in Hx. subst x.
    apply list_elem_of_fmap in Hx' as ([[k' j'] d] & Heq & Hin).
    cbn in Heq. simplify_eq. apply elem_of_due_fires in Hin. lia.
Qed.

Lemma schedule_cues_lookup s k j :
  emotionSchedule s = Some k → schedule_cues s !! j = cue_at s k j.
Proof.
  intros E. unfold schedule_cues, cue_at. rewrite E.
  by destruct (stories s !! k).
Qed.

Lemma wf_scheduleEmotions s : wf s → wf (scheduleEmotions s).
Proof.
  intros Hwf. pose proof (wf_clear s Hwf) as Hc.
  pose proof (clear_pending s (wf_tracked s Hwf)) as Hp.
  unfold scheduleEmotions.
  set (s1 := clearScheduledEmotions s) in *.
  destruct (emotionSchedule s1) as [k|] eqn:Ek; [|done].
  destruct (arm_cues_timers k 0 (schedule_cues s1) s1) as (Et & Eo & En).
  destruct (arm_cues_frame k 0 (schedule_cues s1) s1) as (Es & _).
  set (fs := due_fires k 0 (schedule_cues s1) (currentTime (audioEl s1)) (now s1)) in *.
  destruct Hc as [H1 H2 H3 H4 H5]. split.
  - rewrite Et, fmap_app, armed_timers_ids. apply NoDup_app.
    split; [done|]. split; [|apply NoDup_seq].
    intros id Hid Hid'. apply list_elem_of_fmap in Hid as (t & -> & Hin).
    apply H2 in Hin. apply elem_of_seq in Hid'. lia.
  - intros t. rewrite Et, En, elem_of_app. intros [Hin|Hin].
    + apply H2 in Hin. lia.
    + apply elem_of_armed_timers in Hin. lia.
  - apply tracked_spec. intros t k' j'. rewrite Et, Eo, elem_of_app.
    intros [Hin|Hin] Hcb.
    + exfalso. assert (Hx : (k', j', due t) ∈ pending s1)
        by (apply elem_of_pending; eauto).
      rewrite Hp in Hx. by apply not_elem_of_nil in Hx.
    + apply elem_of_armed_timers in Hin as (Hid & Hper & _).
      split; [|done]. apply elem_of_app. right. by apply elem_of_seq.
  - unfold pending_cues. rewrite arm_cues_pending, Hp. cbn.
    apply due_fires_NoDup.
  - intros k' j'. unfold pending_cues. rewrite arm_cues_pending, Hp. cbn.
    intros Hin. apply list_elem_of_fmap in Hin as ([[k2 j2] d] & Heq & Hin).
    cbn in Heq. simplify_eq.
    apply elem_of_due_fires in Hin as (-> & _ & c & Hl & Hc & _).
    rewrite Nat.sub_0_r, (schedule_cues_lookup _ k) in Hl by done.
    exists c. split; [|done]. unfold cue_at in *. by rewrite Es.
Qed.

Lemma tracked_scheduleEmotions s : tracked s → tracked (scheduleEmotions s).
Proof.
  intros Htr. pose proof (clear_pending s Htr) as Hp.
  unfold scheduleEmotions. set (s1 := clearScheduledEmotions s) in *.
  destruct (emotionSchedule s1) as [k|] eqn:Ek; [|by apply pending_nil_tracked].
  destruct (arm_cues_timers k 0 (schedule_cues s1) s1) as (Et & Eo & _).
  apply tracked_spec. intros t k' j'. rewrite Et, Eo, elem_of_app.
  intros [Hin|Hin] Hcb.
  - exfalso. assert (Hx : (k', j', due t) ∈ pending s1)
      by (apply elem_of_pending; eauto).
    rewrite Hp in Hx. by apply not_elem_of_nil in Hx.
  - apply elem_of_armed_timers in Hin as (Hid & Hper & _).
    split; [|done]. apply elem_of_app. right. by apply elem_of_seq.
Qed.

Lemma wf_pauseAudio s : wf s → wf (pauseAudio s).
Proof.
  intros Hwf. unfold pauseAudio. apply wf_clear.
  by apply (wf_frame s).
Qed.

Lemma wf_resumeAudio s : wf s → wf (resumeAudio s).
Proof.
  intros Hwf. unfold resumeAudio. cbn.
  destruct (hasEnded s); cbn.
  - by apply (wf_frame s).
  - apply wf_scheduleEmotions. by apply (wf_frame s).
Qed.

Lemma array_get_Some {A} (a : list A) i x :
  array_get a i = Some x ↔ (0 ≤ i)%Z ∧ a !! Z.to_nat i = Some x.
Proof.
  unfold array_get. destruct (0 <=? i)%Z eqn:E.
  - apply Z.leb_le in E. split; [by intros ?|by intros [_ ?]].
  - apply Z.leb_gt in E. split; [done|]. intros [? _]. lia.
Qed.

Lemma array_get_None {A} (a : list A) i :
  array_get a i = None ↔ (i < 0)%Z ∨ (Z.of_nat (length a) ≤ i)%Z.
Proof.
  unfold array_get. destruct (0 <=? i)%Z eqn:E.
  - apply Z.leb_le in E. rewrite lookup_ge_None. lia.
  - apply Z.leb_gt in E. split; [lia|done].
Qed.

(** The store after [selectStory(index)] with a valid index: the cues of
    that story read unconsumed, every other cue is as before. *)
Lemma cue_at_selectStory s i s' k j :
  selectStory i s = Done s' →
  cue_at s' k j
  = if decide (k = Z.to_nat i) then set_consumed false <$> cue_at s k j
    else cue_at s k j.
Proof.
  unfold selectStory. destruct (array_get (stories s) i) as [st|] eqn:E; [|done].
  intros [= <-]. apply array_get_Some in E as [_ E].
  unfold cue_at. cbn. destruct (decide (k = Z.to_nat i)) as [->|Hne].
  - rewrite list_lookup_insert_eq by (by eapply lookup_lt_Some).
    rewrite E. cbn. by rewrite list_lookup_fmap.
  - by rewrite list_lookup_insert_ne.
Qed.

Lemma selectStory_frame s i :
  timers (state_of (selectStory i s)) = timers s
  ∧ nextId (state_of (selectStory i s)) = nextId s
  ∧ timeouts (state_of (selectStory i s)) = timeouts s
  ∧ isPaused (state_of (selectStory i s)) = isPaused s
  ∧ hasEnded (state_of (selectStory i s)) = hasEnded s
  ∧ keepMouthShut (state_of (selectStory i s)) = keepMouthShut s
  ∧ currentEmotion (state_of (selectStory i s)) = currentEmotion s
  ∧ faceImage (state_of (selectStory i s)) = faceImage s
  ∧ now (state_of (selectStory i s)) = now s.
Proof. unfold selectStory. by destruct (array_get (stories s) i). Qed.

Lemma wf_selectStory s i : wf s → wf (state_of (selectStory i s)).
Proof.
  intros Hwf. destruct (selectStory i s) as [s'|e s'] eqn:E; cbn.
  2: { unfold selectStory in E. destruct (array_get _ _); by simplify_eq. }
  pose proof (selectStory_frame s i) as (Et & En & Eo & _). rewrite E in *.
  cbn in *. destruct Hwf as [H1 H2 H3 H4 H5].
  split; unfold tracked, pending_cues, pending in *; rewrite ?Et, ?En, ?Eo; try done.
  intros k j Hin. destruct (H5 k j Hin) as (c & Hc & Hf).
  rewrite (cue_at_selectStory s i s') by done. rewrite Hc.
  destruct (decide _); cbn; eauto.
Qed.

Lemma wf_clickStory s i : wf s → wf (state_of (clickStory i s)).
Proof.
  intros Hwf. pose proof (wf_selectStory s i Hwf) as H.
  unfold clickStory. destruct (selectStory i s) as [s1|e s1]; [|exact H].
  apply (wf_resumeAudio (set_hasEnded false s1)). by apply (wf_frame s1).
Qed.

Lemma postpone_same id p t' :
  tid (postpone id p t') = tid t' ∧ cb (postpone id p t') = cb t'
  ∧ period (postpone id p t') = period t'.
Proof. unfold postpone. by destruct (decide _). Qed.

Lemma requeue_interval t p q :
  period t = Some p → requeue t q = postpone (tid t) p <$> q.
Proof. intros E. unfold requeue. by rewrite E. Qed.

Lemma requeue_oneshot t q :
  period t = None → requeue t q = filter (λ t', tid t' ≠ tid t) q.
Proof. intros E. unfold requeue. by rewrite E. Qed.

Lemma wf_requeue s t : wf s → wf (set_timers (requeue t (timers s)) s).
Proof.
  intros Hwf. destruct (period t) as [p|] eqn:Ep.
  - rewrite (requeue_interval t p) by done. destruct Hwf as [H1 H2 H3 H4 H5].
    split; cbn.
    + rewrite <- list_fmap_compose.
      erewrite list_fmap_ext; [exact H1|].
      intros i x _. apply postpone_same.
    + intros t' Hin. apply list_elem_of_fmap in Hin as (t0 & -> & Hin).
      destruct (postpone_same (tid t) p t0) as (-> & _). by apply H2.
    + apply tracked_spec. cbn. intros t' k j Hin Hcb.
      apply list_elem_of_fmap in Hin as (t0 & -> & Hin).
      destruct (postpone_same (tid t) p t0) as (-> & Ecb & ->).
      rewrite Ecb in Hcb. by eapply tracked_spec.
    + unfold pending_cues, pending. cbn.
      by rewrite (requeue_interval_pending_cues (tid t) p).
    + intros k j. unfold pending_cues, pending. cbn.
      rewrite (requeue_interval_pending_cues (tid t) p). apply H5.
  - rewrite requeue_oneshot by done. apply (wf_remove s); try done.
    + cbn. apply sublist_filter.
    + apply tracked_spec. cbn. intros t' k j Hin Hcb.
      apply list_elem_of_filter in Hin as [_ Hin].
      by eapply (tracked_spec s); [apply Hwf| |].
Qed.

(** Once a cue trigger has been taken to run, no trigger for its cue is
    left. *)
Lemma requeue_cue_gone s t k j :
  wf s → t ∈ timers s → cb t = CueFire k j →
  (k, j) ∉ pending_cues (set_timers (requeue t (timers s)) s).
Proof.
  intros Hwf Hin Hcb.
  destruct (proj1 (tracked_spec s) (wf_tracked s Hwf) t k j Hin Hcb) as [_ Ep].
  rewrite requeue_oneshot by done. unfold pending_cues, pending. cbn.
  pose proof (wf_nodup s Hwf) as Hnd. unfold pending_cues, pending in Hnd.
  apply list_elem_of_split in Hin as (l1 & l2 & E). rewrite E in *.
  rewrite filter_app, filter_cons_False by (intros H; by apply H).
  rewrite omap_app, fmap_app in *. cbn in Hnd.
  assert (Ec : cue_of t = Some (k, j, due t)) by by apply cue_of_Some.
  rewrite Ec in Hnd. cbn in Hnd.
  apply NoDup_app in Hnd as (_ & Hd & Hn2). apply NoDup_cons in Hn2 as [Hn2 _].
  intros [Hx|Hx]%elem_of_app.
  - eapply (Hd (k, j)); [|left].
    eapply elem_of_sublist; [exact Hx|]. apply pending_cues_sublist, sublist_filter.
  - apply Hn2.
    eapply elem_of_sublist; [exact Hx|]. apply pending_cues_sublist, sublist_filter.
Qed.

Lemma wf_arms s1 s2 :
  wf s1 → arms_no_cue s1 s2 →
  (∀ k j, (k, j) ∈ pending_cues s1 →
          ∃ c, cue_at s2 k j = Some c ∧ consumed c = false) →
  wf s2.
Proof.
  intros [H1 H2 H3 H4 H5] Harm Hst.
  pose proof (arms_no_cue_pending _ _ Harm) as Ep.
  destruct Harm as [Eo [[Et En]|(d & c & p & Hc & En & Et)]].
  - split; unfold tracked, pending_cues in *; rewrite ?Et, ?En, ?Eo, ?Ep; done.
  - split; unfold tracked, pending_cues in *; rewrite ?Ep; try done.
    + rewrite Et, fmap_app. apply NoDup_app. split; [done|].
      split; [|apply NoDup_singleton].
      intros id Hid Hid'. apply list_elem_of_singleton in Hid'. subst id.
      apply list_elem_of_fmap in Hid as (t & Heq & Hin). apply H2 in Hin.
      cbn in Heq. lia.
    + intros t. rewrite Et, En, elem_of_app.
      intros [Hin|Hin]; [apply H2 in Hin; lia|].
      apply list_elem_of_singleton in Hin. subst t. cbn. lia.
    + rewrite Et, Eo, forallb_app, H3. cbn. unfold tracked_timer. cbn.
      by destruct c, p.
Qed.

Lemma wf_fire s t : wf s → t ∈ timers s → wf (fire t s).
Proof.
  intros Hwf Hin. unfold fire.
  pose proof (wf_requeue s t Hwf) as H1.
  set (s1 := set_timers (requeue t (timers s)) s) in *.
  apply (wf_arms s1); [done|apply run_callback_arms|].
  intros k j Hkj. destruct (wf_unconsumed s1 H1 k j Hkj) as (c & Hc & Hf).
  unfold cue_at at 1. rewrite run_callback_stories.
  destruct (cb t) as [k' j'| | | | | |] eqn:Hcb; try by eauto.
  destruct (cue_at s1 k' j') as [tp|] eqn:Htp; [|by eauto].
  fold (cue_at (write_consumed k' j' true s1) k j).
  rewrite cue_at_write_consumed, decide_False; [by eauto|].
  intros [= -> ->]. by apply (requeue_cue_gone s t k' j' Hwf Hin Hcb).
Qed.

Lemma find_timer_Some id s t :
  find_timer id s = Some t → t ∈ timers s ∧ tid t = id.
Proof.
  unfold find_timer. destruct (list_find _ _) as [[i t']|] eqn:E; [|done].
  cbn. intros [= <-]. apply list_find_Some in E as (Hl & Ht & _).
  split; [|done]. by eapply list_elem_of_lookup_2.
Qed.

Theorem wf_step e s s' : wf s → step e s = Some s' → wf s'.
Proof.
  intros Hwf. destruct e; cbn.
  - destruct (Qle_b 0 d); [|done]. intros [= <-]. by apply (wf_frame s).
  - destruct (find_timer id s) as [t|] eqn:Ef; [|done].
    destruct (Qle_b (due t) (now s)); [|done]. intros [= <-].
    apply wf_fire; [done|]. by apply find_timer_Some in Ef as [? _].
  - intros [= <-]. by apply (wf_frame s).
  - intros [= <-]. by apply (wf_frame s).
  - intros [= <-]. by apply wf_pauseAudio.
  - intros [= <-]. by apply wf_resumeAudio.
  - intros [= <-]. by apply wf_selectStory.
  - intros [= <-]. by apply wf_clickStory.
Qed.

Theorem wf_run es s s' : wf s → run es s = Some s' → wf s'.
Proof.
  revert s. induction es as [|e es IH]; intros s Hwf; cbn.
  - by intros [= <-].
  - destruct (step e s) as [s1|] eqn:E; [|done]. cbn.
    apply IH. by eapply wf_step.
Qed.

Lemma wf_initial ss img a : wf (initial ss img a).
Proof.
  split; cbn; try done; try constructor.
  - intros t H. by apply not_elem_of_nil in H.
  - intros k j H. by apply not_elem_of_nil in H.
Qed.

Lemma setInterval_arms c p s :
  not_cue c → arms_no_cue s (snd (setInterval c p s)).
Proof. intros Hc. split; [done|]. right. by eexists _, c, (Some p). Qed.

Lemma wf_startClock s : wf s → wf (startClock s).
Proof.
  intros Hwf. unfold startClock.
  assert (Hstep : ∀ c p s0, not_cue c → wf s0 → wf (snd (setInterval c p s0))).
  { intros c p s0 Hc H0. apply (wf_arms s0); [done|by apply setInterval_arms|].
    apply H0. }
  by repeat apply Hstep.
Qed.

Lemma wf_booted ss img a : wf (booted ss img a).
Proof.
  unfold booted, boot.
  pose proof (wf_selectStory (initial ss img a) 0 (wf_initial ss img a)) as H.
  destruct (selectStory 0 (initial ss img a)) as [s1|e s1]; cbn in H |- *.
  - by apply wf_startClock.
  - done.
Qed.

(** ** Runs that keep a property *)

Lemma run_invariant (P : State → Prop) (ok : Event → bool) :
  (∀ e s s', ok e = true → P s → step e s = Some s' → P s') →
  ∀ es s s', forallb ok es = true → P s → run es s = Some s' → P s'.
Proof.
  intros Hstep es. induction es as [|e es IH]; intros s s' Hok HP; cbn.
  - by intros [= <-].
  - cbn in Hok. apply andb_true_iff in Hok as [He Hes].
    destruct (step e s) as [s1|] eqn:E; [|done]. cbn. apply IH; [done|].
    by eapply Hstep.
Qed.

Lemma pending_cues_nil s : pending_cues s = [] ↔ pending s = [].
Proof.
  unfold pending_cues. split; [apply fmap_nil_inv|by intros ->].
Qed.

Lemma fire_pending_cues t s : pending_cues (fire t s) ⊆ pending_cues s.
Proof.
  unfold fire, pending_cues.
  rewrite (arms_no_cue_pending _ _ (run_callback_arms (cb t) _)).
  apply requeue_pending_cues.
Qed.

(** A timer that runs leaves alone every cue that had no pending
    trigger. *)
Lemma fire_cue_at t s k j :
  t ∈ timers s → (k, j) ∉ pending_cues s →
  cue_at (fire t s) k j = cue_at s k j.
Proof.
  intros Hin Hn. unfold fire, cue_at at 1. rewrite run_callback_stories.
  destruct (cb t) as [k' j'| | | | | |] eqn:Hcb; try done.
  destruct (cue_at _ k' j'); [|done].
  fold (cue_at (write_consumed k' j' true
                  (set_timers (requeue t (timers s)) s)) k j).
  rewrite cue_at_write_consumed, decide_False; [done|].
  intros [= -> ->]. apply Hn. apply elem_of_pending_cues. eauto.
Qed.

Lemma step_fire_inv id s s' :
  step (Fire id) s = Some s' → ∃ t, t ∈ timers s ∧ tid t = id ∧ s' = fire t s.
Proof.
  cbn. destruct (find_timer id s) as [t|] eqn:Ef; [|done].
  destruct (Qle_b _ _); [|done]. intros [= <-].
  apply find_timer_Some in Ef as [? ?]. eauto.
Qed.

Lemma clear_pending_cues s :
  pending_cues (clearScheduledEmotions s) ⊆ pending_cues s.
Proof.
  rewrite clearScheduledEmotions_eq. unfold pending_cues, pending. cbn.
  intros x Hx. eapply elem_of_sublist; [exact Hx|].
  apply pending_cues_sublist, sublist_filter.
Qed.

Lemma pauseAudio_eq s :
  pauseAudio s
  = set_timeouts []
      (set_timers (filter (λ t, tid t ∉ timeouts s) (timers s))
         (set_keepMouthShut true (set_isPaused true (audio_pause s)))).
Proof. unfold pauseAudio. by rewrite clearScheduledEmotions_eq. Qed.

Lemma pauseAudio_pending_cues s : pending_cues (pauseAudio s) ⊆ pending_cues s.
Proof.
  unfold pauseAudio.
  apply (clear_pending_cues
           (set_keepMouthShut true (set_isPaused true (audio_pause s)))).
Qed.

Lemma pauseAudio_pending s : tracked s → pending (pauseAudio s) = [].
Proof. intros H. unfold pauseAudio. by apply clear_pending. Qed.

(** What [scheduleEmotions] leaves pending when the queue is not known to
    be tracked: whatever survives the clearing, then the new fires. *)
Lemma scheduleEmotions_pending_gen s :
  pending (scheduleEmotions s)
  = pending (clearScheduledEmotions s) ++ expected s.
Proof.
  unfold scheduleEmotions, expected.
  rewrite clearScheduledEmotions_eq. cbn.
  destruct (emotionSchedule s) as [k|]; [|by rewrite app_nil_r].
  by rewrite arm_cues_pending.
Qed.

Lemma elem_of_expected s k j d :
  (k, j, d) ∈ expected s →
  emotionSchedule s = Some k
  ∧ ∃ c, cue_at s k j = Some c ∧ consumed c = false
       ∧ (0 < (time c - currentTime (audioEl s)) * 1000)%Q
       ∧ d = (now s + (time c - currentTime (audioEl s)) * 1000)%Q.
Proof.
  unfold expected. destruct (emotionSchedule s) as [k'|] eqn:E.
  - intros (-> & _ & c & Hl & H)%elem_of_due_fires. split; [done|].
    rewrite Nat.sub_0_r, (schedule_cues_lookup s k') in Hl by done. eauto.
  - intros H. by apply not_elem_of_nil in H.
Qed.

Lemma resumeAudio_pending_cues s k j :
  (k, j) ∈ pending_cues (resumeAudio s) →
  (k, j) ∈ pending_cues s
  ∨ (emotionSchedule s = Some k
     ∧ ∃ c, cue_at s k j = Some c ∧ consumed c = false).
Proof.
  unfold resumeAudio. cbn. destruct (hasEnded s); cbn; [by left|].
  unfold pending_cues at 1. rewrite scheduleEmotions_pending_gen, fmap_app.
  intros [H|H]%elem_of_app.
  - left. by apply clear_pending_cues in H.
  - right. apply list_elem_of_fmap in H as ([[k' j'] d] & Heq & H).
    cbn in Heq. simplify_eq. apply elem_of_expected in H as (? & c & ? & ? & _).
    eauto.
Qed.

Lemma resumeAudio_frame s :
  stories (resumeAudio s) = stories s
  ∧ emotionSchedule (resumeAudio s) = emotionSchedule s
  ∧ faceImage (resumeAudio s) = faceImage s
  ∧ now (resumeAudio s) = now s
  ∧ currentTime (audioEl (resumeAudio s)) = currentTime (audioEl s).
Proof.
  unfold resumeAudio. cbn. destruct (hasEnded s); cbn; [done|].
  destruct (scheduleEmotions_frame
              (audio_play (set_keepMouthShut false (set_isPaused false s))))
    as (->&->&->&->&_&_&_&_&->&_). done.
Qed.

(** ** The image map *)

Lemma emotionImageMap_truthy e img :
  CONFIG.emotionImageMap !! e = Some img → truthy img = true.
Proof.
  intros H. apply elem_of_list_to_map_2 in H.
  repeat (apply elem_of_cons in H as [H|H]; [by simplify_eq|]).
  by apply not_elem_of_nil in H.
Qed.

(** Whatever the property read finds is truthy. *)
Lemma emotionImageMap_get_truthy e v :
  emotionImageMap_get e = Some v → truthy_value v = true.
Proof.
  unfold emotionImageMap_get.
  destruct (CONFIG.emotionImageMap !! e) as [img|] eqn:E.
  - intros [= <-]. cbn. by apply (emotionImageMap_truthy e).
  - destruct (bool_decide _); [|done]. by intros [= <-].
Qed.

(** ** The shape of the story store *)

Lemma skeleton_alter_consumed b j st :
  skeleton (set_emotions (alter (set_consumed b) j (emotions st)) st)
  = skeleton st.
Proof.
  unfold skeleton. cbn. f_equal.
  generalize (emotions st). intros cs. revert j.
  induction cs as [|c cs IH]; intros [|j]; cbn; try done.
  by rewrite IH.
Qed.

Lemma skeleton_reset st :
  skeleton (set_emotions (set_consumed false <$> emotions st) st) = skeleton st.
Proof.
  unfold skeleton. cbn. f_equal. rewrite <- list_fmap_compose.
  by apply list_fmap_ext.
Qed.

Lemma skeleton_write_consumed k j b s :
  skeleton <$> stories (write_consumed k j b s) = skeleton <$> stories s.
Proof.
  unfold write_consumed. cbn. generalize (stories s). intros ss. revert k.
  induction ss as [|st ss IH]; intros [|k]; cbn; try done.
  - by rewrite skeleton_alter_consumed.
  - by rewrite IH.
Qed.

Lemma skeleton_selectStory i s :
  skeleton <$> stories (state_of (selectStory i s)) = skeleton <$> stories s.
Proof.
  unfold selectStory. destruct (array_get (stories s) i) as [st|] eqn:E; [|done].
  apply array_get_Some in E as [_ E]. cbn.
  rewrite list_fmap_insert, skeleton_reset. apply list_insert_id.
  by rewrite list_lookup_fmap, E.
Qed.

Lemma clickStory_stories i s :
  stories (state_of (clickStory i s)) = stories (state_of (selectStory i s)).
Proof.
  unfold clickStory. destruct (selectStory i s) as [s1|x s1]; [|done].
  unfold state_of. by destruct (resumeAudio_frame (set_hasEnded false s1)) as (->&_).
Qed.

Lemma skeleton_step e s s' :
  step e s = Some s' → skeleton <$> stories s' = skeleton <$> stories s.
Proof.
  destruct e; cbn.
  - destruct (Qle_b 0 d); [|done]. by intros [= <-].
  - destruct (find_timer id s) as [t|]; [|done].
    destruct (Qle_b _ _); [|done]. intros [= <-]. unfold fire.
    rewrite run_callback_stories. destruct (cb t); try done.
    destruct (cue_at _ k j); [|done]. by rewrite skeleton_write_consumed.
  - by intros [= <-].
  - by intros [= <-].
  - intros [= <-]. by rewrite pauseAudio_eq.
  - intros [= <-]. by destruct (resumeAudio_frame s) as (->&_).
  - intros [= <-]. apply skeleton_selectStory.
  - intros [= <-]. rewrite clickStory_stories. apply skeleton_selectStory.
Qed.

Lemma skeleton_run es s s' :
  run es s = Some s' → skeleton <$> stories s' = skeleton <$> stories s.
Proof.
  revert s. induction es as [|e es IH]; intros s; cbn.
  - by intros [= <-].
  - destruct (step e s) as [s1|] eqn:E; [|done]. cbn. intros H.
    rewrite (IH _ H). by apply (skeleton_step e).
Qed.

Lemma skeleton_booted ss img a :
  skeleton <$> stories (booted ss img a) = skeleton <$> ss.
Proof.
  unfold booted, boot.
  pose proof (skeleton_selectStory 0 (initial ss img a)) as H.
  by destruct (selectStory 0 (initial ss img a)).
Qed.

Lemma skeleton_length ss ss' :
  skeleton <$> ss' = skeleton <$> ss → length ss' = length ss.
Proof. intros H. by rewrite <- (length_fmap skeleton ss'), H, length_fmap. Qed.

Lemma cue_at_skeleton s s' k j c :
  skeleton <$> stories s' = skeleton <$> stories s → cue_at s k j = Some c →
  ∃ c', cue_at s' k j = Some c' ∧ time c' = time c ∧ emotion c' = emotion c.
Proof.
  intros H Hc. unfold cue_at in *.
  destruct (stories s !! k) as [st|] eqn:Hk; [|done]. cbn in Hc.
  assert (Hk' : (skeleton <$> stories s') !! k = Some (skeleton st))
    by (by rewrite H, list_lookup_fmap, Hk).
  rewrite list_lookup_fmap in Hk'.
  destruct (stories s' !! k) as [st'|]; [|done]. cbn in Hk'. cbn.
  injection Hk' as _ _ _ H4.
  assert (Hj : ((λ c, (time c, emotion c)) <$> emotions st') !! j
               = Some (time c, emotion c))
    by (by rewrite H4, list_lookup_fmap, Hc).
  rewrite list_lookup_fmap in Hj.
  destruct (emotions st' !! j) as [c'|]; [|done]. cbn in Hj.
  injection Hj as E1 E2. by exists c'.
Qed.

(** What running a cue trigger does, spelled out: the cue reads consumed,
    and the overlay is activated when the image map answers for the
    cue's emotion, left alone when it does not. *)
Lemma fire_cue_effect t s k j c :
  cb t = CueFire k j → cue_at s k j = Some c →
  cue_at (fire t s) k j = Some (set_consumed true c)
  ∧ (∀ v, emotionImageMap_get (emotion c) = Some v →
          currentEmotion (fire t s) = Some (emotion c)
          ∧ faceImage (fire t s) = CONFIG.qtBase +:+ to_text v
          ∧ ∃ t', t' ∈ timers (fire t s) ∧ cb t' = ClearEmotion
                  ∧ period t' = None
                  ∧ due t' = (now s + CONFIG.emotionDelay)%Q)
  ∧ (emotionImageMap_get (emotion c) = None →
     currentEmotion (fire t s) = currentEmotion s
     ∧ faceImage (fire t s) = faceImage s).
Proof.
  intros Hcb Hcue.
  set (s1 := write_consumed k j true (set_timers (requeue t (timers s)) s)).
  assert (Ef : fire t s = displayEmotion (emotion c) s1).
  { unfold fire. rewrite Hcb. cbn.
    change (cue_at (set_timers (requeue t (timers s)) s) k j)
      with (cue_at s k j). by rewrite Hcue. }
  rewrite Ef. split; [|split].
  - unfold cue_at at 1.
    destruct (displayEmotion_frame (emotion c) s1) as (-> & _).
    fold (cue_at s1 k j). subst s1.
    rewrite cue_at_write_consumed, decide_True by done.
    change (cue_at (set_timers (requeue t (timers s)) s) k j)
      with (cue_at s k j). by rewrite Hcue.
  - intros v Hv. unfold displayEmotion.
    rewrite Hv, (emotionImageMap_get_truthy _ v Hv). cbn.
    split; [done|]. split; [done|].
    exists (mkTimer (nextId s) (now s + CONFIG.emotionDelay) ClearEmotion None).
    split; [|done]. apply elem_of_app. right. left.
  - intros Hno. unfold displayEmotion. by rewrite Hno.
Qed.

(** * The claims *)

(** ** Unknown emotions (C8) *)

Lemma emotionImageMap_get_None e :
  emotionImageMap_get e = None
  ↔ CONFIG.emotionImageMap !! e = None ∧ e ∉ CONFIG.inherited.
Proof.
  unfold emotionImageMap_get. destruct (CONFIG.emotionImageMap !! e) as [img|].
  - split; [done|]. by intros [? _].
  - destruct (bool_decide (e ∈ CONFIG.inherited)) eqn:E.
    + apply bool_decide_eq_true in E. split; [done|]. by intros [_ ?].
    + by apply bool_decide_eq_false in E.
Qed.

Lemma emotionImageMap_get_inherited e :
  CONFIG.emotionImageMap !! e = None → e ∈ CONFIG.inherited →
  emotionImageMap_get e = Some (VMember e).
Proof.
  intros H1 H2. unfold emotionImageMap_get. rewrite H1.
  by rewrite bool_decide_eq_true_2.
Qed.

(** When the property read gives [undefined], [displayEmotion] is a silent
    no-op: the state it returns is the state it was given. *)
Lemma displayEmotion_undefined (e : string) (s : State) :
  emotionImageMap_get e = None → displayEmotion e s = s.
Proof. intros H. unfold displayEmotion. by rewrite H. Qed.

(** For a key that is an inherited member and not an entry of the
    literal, the guard of [displayEmotion] passes: the overlay is
    activated, the text of the member is written into the image source
    and an auto-clear is armed. *)
Lemma displayEmotion_inherited (e : string) (s : State) :
  CONFIG.emotionImageMap !! e = None → e ∈ CONFIG.inherited →
  displayEmotion e s
  = snd (setTimeout ClearEmotion CONFIG.emotionDelay
           (set_faceImage (CONFIG.qtBase +:+ to_text (VMember e))
              (set_currentEmotion (Some e) s))).
Proof.
  intros H1 H2. unfold displayEmotion.
  by rewrite (emotionImageMap_get_inherited e H1 H2).
Qed.

(** C8 fails on the code.  The key ["constructor"] has no entry in
    [CONFIG.emotionImageMap], yet [displayEmotion("constructor")] changes
    the overlay emotion, writes an image source and schedules an
    auto-clear: the guard [if (CONFIG.emotionImageMap[emotion])] reads
    through the prototype chain.  A key that is neither an entry nor an
    inherited member (["ennui"]) is ignored. *)
Theorem displayEmotion_inherited_key_activates :
  CONFIG.emotionImageMap !! "constructor" = None
  ∧ currentEmotion ex_page = None
  ∧ currentEmotion (displayEmotion "constructor" ex_page) = Some "constructor"
  ∧ faceImage (displayEmotion "constructor" ex_page)
    = "/qt/function Object() { [native code] }"
  ∧ timers (displayEmotion "constructor" ex_page)
    = timers ex_page
      ++ [mkTimer (nextId ex_page) (now ex_page + CONFIG.emotionDelay)
            ClearEmotion None]
  ∧ displayEmotion "ennui" ex_page = ex_page.
Proof.
  split; [by vm_compute|]. split; [by vm_compute|].
  assert (H1 : CONFIG.emotionImageMap !! "constructor" = None)
    by (by vm_compute).
  assert (H2 : "constructor" ∈ CONFIG.inherited) by left.
  rewrite (displayEmotion_inherited "constructor" ex_page H1 H2).
  split; [reflexivity|]. split; [by vm_compute|]. split; [by vm_compute|].
  apply displayEmotion_undefined. by vm_compute.
Qed.

(** ** Out-of-range story index (C9) *)

(** C9.  [selectStory] with an index below 0 or not below the number of
    loaded stories throws (a [TypeError]) and the state at the throw is
    the state before the call: the installed timeline, every cue's
    [consumed] flag and the audio source are unchanged. *)
Theorem selectStory_out_of_range (i : Z) (s : State) :
  (i < 0 ∨ Z.of_nat (length (stories s)) ≤ i)%Z →
  selectStory i s = Threw TypeError s
  ∧ emotionSchedule (state_of (selectStory i s)) = emotionSchedule s
  ∧ stories (state_of (selectStory i s)) = stories s
  ∧ src (audioEl (state_of (selectStory i s))) = src (audioEl s).
Proof.
  intros H. apply array_get_None in H. unfold selectStory. by rewrite H.
Qed.

Lemma selectStory_out_of_range_witness :
  selectStory 3 ex_page = Threw TypeError ex_page
  ∧ selectStory (-1) ex_page = Threw TypeError ex_page.
Proof.
  assert (H3 : (3 < 0 ∨ Z.of_nat (length (stories ex_page)) ≤ 3)%Z)
    by (right; by vm_compute).
  assert (H1 : (-1 < 0 ∨ Z.of_nat (length (stories ex_page)) ≤ -1)%Z)
    by (left; lia).
  split.
  - exact (proj1 (selectStory_out_of_range 3 ex_page H3)).
  - exact (proj1 (selectStory_out_of_range (-1) ex_page H1)).
Defined.

(** ** At most one trigger per cue (C7) *)

(** C7.  In every state the page can reach, whatever the sequence of
    events (pauses in a row and resumes while playing included), no cue
    has two pending triggers, and a cue with a pending trigger is
    unconsumed. *)
Theorem one_trigger_per_unconsumed_cue
    (ss : list Story) (img : string) (a : Audio) (es : list Event) (s : State) :
  run es (booted ss img a) = Some s →
  NoDup (pending_cues s)
  ∧ ∀ k j, (k, j) ∈ pending_cues s →
           ∃ c, cue_at s k j = Some c ∧ consumed c = false.
Proof.
  intros Hrun. pose proof (wf_run es _ s (wf_booted ss img a) Hrun) as Hwf.
  split; apply Hwf.
Qed.

Lemma one_trigger_per_unconsumed_cue_witness :
  ∃ s, run [Resume; Resume; Pause; Pause; Resume] ex_page = Some s
       ∧ pending_cues s = [(0, 0); (0, 1)]
       ∧ NoDup (pending_cues s).
Proof.
  eexists. split; [by vm_compute|]. split; [by vm_compute|].
  eapply (one_trigger_per_unconsumed_cue ex_stories "/qt/normal2.png"
            (mkAudio "" true 0) [Resume; Resume; Pause; Pause; Resume]).
  by vm_compute.
Defined.

(** ** [resume()] after the end of the track (C4) *)

(** C4, as stated, fails: the first story is started, its track ends and
    [pauseAudio] is called; in that Ended state [resumeAudio] changes the
    paused flag. *)
Lemma resume_in_Ended_changes_paused_flag :
  hasEnded ex_ended_paused = true
  ∧ isPaused ex_ended_paused = true
  ∧ isPaused (resumeAudio ex_ended_paused) = false
  ∧ resumeAudio ex_ended_paused ≠ ex_ended_paused.
Proof.
  split; [by vm_compute|]. split; [by vm_compute|]. split; [by vm_compute|].
  intros E. apply (f_equal isPaused) in E. by vm_compute in E.
Qed.

(** C4, amended.  In the Ended state [resumeAudio] neither starts the
    audio nor arms a trigger, and it leaves every state variable as it
    was except the paused flag, which it clears; so it is a no-op when
    that flag was already clear. *)
Theorem resume_in_Ended (s : State) :
  hasEnded s = true →
  resumeAudio s = set_isPaused false s
  ∧ paused (audioEl (resumeAudio s)) = paused (audioEl s)
  ∧ timers (resumeAudio s) = timers s
  ∧ timeouts (resumeAudio s) = timeouts s
  ∧ keepMouthShut (resumeAudio s) = keepMouthShut s
  ∧ hasEnded (resumeAudio s) = true
  ∧ stories (resumeAudio s) = stories s
  ∧ (isPaused s = false → resumeAudio s = s).
Proof.
  intros H. unfold resumeAudio. cbn. rewrite H. cbn.
  repeat split; try done.
  intros Hp. destruct s; cbn in *. by subst.
Qed.

Lemma resume_in_Ended_witness :
  hasEnded ex_ended_paused = true
  ∧ resumeAudio ex_ended_paused = set_isPaused false ex_ended_paused.
Proof.
  assert (H : hasEnded ex_ended_paused = true) by (by vm_compute).
  split; [exact H|].
  exact (proj1 (resume_in_Ended ex_ended_paused H)).
Defined.

(** ** Stale auto-clears of the overlay (C3) *)

Lemma displayEmotion_mapped e s :
  is_Some (emotionImageMap_get e) →
  ∃ v, emotionImageMap_get e = Some v
    ∧ displayEmotion e s
      = snd (setTimeout ClearEmotion CONFIG.emotionDelay
               (set_faceImage (CONFIG.qtBase +:+ to_text v)
                  (set_currentEmotion (Some e) s))).
Proof.
  intros [v H]. exists v. split; [done|]. unfold displayEmotion.
  by rewrite H, (emotionImageMap_get_truthy e v H).
Qed.

(** C3 fails on the code.  One click on the third story, whose cues are
    500 ms apart, and the timers running on time: "surprise" is activated
    at 1 s and "tristesse" at 1.5 s; at 2 s, 500 ms after "tristesse" was
    activated and while it is the current overlay, the auto-clear of
    "surprise" runs and resets the overlay to none.  "tristesse" is
    displayed for 500 ms, not for [emotionDelay]. *)
Theorem stale_clear_clears_newer_overlay :
  run [Click 2] ex_page = Some ex_loup
  ∧ advance 100 1500 ex_loup = Some ex_loup_1500
  ∧ (currentEmotion <$> advance 100 1499 ex_loup) = Some (Some "surprise")
  ∧ currentEmotion ex_loup_1500 = Some "tristesse"
  ∧ (currentEmotion <$> advance 100 1999 ex_loup_1500) = Some (Some "tristesse")
  ∧ (currentEmotion <$> advance 100 2000 ex_loup_1500) = Some None
  ∧ (CONFIG.emotionDelay == 1000)%Q.
Proof.
  split; [by vm_compute|]. split; [by vm_compute|]. split; [by vm_compute|].
  split; [by vm_compute|]. split; [by vm_compute|]. split; by vm_compute.
Qed.

(** How it comes about.  Every activation arms its own auto-clear, due
    [emotionDelay] later, and cancels none: when B is activated [d] ms
    after A, A's auto-clear is still pending next to B's.  An auto-clear
    that runs resets the overlay to none whichever activation is current,
    so A's clear ends B's overlay, and B's own clear is still pending
    afterwards. *)
Lemma overlay_clear_is_unconditional (a b : string) (d : Q) (s : State) :
  is_Some (emotionImageMap_get a) →
  is_Some (emotionImageMap_get b) →
  let sA := displayEmotion a s in
  let sB := displayEmotion b (set_now (now s + d) sA) in
  let tA := mkTimer (nextId s) (now s + CONFIG.emotionDelay) ClearEmotion None in
  let tB := mkTimer (S (nextId s)) (now s + d + CONFIG.emotionDelay)
              ClearEmotion None in
  currentEmotion sA = Some a
  ∧ timers sA = timers s ++ [tA]
  ∧ currentEmotion sB = Some b
  ∧ timers sB = timers s ++ [tA; tB]
  ∧ currentEmotion (fire tA sB) = None
  ∧ tB ∈ timers (fire tA sB)
  ∧ ∀ s', currentEmotion (run_callback ClearEmotion s') = None.
Proof.
  intros Ha Hb sA sB tA tB.
  destruct (displayEmotion_mapped a s Ha) as (ia & _ & EA).
  destruct (displayEmotion_mapped b (set_now (now s + d) sA) Hb) as (ib & _ & EB).
  subst sB. rewrite EB. subst sA. rewrite EA. cbn.
  rewrite <- app_assoc. cbn. repeat split; try done.
  unfold requeue. cbn. rewrite filter_app, elem_of_app. right.
  rewrite filter_cons_False by (cbn; intros H; by apply H).
  rewrite filter_cons_True by (cbn; lia). left.
Qed.

(** ** The display while paused (C5) *)

Lemma renderTick_paused s : isPaused s = true → renderTick s = s.
Proof. intros H. unfold renderTick. by rewrite H. Qed.

Lemma run_callback_faceImage_paused c s :
  not_cue c → isPaused s = true →
  faceImage (run_callback c s) = faceImage s.
Proof.
  intros Hc Hp. destruct c; cbn; try done. by rewrite renderTick_paused.
Qed.

Lemma frozen_step img e s s' :
  negb (arming e) = true → frozen img s → step e s = Some s' → frozen img s'.
Proof.
  intros He (Hp & Hn & Hi). destruct e; try done.
  - cbn. destruct (Qle_b 0 d); [|done]. by intros [= <-].
  - intros (t & Hin & _ & ->)%step_fire_inv.
    assert (Hc : not_cue (cb t)).
    { destruct (cb t) as [k j| | | | | |] eqn:Hcb; try done.
      assert (Hx : (k, j, due t) ∈ pending s) by (apply elem_of_pending; eauto).
      rewrite Hn in Hx. by apply not_elem_of_nil in Hx. }
    unfold frozen, fire.
    destruct (run_callback_frame (cb t) (set_timers (requeue t (timers s)) s))
      as (_&_&_&->&_).
    rewrite run_callback_faceImage_paused by done.
    split; [done|]. split; [|done].
    apply pending_cues_nil. apply list_nil_subseteq.
    etrans; [apply (fire_pending_cues t s)|].
    apply pending_cues_nil in Hn. by rewrite Hn.
  - by intros [= <-].
  - by intros [= <-].
  - intros [= <-]. split; [by rewrite pauseAudio_eq|]. split.
    + by apply pauseAudio_pending, pending_nil_tracked.
    + by rewrite pauseAudio_eq.
  - unfold step. intros [= <-]. unfold frozen, pending.
    destruct (selectStory_frame s index) as (->&_&_&->&_&_&_&->&_). done.
Qed.

(** C5, as stated, fails: after 100 ms of playback the face shows the
    open mouth; [pauseAudio] sets the forced mouth-shut flag but the image
    stays the open-mouth one, at the pause and five seconds of render
    ticks later, and is not the mouth-closed composition. *)
Lemma pause_leaves_open_mouth_displayed :
  advance 10 100 (resumeAudio ex_page) = Some ex_talking
  ∧ faceImage ex_talking = composition false false
  ∧ keepMouthShut (pauseAudio ex_talking) = true
  ∧ faceImage (pauseAudio ex_talking) = composition false false
  ∧ (∀ b, faceImage (pauseAudio ex_talking) ≠ composition b true)
  ∧ (faceImage <$> advance 200 5000 (pauseAudio ex_talking))
    = Some (composition false false).
Proof.
  split; [by vm_compute|]. split; [by vm_compute|]. split; [by vm_compute|].
  split; [by vm_compute|]. split; [|by vm_compute].
  intros [] E; by vm_compute in E.
Qed.

(** C5, amended.  [pauseAudio] sets the paused flag and the forced
    mouth-shut flag and leaves the displayed image as it is; a render tick
    that runs while the paused flag is set changes nothing; and from the
    pause until the next resume no event (timers that run, the end of the
    track, further pauses, a story being installed) changes the displayed
    image. *)
Theorem paused_display_is_frozen (s : State) :
  tracked s →
  isPaused (pauseAudio s) = true
  ∧ keepMouthShut (pauseAudio s) = true
  ∧ faceImage (pauseAudio s) = faceImage s
  ∧ (∀ s0, isPaused s0 = true → run_callback RenderTick s0 = s0)
  ∧ ∀ es s', forallb (λ e, negb (arming e)) es = true →
             run es (pauseAudio s) = Some s' →
             isPaused s' = true ∧ faceImage s' = faceImage s.
Proof.
  intros Htr.
  assert (Hf : frozen (faceImage s) (pauseAudio s)).
  { split; [by rewrite pauseAudio_eq|]. split; [|by rewrite pauseAudio_eq].
    by apply pauseAudio_pending. }
  split; [apply Hf|]. split; [by rewrite pauseAudio_eq|].
  split; [apply Hf|]. split; [apply renderTick_paused|].
  intros es s' Hes Hrun.
  destruct (run_invariant (frozen (faceImage s)) (λ e, negb (arming e))
              (frozen_step (faceImage s)) es _ s' Hes Hf Hrun) as (? & _ & ?).
  done.
Qed.

Lemma paused_display_is_frozen_witness :
  tracked ex_talking
  ∧ faceImage (pauseAudio ex_talking) = faceImage ex_talking.
Proof.
  assert (H : tracked ex_talking) by (by vm_compute).
  split; [exact H|].
  exact (proj1 (proj2 (proj2 (paused_display_is_frozen ex_talking H)))).
Defined.

(** ** Arming on resume (C1) *)

Lemma set_consumed_same b c : consumed c = b → set_consumed b c = c.
Proof. intros <-. by destruct c. Qed.

Lemma unarmed_quiet k j c e s s' :
  quiet e = true →
  unarmed k j c s → step e s = Some s' → unarmed k j c s'.
Proof.
  intros He (Hn & Hcue). destruct e; try done.
  - cbn. destruct (Qle_b 0 d); [|done]. by intros [= <-].
  - intros (t & Hin & _ & ->)%step_fire_inv. split.
    + intros H. by apply fire_pending_cues in H.
    + by rewrite fire_cue_at.
  - by intros [= <-].
  - by intros [= <-].
  - intros [= <-]. split.
    + intros H. by apply pauseAudio_pending_cues in H.
    + unfold cue_at. by rewrite pauseAudio_eq.
Qed.

Lemma unarmed_step k j c e s s' :
  consumed c = false → negb (arming e) = true →
  unarmed k j c s → step e s = Some s' → unarmed k j c s'.
Proof.
  intros Hc He Hu. destruct e; try done; try by apply unarmed_quiet.
  destruct Hu as (Hn & Hcue). unfold step. intros [= <-]. split.
  - unfold pending_cues, pending.
    by destruct (selectStory_frame s index) as (->&_).
  - destruct (selectStory index s) as [s1|x s1] eqn:E; cbn.
    + rewrite (cue_at_selectStory s index s1) by done. rewrite Hcue.
      destruct (decide _); [|done]. cbn. by rewrite set_consumed_same.
    + unfold selectStory in E. destruct (array_get _ _); by simplify_eq.
Qed.

(** A consumed cue without a trigger stays so as long as no story is
    installed, resumes included. *)
Lemma spent_step k j c e s s' :
  consumed c = true → negb (selecting e) = true →
  unarmed k j c s → step e s = Some s' → unarmed k j c s'.
Proof.
  intros Hc He Hu. destruct e; try done; try by apply unarmed_quiet.
  destruct Hu as (Hn & Hcue). intros [= <-].
  destruct (resumeAudio_frame s) as (Es & _). split.
  - intros [H|(_ & c' & Hc' & Hf)]%resumeAudio_pending_cues; [done|].
    congruence.
  - unfold cue_at. by rewrite Es.
Qed.

(** C1.  [resumeAudio], called when the track has not ended and every
    pending cue trigger is tracked (as in Paused, where none is pending),
    treats each unconsumed cue of the installed story by its delay
    [cue.time - currentTime].  If the delay is positive, exactly one
    trigger for the cue is pending afterwards, one-shot, due that delay
    (in ms) from now, and when it runs it sets the cue's [consumed] and
    calls [displayEmotion] with the cue's emotion.  What that call does
    is spelled out for every later state in which the trigger is still
    pending, whatever events led there: the cue reads consumed
    afterwards; when the image map answers for the cue's emotion, the
    overlay is active for that emotion, the image displayed is the
    answer's after [qtBase], and a one-shot auto-clear is pending, due
    [emotionDelay] from the moment of the firing; when the map has no
    answer, overlay and image are left as they were.  If the delay is
    not positive, no trigger for the cue is pending afterwards or after
    any events up to the next arming, and its [consumed] stays false. *)
Theorem resume_arms_each_unconsumed_cue (s : State) (k j : nat) (c : Cue) :
  tracked s → hasEnded s = false →
  emotionSchedule s = Some k → cue_at s k j = Some c → consumed c = false →
  let delay := (time c - currentTime (audioEl s))%Q in
  let r := resumeAudio s in
  ((0 < delay)%Q →
     filter (λ f, f.1 = (k, j)) (pending r)
       = [(k, j, (now s + delay * 1000)%Q)]
     ∧ ∀ t, t ∈ timers r → cb t = CueFire k j →
         period t = None
         ∧ fire t r
           = displayEmotion (emotion c)
               (write_consumed k j true (set_timers (requeue t (timers r)) r))
         ∧ (consumed <$> cue_at (fire t r) k j) = Some true
         ∧ ∀ es u, run es r = Some u → t ∈ timers u →
             (consumed <$> cue_at (fire t u) k j) = Some true
             ∧ (∀ img, CONFIG.emotionImageMap !! emotion c = Some img →
                  currentEmotion (fire t u) = Some (emotion c)
                  ∧ faceImage (fire t u) = CONFIG.qtBase +:+ img)
             ∧ (∀ v, emotionImageMap_get (emotion c) = Some v →
                  currentEmotion (fire t u) = Some (emotion c)
                  ∧ faceImage (fire t u) = CONFIG.qtBase +:+ to_text v
                  ∧ ∃ t', t' ∈ timers (fire t u) ∧ cb t' = ClearEmotion
                          ∧ period t' = None
                          ∧ due t' = (now u + CONFIG.emotionDelay)%Q)
             ∧ (emotionImageMap_get (emotion c) = None →
                  currentEmotion (fire t u) = currentEmotion u
                  ∧ faceImage (fire t u) = faceImage u))
  ∧ ((delay <= 0)%Q →
     ∀ es r', forallb (λ e, negb (arming e)) es = true → run es r = Some r' →
              ((k, j) ∉ pending_cues r') ∧ cue_at r' k j = Some c).
Proof.
  intros Htr He Ek Hcue Hc delay r.
  assert (Hp : pending r
    = due_fires k 0 (schedule_cues s) (currentTime (audioEl s)) (now s)).
  { subst r. rewrite resumeAudio_pending by done. by rewrite Ek. }
  assert (Hl : schedule_cues s !! j = Some c)
    by by rewrite (schedule_cues_lookup s k).
  destruct (resumeAudio_frame s) as (Es & _).
  assert (Hcr : cue_at r k j = Some c) by (subst r; unfold cue_at; by rewrite Es).
  split.
  - intros Hd. assert (Hd' : Qpos_b (delay * 1000) = true).
    { apply Qpos_b_true. subst delay. lra. }
    split.
    + rewrite Hp, due_fires_filter. rewrite decide_True by lia.
      rewrite Nat.sub_0_r, Hl, Hc. cbn. subst delay. by rewrite Hd'.
    + intros t Hin Hcb.
      assert (Hwr : tracked r).
      { subst r. rewrite resumeAudio_playing by done.
        by apply tracked_scheduleEmotions. }
      split; [by eapply tracked_spec|].
      assert (Ef : fire t r
        = displayEmotion (emotion c)
            (write_consumed k j true (set_timers (requeue t (timers r)) r))).
      { unfold fire. rewrite Hcb. cbn.
        change (cue_at (set_timers (requeue t (timers r)) r) k j)
          with (cue_at r k j). by rewrite Hcr. }
      split; [done|]. split.
      { destruct (fire_cue_effect t r k j c Hcb Hcr) as (-> & _). done. }
      intros es u Hrun _.
      destruct (cue_at_skeleton r u k j c (skeleton_run es r u Hrun) Hcr)
        as (c' & Hcu & _ & Hem).
      destruct (fire_cue_effect t u k j c' Hcb Hcu) as (H1 & H2 & H3).
      rewrite Hem in H2, H3. split; [by rewrite H1|].
      split; [|split; [exact H2|exact H3]].
      intros img Himg.
      assert (Hv : emotionImageMap_get (emotion c) = Some (VString img))
        by (unfold emotionImageMap_get; by rewrite Himg).
      by destruct (H2 _ Hv) as (? & ? & _).
  - intros Hd es r' Hes Hrun.
    apply (run_invariant (unarmed k j c) (λ e, negb (arming e))
             (λ e s0 s1 H, unarmed_step k j c e s0 s1 Hc H) es r r' Hes);
      [|done].
    split; [|done]. unfold pending_cues. rewrite Hp.
    intros ([[k' j'] d] & Heq & Hin)%list_elem_of_fmap. cbn in Heq.
    simplify_eq. apply elem_of_due_fires in Hin as (_ & _ & c' & Hl' & _ & Hpos & _).
    rewrite Nat.sub_0_r, Hl in Hl'. simplify_eq. subst delay. lra.
Qed.

Lemma resume_arms_each_unconsumed_cue_witness :
  filter (λ f, f.1 = (0, 1)) (pending (resumeAudio ex_at3))
    = [(0, 1, (now ex_at3 + (5 - 3) * 1000)%Q)]
  ∧ (∃ u, run [Elapse 2000] (resumeAudio ex_at3) = Some u
          ∧ ex_peur_trigger ∈ timers u
          ∧ currentEmotion u = None
          ∧ currentEmotion (fire ex_peur_trigger u) = Some "peur"
          ∧ faceImage (fire ex_peur_trigger u) = "/qt/peur.png"
          ∧ (consumed <$> cue_at (fire ex_peur_trigger u) 0 1) = Some true)
  ∧ ((0, 0) ∉ pending_cues (resumeAudio ex_at3))
  ∧ cue_at (resumeAudio ex_at3) 0 0 = Some (mkCue 2 "joie" false).
Proof.
  assert (Htr : tracked ex_at3) by (by vm_compute).
  assert (He : hasEnded ex_at3 = false) by (by vm_compute).
  assert (Ek : emotionSchedule ex_at3 = Some 0) by (by vm_compute).
  assert (H0 : cue_at ex_at3 0 0 = Some (mkCue 2 "joie" false))
    by (by vm_compute).
  assert (H1 : cue_at ex_at3 0 1 = Some (mkCue 5 "peur" false))
    by (by vm_compute).
  pose proof (resume_arms_each_unconsumed_cue ex_at3 0 1 _ Htr He Ek H1 eq_refl)
    as Hpeur.
  pose proof (resume_arms_each_unconsumed_cue ex_at3 0 0 _ Htr He Ek H0 eq_refl)
    as Hjoie.
  cbv zeta in Hpeur, Hjoie.
  destruct Hpeur as [Hpeur _]. destruct Hjoie as [_ Hjoie].
  assert (Hd : (0 < time (mkCue 5 "peur" false) - currentTime (audioEl ex_at3))%Q)
    by (by vm_compute).
  destruct (Hpeur Hd) as [Hp Ht].
  assert (Hin : ex_peur_trigger ∈ timers (resumeAudio ex_at3)).
  { apply (list_elem_of_lookup_2 _ 3). by vm_compute. }
  destruct (Ht ex_peur_trigger Hin eq_refl) as (_ & _ & _ & Hlater).
  assert (E : ∃ u, run [Elapse 2000] (resumeAudio ex_at3) = Some u
                   ∧ ex_peur_trigger ∈ timers u ∧ currentEmotion u = None).
  { eexists. split; [by vm_compute|]. split; [|by vm_compute].
    apply (list_elem_of_lookup_2 _ 3). by vm_compute. }
  destruct E as (u & E & Hu & Hnone).
  destruct (Hlater [Elapse 2000] u E Hu) as (Hc & Hown & _).
  destruct (Hown "peur.png" ltac:(by vm_compute)) as [Hcur Himg].
  split; [exact Hp|]. split.
  - exists u. split; [exact E|]. split; [exact Hu|]. split; [exact Hnone|].
    split; [exact Hcur|]. split; [exact Himg|exact Hc].
  - apply (Hjoie ltac:(by vm_compute) [] _ eq_refl eq_refl).
Defined.

(** ** Switching story (C2) *)

Lemma selectStory_Done i s s0 :
  selectStory i s = Done s0 →
  emotionSchedule s0 = Some (Z.to_nat i)
  ∧ timers s0 = timers s ∧ timeouts s0 = timeouts s.
Proof.
  unfold selectStory. destruct (array_get _ _); [|done]. by intros [= <-].
Qed.

Lemma only_story_step i ss0 e s s' :
  negb (selecting e) = true →
  only_story i ss0 s → step e s = Some s' → only_story i ss0 s'.
Proof.
  intros He (Hk & Hp & Hs). destruct e; try done.
  - cbn. destruct (Qle_b 0 d); [|done]. by intros [= <-].
  - intros (t & Hin & _ & ->)%step_fire_inv. split; [|split].
    + unfold fire. by destruct (run_callback_frame (cb t)
        (set_timers (requeue t (timers s)) s)) as (-> & _).
    + intros k j H. apply fire_pending_cues in H. eauto.
    + intros k Hne. rewrite <- Hs by done. unfold fire.
      rewrite run_callback_stories.
      destruct (cb t) as [k' j'| | | | | |] eqn:Hcb; try done.
      destruct (cue_at _ k' j'); [|done]. cbn.
      rewrite list_lookup_alter_ne; [done|].
      intros ->. apply Hne. apply (Hp k j'). apply elem_of_pending_cues. eauto.
  - by intros [= <-].
  - by intros [= <-].
  - intros [= <-]. split; [by rewrite pauseAudio_eq|]. split.
    + intros k j H. apply pauseAudio_pending_cues in H. eauto.
    + intros k Hne. rewrite <- Hs by done. by rewrite pauseAudio_eq.
  - intros [= <-]. destruct (resumeAudio_frame s) as (Es & Ee & _).
    split; [by rewrite Ee|]. split.
    + intros k j [H|[H _]]%resumeAudio_pending_cues; [eauto|congruence].
    + intros k Hne. rewrite Es. auto.
Qed.

(** C2, as stated, fails: with the first story playing, after
    [selectStory(1)] alone the two triggers of the first story are still
    pending, and two seconds later the first one runs: it shows "joie" and
    marks its cue consumed. *)
Lemma selectStory_leaves_old_triggers :
  emotionSchedule ex_switched = Some 1
  ∧ pending_cues ex_switched = [(0, 0); (0, 1)]
  ∧ (currentEmotion <$> advance 100 1999 ex_switched) = Some None
  ∧ (currentEmotion <$> advance 100 2000 ex_switched) = Some (Some "joie")
  ∧ (advance 100 2000 ex_switched ≫= λ s', consumed <$> cue_at s' 0 0)
    = Some true
  ∧ (consumed <$> cue_at ex_switched 0 0) = Some false.
Proof.
  split; [by vm_compute|]. split; [by vm_compute|]. split; [by vm_compute|].
  split; [by vm_compute|]. split; by vm_compute.
Qed.

(** C2, amended.  [selectStory] itself cancels nothing: the timer queue
    is as before.  The triggers of the previous story are cancelled by
    the [resumeAudio] that follows it in a story button's click handler:
    once that handler has run for a valid index, every pending trigger is
    for a cue of the story just selected, and until another story is
    selected this stays so and no cue of any other story is written. *)
Theorem click_cancels_previous_story (s : State) (i : Z) :
  tracked s → (0 ≤ i < Z.of_nat (length (stories s)))%Z →
  let s1 := state_of (clickStory i s) in
  timers (state_of (selectStory i s)) = timers s
  ∧ ∀ es s2, forallb (λ e, negb (selecting e)) es = true →
             run es s1 = Some s2 →
             (∀ k j, (k, j) ∈ pending_cues s2 → k = Z.to_nat i)
             ∧ ∀ k, k ≠ Z.to_nat i → stories s2 !! k = stories s1 !! k.
Proof.
  intros Htr Hi s1. split; [apply selectStory_frame|].
  assert (Hinv : only_story (Z.to_nat i) (stories s1) s1).
  { subst s1. unfold clickStory.
    destruct (selectStory i s) as [s0|x s0] eqn:E.
    2: { unfold selectStory in E.
         destruct (array_get (stories s) i) eqn:Ea; [done|].
         apply array_get_None in Ea. lia. }
    apply selectStory_Done in E as (Ek & Et & Eo). cbn [state_of].
    destruct (resumeAudio_frame (set_hasEnded false s0)) as (_ & Ee & _).
    split; [by rewrite Ee|]. split; [|done].
    assert (Htr' : tracked (set_hasEnded false s0)).
    { unfold tracked in *. cbn. by rewrite Et, Eo. }
    intros k j. unfold pending_cues.
    rewrite (resumeAudio_pending (set_hasEnded false s0) Htr' eq_refl).
    intros ([[k' j'] d] & Heq & Hin)%list_elem_of_fmap. cbn in Heq.
    simplify_eq. apply elem_of_due_fires in Hin as (-> & _).
    cbn. by rewrite Ek. }
  intros es s2 Hes Hrun.
  destruct (run_invariant _ _ (only_story_step (Z.to_nat i) (stories s1))
              es s1 s2 Hes Hinv Hrun) as (_ & ? & ?). done.
Qed.

Lemma click_cancels_previous_story_witness :
  tracked (resumeAudio ex_page)
  ∧ timers (state_of (selectStory 1 (resumeAudio ex_page)))
    = timers (resumeAudio ex_page)
  ∧ ∀ k j, (k, j) ∈ pending_cues (state_of (clickStory 1 (resumeAudio ex_page)))
           → k = 1.
Proof.
  assert (Htr : tracked (resumeAudio ex_page)) by (by vm_compute).
  assert (Hi : (0 ≤ 1 < Z.of_nat (length (stories (resumeAudio ex_page))))%Z)
    by (by vm_compute).
  pose proof (click_cancels_previous_story (resumeAudio ex_page) 1 Htr Hi)
    as [H1 H2].
  split; [exact Htr|]. split; [exact H1|].
  exact (proj1 (H2 [] _ eq_refl eq_refl)).
Defined.

(** ** A fired cue stays consumed (C10) *)

(** C10.  In any state the page can reach, a cue trigger that runs first
    sets its cue's [consumed] and then calls [displayEmotion].  The cue
    reads consumed afterwards whatever [displayEmotion] does.  From then
    on, until a story is installed again, the cue stays consumed and no
    trigger for it is pending, whatever resumes, pauses and timers come.
    When the property read [CONFIG.emotionImageMap[emotion]] gives
    [undefined], neither the overlay nor the displayed image changes;
    when it gives anything else, an inherited member included, the
    overlay is activated and the text of what was read is written into
    the image source.  So a cue whose emotion is an inherited member's
    name, which has no display mapping, does display something: there the
    code departs from the claim. *)
Theorem fired_cue_stays_consumed
    (ss : list Story) (img : string) (a : Audio) (es0 : list Event)
    (s : State) (t : Timer) (k j : nat) (c : Cue) :
  run es0 (booted ss img a) = Some s →
  t ∈ timers s → cb t = CueFire k j → cue_at s k j = Some c →
  let s' := fire t s in
  s' = displayEmotion (emotion c)
         (write_consumed k j true (set_timers (requeue t (timers s)) s))
  ∧ cue_at s' k j = Some (set_consumed true c)
  ∧ (emotionImageMap_get (emotion c) = None →
     currentEmotion s' = currentEmotion s ∧ faceImage s' = faceImage s)
  ∧ (∀ v, emotionImageMap_get (emotion c) = Some v →
          currentEmotion s' = Some (emotion c)
          ∧ faceImage s' = CONFIG.qtBase +:+ to_text v)
  ∧ ∀ es s'', forallb (λ e, negb (selecting e)) es = true →
              run es s' = Some s'' →
              ((k, j) ∉ pending_cues s'')
              ∧ cue_at s'' k j = Some (set_consumed true c).
Proof.
  intros Hrun Hin Hcb Hcue s'.
  pose proof (wf_run es0 _ s (wf_booted ss img a) Hrun) as Hwf.
  set (s1 := set_timers (requeue t (timers s)) s).
  assert (Ef : s' = displayEmotion (emotion c) (write_consumed k j true s1)).
  { subst s'. unfold fire. rewrite Hcb. cbn.
    change (cue_at (set_timers (requeue t (timers s)) s) k j)
      with (cue_at s k j). by rewrite Hcue. }
  assert (Hc' : cue_at s' k j = Some (set_consumed true c)).
  { rewrite Ef. unfold cue_at at 1.
    destruct (displayEmotion_frame (emotion c) (write_consumed k j true s1))
      as (-> & _).
    fold (cue_at (write_consumed k j true s1) k j).
    rewrite cue_at_write_consumed, decide_True by done.
    change (cue_at s1 k j) with (cue_at s k j). by rewrite Hcue. }
  split; [done|]. split; [done|]. split; [|split].
  - intros Hno. rewrite Ef. unfold displayEmotion. by rewrite Hno.
  - intros v Hv. rewrite Ef. unfold displayEmotion.
    by rewrite Hv, (emotionImageMap_get_truthy _ v Hv).
  - intros es s'' Hes Hrun'.
    apply (run_invariant (unarmed k j (set_consumed true c))
             (λ e, negb (selecting e))
             (λ e u u' H,
                spent_step k j (set_consumed true c) e u u' eq_refl H)
             es s' s'' Hes);
      [|done].
    split; [|done]. subst s' s1. unfold fire, pending_cues.
    rewrite (arms_no_cue_pending _ _ (run_callback_arms (cb t) _)).
    by apply (requeue_cue_gone s t k j).
Qed.

Lemma fired_cue_stays_consumed_witness :
  (cue_at ex_singe_1000 0 0 = Some (mkCue 1 "constructor" false)
   ∧ CONFIG.emotionImageMap !! "constructor" = None
   ∧ cue_at (fire ex_singe_trigger ex_singe_1000) 0 0
     = Some (mkCue 1 "constructor" true)
   ∧ currentEmotion ex_singe_1000 = None
   ∧ currentEmotion (fire ex_singe_trigger ex_singe_1000) = Some "constructor"
   ∧ faceImage (fire ex_singe_trigger ex_singe_1000)
     = "/qt/function Object() { [native code] }"
   ∧ ((0, 0) ∉ pending_cues
                 (resumeAudio (fire ex_singe_trigger ex_singe_1000))))
  ∧ (cue_at ex_lune_3000 1 1 = Some (mkCue 3 "ennui" false)
     ∧ emotionImageMap_get "ennui" = None
     ∧ cue_at (fire ex_ennui_trigger ex_lune_3000) 1 1
       = Some (mkCue 3 "ennui" true)
     ∧ currentEmotion (fire ex_ennui_trigger ex_lune_3000)
       = currentEmotion ex_lune_3000
     ∧ faceImage (fire ex_ennui_trigger ex_lune_3000) = faceImage ex_lune_3000
     ∧ ((1, 1) ∉ pending_cues
                   (resumeAudio (fire ex_ennui_trigger ex_lune_3000)))).
Proof.
  split.
  - set (t := ex_singe_trigger).
    assert (Hrun : run [Click 0; Elapse 1000]
                     (booted ex_singe "/qt/normal2.png" (mkAudio "" true 0))
                   = Some ex_singe_1000) by (by vm_compute).
    assert (Hin : t ∈ timers ex_singe_1000).
    { apply (list_elem_of_lookup_2 _ 3). by vm_compute. }
    assert (Hcue : cue_at ex_singe_1000 0 0
                   = Some (mkCue 1 "constructor" false)) by (by vm_compute).
    assert (Hno : CONFIG.emotionImageMap !! "constructor" = None)
      by (by vm_compute).
    assert (Hv : emotionImageMap_get "constructor"
                 = Some (VMember "constructor")) by (by vm_compute).
    pose proof (fired_cue_stays_consumed _ _ _ _ _ t 0 0 _ Hrun Hin eq_refl Hcue)
      as H.
    cbv zeta in H. destruct H as (_ & H2 & _ & H4 & H5).
    destruct (H4 _ Hv) as [H6 H7].
    split; [exact Hcue|]. split; [exact Hno|]. split; [exact H2|].
    split; [by vm_compute|]. split; [exact H6|]. split; [exact H7|].
    exact (proj1 (H5 [Resume] _ eq_refl eq_refl)).
  - set (t := ex_ennui_trigger).
    assert (Hrun : run [Click 1; Elapse 3000]
                     (booted ex_stories "/qt/normal2.png" (mkAudio "" true 0))
                   = Some ex_lune_3000) by (by vm_compute).
    assert (Hin : t ∈ timers ex_lune_3000).
    { apply (list_elem_of_lookup_2 _ 4). by vm_compute. }
    assert (Hcue : cue_at ex_lune_3000 1 1 = Some (mkCue 3 "ennui" false))
      by (by vm_compute).
    assert (Hno : emotionImageMap_get "ennui" = None) by (by vm_compute).
    pose proof (fired_cue_stays_consumed _ _ _ _ _ t 1 1 _ Hrun Hin eq_refl Hcue)
      as H.
    cbv zeta in H. destruct H as (_ & H2 & H3 & _ & H5).
    destruct (H3 Hno) as [H6 H7].
    split; [exact Hcue|]. split; [exact Hno|]. split; [exact H2|].
    split; [exact H6|]. split; [exact H7|].
    exact (proj1 (H5 [Resume] _ eq_refl eq_refl)).
Defined.

(** ** Pause then resume (C6) *)

Lemma same_fires_refl l : same_fires l l.
Proof. apply Forall_Forall2_diag, Forall_forall. intros x _. split; [done|]. reflexivity. Qed.


Lemma same_fires_trans a b c : same_fires a b → same_fires b c → same_fires a c.
Proof.
  intros Hab. revert c. induction Hab as [|x y a b [H1 H2] _ IH]; intros c Hbc.
  - inversion Hbc. constructor.
  - inversion Hbc as [|y' z b' c' [H3 H4] Hbc']; subst. constructor; [|by apply IH].
    split; [congruence|]. eapply Qeq_trans; eassumption.
Qed.

Lemma same_fires_elem a b k j d :
  same_fires a b → (k, j, d) ∈ a → ∃ d', (k, j, d') ∈ b ∧ (d == d')%Q.
Proof.
  induction 1 as [|x y a b [H1 H2] _ IH]; intros Hin.
  - by apply not_elem_of_nil in Hin.
  - apply elem_of_cons in Hin as [Heq|Hin].
    + subst x. destruct y as [[k' j'] d']. cbn in *. simplify_eq.
      exists d'. split; [left|done].
    + destruct (IH Hin) as (d' & ? & ?). exists d'. split; [by right|done].
Qed.

(** After [resumeAudio] on a track that has not ended, the pending fires
    are the expected ones. *)
Lemma resumeAudio_expected s :
  tracked s → hasEnded s = false → pending (resumeAudio s) = expected s.
Proof.
  intros Htr He. rewrite resumeAudio_playing by done.
  by rewrite scheduleEmotions_pending.
Qed.

Lemma expected_ext s s' :
  stories s' = stories s → emotionSchedule s' = emotionSchedule s →
  currentTime (audioEl s') = currentTime (audioEl s) → now s' = now s →
  expected s' = expected s.
Proof.
  intros E1 E2 E3 E4. unfold expected, schedule_cues.
  by rewrite E1, E2, E3, E4.
Qed.

Lemma resumeAudio_ArmedPlaying s :
  tracked s → hasEnded s = false →
  ArmedPlaying (resumeAudio s) ∧ synchronised (resumeAudio s).
Proof.
  intros Htr He. pose proof (resumeAudio_expected s Htr He) as Hp.
  destruct (resumeAudio_frame s) as (E1 & E2 & _ & E4 & E3).
  rewrite <- (expected_ext s (resumeAudio s)) in Hp by done.
  rewrite resumeAudio_playing in * by done.
  set (s0 := audio_play (set_keepMouthShut false (set_isPaused false s))) in *.
  destruct (scheduleEmotions_frame s0) as (_&_&Ea&_&Ei&Eh&_).
  split.
  - split; [by rewrite Ei|]. split; [by rewrite Eh|]. split; [by rewrite Ea|].
    by apply tracked_scheduleEmotions.
  - unfold synchronised. rewrite Hp. apply same_fires_refl.
Qed.





(** ** Armed-Playing is kept by playback

    Time passes, every timer runs when it is due, and the audio position
    keeps pace with the wall clock. *)

Lemma NoDup_fmap_eq {A B} (f : A → B) (l : list A) x y :
  NoDup (f <$> l) → x ∈ l → y ∈ l → f x = f y → x = y.
Proof.
  induction l as [|a l IH]; cbn; intros Hnd Hx Hy Hf.
  { by apply not_elem_of_nil in Hx. }
  apply NoDup_cons in Hnd as [Ha Hnd].
  apply elem_of_cons in Hx as [->|Hx]; apply elem_of_cons in Hy as [->|Hy];
    try done.
  - exfalso. apply Ha. rewrite Hf. by apply list_elem_of_fmap_2.
  - exfalso. apply Ha. rewrite <- Hf. by apply list_elem_of_fmap_2.
  - by apply IH.
Qed.

Lemma NoDup_fst_eq {A B} (l : list (A * B)) a d d' :
  NoDup (fst <$> l) → (a, d) ∈ l → (a, d') ∈ l → d = d'.
Proof.
  intros Hnd H1 H2.
  by pose proof (NoDup_fmap_eq fst l _ _ Hnd H1 H2 eq_refl) as [= ->].
Qed.

(** With distinct ids, taking [t] to run touches no other timer. *)
Lemma elem_of_requeue_other t (q : list Timer) t' :
  NoDup (tid <$> q) → t ∈ q → t' ∈ q → t' ≠ t → t' ∈ requeue t q.
Proof.
  intros Hnd Ht Ht' Hne.
  assert (Hid : tid t' ≠ tid t).
  { intros E. apply Hne. by eapply (NoDup_fmap_eq tid q). }
  unfold requeue. destruct (period t) as [p|].
  - apply list_elem_of_fmap. exists t'. split; [|done].
    unfold postpone. by rewrite decide_False.
  - by apply list_elem_of_filter.
Qed.

Lemma requeue_noncue_pending t (q : list Timer) :
  NoDup (tid <$> q) → t ∈ q → cue_of t = None →
  omap cue_of (requeue t q) = omap cue_of q.
Proof.
  intros Hnd Ht Hc.
  assert (Hsame : ∀ t', t' ∈ q → tid t' = tid t → t' = t).
  { intros t' Ht' E. by eapply (NoDup_fmap_eq tid q). }
  clear Hnd Ht. unfold requeue. destruct (period t) as [p|].
  - induction q as [|a q IH]; [done|]. cbn.
    rewrite IH by (intros t' Ht'; apply Hsame; by right).
    unfold postpone at 1.
    destruct (decide (tid a = tid t)) as [E|E]; [|done].
    rewrite (Hsame a) by (done || left). unfold cue_of in *. cbn.
    by destruct (cb t).
  - induction q as [|a q IH]; [done|].
    specialize (IH (λ t' Ht', Hsame t' (list_elem_of_further _ _ _ Ht'))).
    rewrite filter_cons. destruct (decide (tid a ≠ tid t)) as [E|E]; cbn.
    + by rewrite IH.
    + rewrite IH. rewrite (Hsame a); [by rewrite Hc|left|].
      by destruct (decide (tid a = tid t)).
Qed.

Lemma fire_frame t s :
  emotionSchedule (fire t s) = emotionSchedule s
  ∧ audioEl (fire t s) = audioEl s
  ∧ now (fire t s) = now s
  ∧ isPaused (fire t s) = isPaused s
  ∧ hasEnded (fire t s) = hasEnded s.
Proof.
  unfold fire.
  by destruct (run_callback_frame (cb t) (set_timers (requeue t (timers s)) s))
    as (->&->&->&->&->&_).
Qed.

Lemma fire_pending t s :
  pending (fire t s) = omap cue_of (requeue t (timers s)).
Proof.
  unfold fire. by rewrite (arms_no_cue_pending _ _ (run_callback_arms (cb t) _)).
Qed.

Lemma fire_pending_sublist t s :
  wf s → t ∈ timers s → pending (fire t s) `sublist_of` pending s.
Proof.
  intros Hwf Hin. rewrite fire_pending. destruct (period t) as [p|] eqn:Ep.
  - rewrite requeue_noncue_pending; [done|apply Hwf|done|].
    unfold cue_of. destruct (cb t) as [k j| | | | | |] eqn:Hcb; try done.
    destruct (proj1 (tracked_spec s) (wf_tracked s Hwf) t k j Hin Hcb).
    congruence.
  - rewrite requeue_oneshot by done. apply omap_sublist, sublist_filter.
Qed.

(** A cue other than the one of the timer that runs keeps its trigger. *)
Lemma fire_keeps_other t s k j :
  wf s → t ∈ timers s → cb t ≠ CueFire k j →
  (k, j) ∈ pending_cues s → (k, j) ∈ pending_cues (fire t s).
Proof.
  intros Hwf Hin Hcb (t' & Hin' & Hcb')%elem_of_pending_cues.
  unfold pending_cues. rewrite fire_pending.
  apply list_elem_of_fmap. exists (k, j, due t'). split; [done|].
  apply list_elem_of_omap. exists t'. split; [|by apply cue_of_Some].
  apply elem_of_requeue_other; [apply Hwf|done|done|congruence].
Qed.

Lemma fire_cue_at_other t s k j :
  cb t ≠ CueFire k j → cue_at (fire t s) k j = cue_at s k j.
Proof.
  intros Hcb. unfold fire, cue_at at 1. rewrite run_callback_stories.
  destruct (cb t) as [k' j'| | | | | |] eqn:E; try done.
  destruct (cue_at _ k' j'); [|done].
  fold (cue_at (write_consumed k' j' true
                  (set_timers (requeue t (timers s)) s)) k j).
  rewrite cue_at_write_consumed, decide_False; [done|congruence].
Qed.

Lemma fire_cue_at_own t s k j :
  cb t = CueFire k j → cue_at (fire t s) k j = set_consumed true <$> cue_at s k j.
Proof.
  intros Hcb. unfold fire. rewrite Hcb. cbn.
  change (cue_at (set_timers (requeue t (timers s)) s) k j) with (cue_at s k j).
  destruct (cue_at s k j) as [c|] eqn:Hc; [|exact Hc].
  unfold cue_at at 1.
  destruct (displayEmotion_frame (emotion c)
              (write_consumed k j true (set_timers (requeue t (timers s)) s)))
    as (-> & _).
  fold (cue_at (write_consumed k j true
                  (set_timers (requeue t (timers s)) s)) k j).
  rewrite cue_at_write_consumed, decide_True by done.
  change (cue_at (set_timers (requeue t (timers s)) s) k j) with (cue_at s k j).
  by rewrite Hc.
Qed.

Lemma played_refl s : wf s → played s s.
Proof.
  intros Hwf. by split.
Qed.

Lemma played_later s u T :
  played s u → (now u <= T)%Q → played s (set_now T u).
Proof.
  intros [H0 H1 H2 H3 H4 H5 H6] Hle. split; try done.
  - by apply (wf_frame u).
  - intros k j Hs Hu. destruct (H5 k j Hs Hu) as [Hc Hd]. split; [done|].
    intros d Hin. cbn. eapply Qle_trans; [by apply Hd|done].
Qed.

Lemma played_fire s u t :
  wf s → played s u → t ∈ timers u → (due t <= now u)%Q →
  played s (fire t u).
Proof.
  intros Hwfs [H0 H1 H2 H3 H4 H5 H6] Hin Hdue.
  destruct (fire_frame t u) as (E1 & E2 & E3 & E4 & E5).
  split.
  - by apply wf_fire.
  - by rewrite E1.
  - by rewrite E2.
  - by rewrite E4, E5.
  - etrans; [by apply fire_pending_sublist|done].
  - intros k j Hs Hu. rewrite E3.
    destruct (decide ((k, j) ∈ pending_cues u)) as [Hk|Hk].
    + destruct (decide (cb t = CueFire k j)) as [Hcb|Hcb].
      2: { exfalso. apply Hu. by apply fire_keeps_other. }
      split.
      * rewrite fire_cue_at_own by done. f_equal. apply H6. by left.
      * intros d Hd.
        assert (Ht : (k, j, due t) ∈ pending s).
        { eapply elem_of_sublist; [|exact H4].
          apply elem_of_pending. eauto. }
        by rewrite (NoDup_fst_eq (pending s) (k, j) d (due t)
                      (wf_nodup s Hwfs) Hd Ht).
    + rewrite fire_cue_at by done. by apply H5.
  - intros k j [Hk|Hk].
    + assert (Hku : (k, j) ∈ pending_cues u) by by apply fire_pending_cues in Hk.
      rewrite fire_cue_at_other; [apply H6; by left|].
      intros Hcb. revert Hk. unfold pending_cues. rewrite fire_pending.
      by apply (requeue_cue_gone u t k j).
    + assert (Hku : (k, j) ∉ pending_cues u).
      { intros H. apply Hk. eapply elem_of_sublist; [exact H|].
        by apply fmap_sublist. }
      rewrite fire_cue_at by done. apply H6. by right.
Qed.

Lemma foldl_earlier_min q a :
  foldl earlier a q ∈ a :: q
  ∧ (due (foldl earlier a q) <= due a)%Q
  ∧ ∀ t', t' ∈ q → (due (foldl earlier a q) <= due t')%Q.
Proof.
  revert a. induction q as [|b q IH]; intros a; cbn.
  { split; [left|]. split; [apply Qle_refl|].
    intros t' H. by apply not_elem_of_nil in H. }
  destruct (IH (earlier a b)) as (Hin & Hle & Hall).
  assert (Hab : (due (earlier a b) <= due a)%Q ∧ (due (earlier a b) <= due b)%Q
                ∧ (earlier a b = a ∨ earlier a b = b)).
  { unfold earlier. destruct (Qle_b (due a) (due b)) eqn:E.
    - apply Qle_b_true in E. split; [apply Qle_refl|]. split; [done|by left].
    - split; [|split; [apply Qle_refl|by right]].
      unfold Qle_b in E. destruct (Qlt_le_dec _ _) as [H|H]; [|done].
      by apply Qlt_le_weak. }
  destruct Hab as (Ha & Hb & Hor). split; [|split].
  - apply elem_of_cons in Hin as [->|Hin].
    + destruct Hor as [->| ->]; [left|right; left].
    + do 2 right. done.
  - eapply Qle_trans; eauto.
  - intros t' [->|Ht']%elem_of_cons; [|by apply Hall].
    eapply Qle_trans; eauto.
Qed.

Lemma next_timer_min q t :
  next_timer q = Some t → t ∈ q ∧ ∀ t', t' ∈ q → (due t <= due t')%Q.
Proof.
  destruct q as [|a q]; [done|]. cbn. intros [= <-].
  destruct (foldl_earlier_min q a) as (Hin & Hle & Hall).
  split; [done|]. intros t' [->|Ht']%elem_of_cons; auto.
Qed.

Lemma next_timer_None q : next_timer q = None → q = [].
Proof. by destruct q. Qed.

(** [advance] runs the playback up to its target: every trigger left is
    due later. *)
Lemma advance_played fuel T s u u' :
  wf s → played s u → (now u <= T)%Q → advance fuel T u = Some u' →
  played s u' ∧ now u' = T ∧ ∀ f, f ∈ pending u' → (T < f.2)%Q.
Proof.
  intros Hwfs. revert u.
  assert (Hstop : ∀ u, played s u → (now u <= T)%Q →
            (∀ t, t ∈ timers u → (T < due t)%Q) →
            played s (set_now T u) ∧ now (set_now T u) = T
            ∧ ∀ f, f ∈ pending (set_now T u) → (T < f.2)%Q).
  { intros u Hp Hle Hall. split; [by apply played_later|]. split; [done|].
    intros [[k j] d] (t & Hin & _ & <-)%elem_of_pending. cbn. by apply Hall. }
  induction fuel as [|fuel IH]; intros u Hp Hle; cbn;
    destruct (next_timer (timers u)) as [t|] eqn:En.
  - destruct (Qle_b (due t) T) eqn:E; [done|]. intros [= <-].
    apply Hstop; try done. intros t' Ht'.
    apply next_timer_min in En as [_ Hmin].
    unfold Qle_b in E. destruct (Qlt_le_dec T (due t)) as [H|H]; [|done].
    eapply Qlt_le_trans; [exact H|by apply Hmin].
  - intros [= <-]. apply Hstop; try done. intros t' Ht'.
    apply next_timer_None in En. rewrite En in Ht'.
    by apply not_elem_of_nil in Ht'.
  - destruct (Qle_b (due t) T) eqn:E.
    + apply Qle_b_true in E. apply next_timer_min in En as [Hin _].
      apply IH.
      * destruct (Qle_b (due t) (now u)) eqn:E'.
        -- apply Qle_b_true in E'. by apply played_fire.
        -- apply played_fire; [done| |done|apply Qle_refl].
           apply played_later; [done|].
           unfold Qle_b in E'. destruct (Qlt_le_dec _ _) as [H|H]; [|done].
           by apply Qlt_le_weak.
      * destruct (fire_frame t (if Qle_b (due t) (now u) then u
                                else set_now (due t) u)) as (_&_&->&_).
        by destruct (Qle_b (due t) (now u)).
    + intros [= <-]. apply Hstop; try done. intros t' Ht'.
      apply next_timer_min in En as [_ Hmin].
      unfold Qle_b in E. destruct (Qlt_le_dec T (due t)) as [H|H]; [|done].
      eapply Qlt_le_trans; [exact H|by apply Hmin].
  - intros [= <-]. apply Hstop; try done. intros t' Ht'.
    apply next_timer_None in En. rewrite En in Ht'.
    by apply not_elem_of_nil in Ht'.
Qed.

Lemma sublist_filter_char {A} (P : A → Prop) `{∀ x, Decision (P x)}
    (l' l : list A) :
  l' `sublist_of` l → NoDup l →
  (∀ x, x ∈ l' → P x) → (∀ x, x ∈ l → x ∉ l' → ¬ P x) →
  l' = filter P l.
Proof.
  induction 1 as [|x l' l Hsub IH|x l' l Hsub IH]; intros Hnd Hin Hout.
  - done.
  - apply NoDup_cons in Hnd as [Hx Hnd].
    rewrite filter_cons_True by (apply Hin; left). f_equal.
    apply IH; [done| |].
    + intros y Hy. apply Hin. by right.
    + intros y Hy Hy'. apply Hout; [by right|].
      intros [->|?]%elem_of_cons; done.
  - apply NoDup_cons in Hnd as [Hx Hnd].
    assert (Hx' : x ∉ l') by (intros Hx'; apply Hx; by eapply elem_of_sublist).
    rewrite filter_cons_False by (apply Hout; [left|done]).
    apply IH; [done|done|].
    intros y Hy Hy'. apply Hout; [by right|done].
Qed.

Lemma same_fires_filter T a b :
  same_fires a b →
  same_fires (filter (λ f, (T < f.2)%Q) a) (filter (λ f, (T < f.2)%Q) b).
Proof.
  induction 1 as [|x y a b [H1 H2] _ IH]; [constructor|].
  rewrite !filter_cons.
  destruct (decide (T < x.2)%Q) as [Hx|Hx];
    destruct (decide (T < y.2)%Q) as [Hy|Hy]; try done.
  - by constructor.
  - exfalso. apply Hy. by rewrite <- H2.
  - exfalso. apply Hx. by rewrite H2.
Qed.

(** The fires still ahead after [d] ms of playback are the ones arming
    anew would compute, once the cues whose trigger came due are marked
    consumed. *)
Lemma due_fires_advance k j cs pos t0 d :
  (0 <= d)%Q →
  same_fires
    (filter (λ f, (t0 + d < f.2)%Q) (due_fires k j cs pos t0))
    (due_fires k j (play_cue pos t0 d <$> cs) (pos + d / 1000) (t0 + d)).
Proof.
  intros Hd. revert j. induction cs as [|c cs IH]; intros j; cbn.
  { constructor. }
  rewrite filter_app. apply Forall2_app; [|apply IH].
  unfold play_cue.
  destruct (consumed c) eqn:Ec; cbn.
  { rewrite Ec. cbn. constructor. }
  destruct (Qpos_b ((time c - pos) * 1000)) eqn:Ep; cbn.
  2: { rewrite Ec. cbn. apply Qpos_b_false in Ep.
       assert (E : Qpos_b ((time c - (pos + d / 1000)) * 1000) = false).
       { apply Qpos_b_false. field_simplify. lra. }
       rewrite E. constructor. }
  apply Qpos_b_true in Ep.
  destruct (Qle_b (t0 + (time c - pos) * 1000) (t0 + d)) eqn:El; cbn.
  - apply Qle_b_true in El.
    destruct (decide _) as [H|H]; [lra|constructor].
  - rewrite Ec. cbn.
    assert (Hlt : (t0 + d < t0 + (time c - pos) * 1000)%Q).
    { unfold Qle_b in El. by destruct (Qlt_le_dec _ _). }
    destruct (decide _) as [H|H]; [|done].
    assert (E : Qpos_b ((time c - (pos + d / 1000)) * 1000) = true).
    { apply Qpos_b_true. field_simplify. lra. }
    rewrite E. constructor; [|constructor]. split; [done|]. cbn. field.
Qed.

Lemma same_fires_cues a b : same_fires a b → fst <$> a = fst <$> b.
Proof.
  induction 1 as [|x y a b [H1 _] _ IH]; [done|]. cbn. by rewrite H1, IH.
Qed.

(** The cues after a playback of [d] ms read as [play_cue] says. *)
Lemma played_cue_at s u d k j :
  wf s → played s u → emotionSchedule s = Some k →
  same_fires (pending s) (expected s) →
  now u = (now s + d)%Q → (∀ f, f ∈ pending u → (now s + d < f.2)%Q) →
  cue_at u k j
  = play_cue (currentTime (audioEl s)) (now s) d <$> cue_at s k j.
Proof.
  intros Hwf [H0 H1 H2 H3 H4 H5 H6] Ek Hsync Hnow Hahead.
  destruct (decide ((k, j) ∈ pending_cues s)) as [Hs|Hs].
  - pose proof Hs as Hs'.
    apply list_elem_of_fmap in Hs' as ([[k' j'] d0] & Heq & Hd0).
    cbn in Heq. injection Heq as <- <-.
    destruct (same_fires_elem _ _ k j d0 Hsync Hd0) as (d1 & Hd1 & Hq).
    apply elem_of_expected in Hd1 as (_ & c & Hc & Hf & Hpos & ->).
    rewrite Hc. cbn. unfold play_cue. rewrite Hf.
    apply Qpos_b_true in Hpos. rewrite Hpos. cbn.
    destruct (decide ((k, j) ∈ pending_cues u)) as [Hu|Hu].
    + rewrite H6, Hc by (by left).
      apply list_elem_of_fmap in Hu as ([[k' j'] d2] & Heq & Hd2).
      cbn in Heq. injection Heq as <- <-.
      assert (d2 = d0).
      { eapply (NoDup_fst_eq (pending s) (k, j)); [apply Hwf| |done].
        by eapply elem_of_sublist. }
      subst d2. apply Hahead in Hd2. cbn in Hd2.
      destruct (Qle_b _ _) eqn:E; [|done].
      apply Qle_b_true in E. exfalso. rewrite Hq in Hd2. lra.
    + destruct (H5 k j Hs Hu) as [-> Hle]. rewrite Hc. cbn.
      apply Hle in Hd0. rewrite Hnow, Hq in Hd0.
      apply Qle_b_true in Hd0. by rewrite Hd0.
  - rewrite H6 by (by right).
    destruct (cue_at s k j) as [c|] eqn:Hc; [|done]. cbn. f_equal.
    unfold play_cue.
    destruct (negb (consumed c) && Qpos_b _) eqn:E; [|done].
    exfalso. apply Hs. unfold pending_cues.
    rewrite (same_fires_cues _ _ Hsync). unfold expected. rewrite Ek.
    apply andb_true_iff in E as [E1 E2]. apply negb_true_iff in E1.
    apply Qpos_b_true in E2.
    apply list_elem_of_fmap. eexists (k, j, _). split; [done|].
    apply elem_of_due_fires. split; [done|]. split; [lia|].
    exists c. rewrite Nat.sub_0_r, (schedule_cues_lookup s k) by done.
    eauto.
Qed.

(** X20.  Armed-Playing is kept by playback, and so is being in step
    with the audio: from an Armed-Playing state, let [d] ms pass with
    every timer running when due, and let the audio position advance by
    the same [d] ms.  The scheduler is Armed-Playing afterwards, and if
    the pending fires were the ones the audio position called for, they
    are so afterwards. *)
Theorem playback_ArmedPlaying (s : State) (d : Q) (fuel : nat) (u : State) :
  wf s → ArmedPlaying s → (0 <= d)%Q →
  advance fuel (now s + d) s = Some u →
  ArmedPlaying (seek (currentTime (audioEl s) + d / 1000) u)
  ∧ (synchronised s →
     synchronised (seek (currentTime (audioEl s) + d / 1000) u)).
Proof.
  intros Hwf (Hi & He & Ha & Htr) Hd Hadv.
  destruct (advance_played fuel (now s + d) s s u Hwf (played_refl s Hwf)
              ltac:(lra) Hadv) as (Hp & Hnow & Hahead).
  pose proof Hp as [H0 H1 H2 [H3 H3'] H4 H5 H6].
  split.
  { split; [by rewrite <- Hi, <- H3|]. split; [by rewrite <- He, <- H3'|].
    split; [cbn; by rewrite H2|]. apply H0. }
  intros Hsync. unfold synchronised in *.
  change (pending (seek (currentTime (audioEl s) + d / 1000) u))
    with (pending u).
  assert (Hpu : pending u
    = filter (λ f, (now s + d < f.2)%Q) (pending s)).
  { apply sublist_filter_char; [done| |done|].
    - eapply NoDup_fmap_1. apply Hwf.
    - intros [[k j] d0] Hin Hout.
      assert (Hs : (k, j) ∈ pending_cues s).
      { apply list_elem_of_fmap. by exists (k, j, d0). }
      assert (Hu : (k, j) ∉ pending_cues u).
      { intros ([[k' j'] d2] & Heq & Hd2)%list_elem_of_fmap.
        cbn in Heq. injection Heq as <- <-. apply Hout.
        replace d0 with d2; [done|].
        eapply (NoDup_fst_eq (pending s) (k, j)); [apply Hwf| |done].
        by eapply elem_of_sublist. }
      destruct (H5 k j Hs Hu) as [_ Hle]. apply Hle in Hin.
      rewrite Hnow in Hin. cbn. lra. }
  rewrite Hpu.
  eapply same_fires_trans; [apply same_fires_filter, Hsync|].
  unfold expected. cbn. rewrite H1, Hnow.
  destruct (emotionSchedule s) as [k|] eqn:Ek; [|constructor].
  assert (Hcs : schedule_cues (seek (currentTime (audioEl s) + d / 1000) u)
    = play_cue (currentTime (audioEl s)) (now s) d <$> schedule_cues s).
  { apply list_eq. intros j. rewrite list_lookup_fmap.
    rewrite (schedule_cues_lookup _ k) by (cbn; congruence).
    rewrite (schedule_cues_lookup s k) by done.
    change (cue_at (seek (currentTime (audioEl s) + d / 1000) u) k j)
      with (cue_at u k j).
    by apply played_cue_at. }
  rewrite Hcs. apply due_fires_advance, Hd.
Qed.

Lemma playback_ArmedPlaying_witness :
  ∃ u, advance 100 (now (resumeAudio ex_page) + 2500) (resumeAudio ex_page)
       = Some u
       ∧ ArmedPlaying
           (seek (currentTime (audioEl (resumeAudio ex_page)) + 2500 / 1000) u)
       ∧ synchronised
           (seek (currentTime (audioEl (resumeAudio ex_page)) + 2500 / 1000) u).
Proof.
  assert (Hwf : wf (resumeAudio ex_page))
    by apply wf_resumeAudio, wf_booted.
  assert (Htr : tracked ex_page) by (by vm_compute).
  destruct (resumeAudio_ArmedPlaying ex_page Htr eq_refl) as [HA HS].
  assert (Hd : (0 <= 2500)%Q) by (by vm_compute).
  assert (E : ∃ u, advance 100 (now (resumeAudio ex_page) + 2500)
                     (resumeAudio ex_page) = Some u)
    by (eexists; by vm_compute).
  destruct E as [u E]. exists u. split; [exact E|].
  destruct (playback_ArmedPlaying (resumeAudio ex_page) 2500 100 u Hwf HA Hd E)
    as [G1 G2].
  split; [exact G1|exact (G2 HS)].
Defined.

(** * Further properties of the page script *)

(** ** [selectStory] with a valid index *)

(** X1.  [selectStory] with an index in range returns normally.  It makes
    that story's array the schedule, leaves every cue of it unconsumed
    with its time and emotion as they were, leaves the other stories
    alone, and writes the story's narration into the audio source.  It
    arms and cancels nothing and touches no flag of the scheduler: the
    timer queue, [timeouts], the paused, ended and mouth-shut flags, the
    overlay and the displayed image are as before. *)
Theorem selectStory_in_range (i : Z) (s : State) (story : Story) :
  (0 ≤ i)%Z → stories s !! Z.to_nat i = Some story →
  ∃ s', selectStory i s = Done s'
    ∧ emotionSchedule s' = Some (Z.to_nat i)
    ∧ schedule_cues s' = set_consumed false <$> emotions story
    ∧ (∀ c, c ∈ schedule_cues s' → consumed c = false)
    ∧ (∀ k, k ≠ Z.to_nat i → stories s' !! k = stories s !! k)
    ∧ src (audioEl s') = audio story
    ∧ timers s' = timers s ∧ timeouts s' = timeouts s
    ∧ isPaused s' = isPaused s ∧ hasEnded s' = hasEnded s
    ∧ keepMouthShut s' = keepMouthShut s
    ∧ currentEmotion s' = currentEmotion s ∧ faceImage s' = faceImage s.
Proof.
  intros Hi Hl.
  assert (Ha : array_get (stories s) i = Some story) by by apply array_get_Some.
  assert (Hlt : Z.to_nat i < length (stories s)) by by eapply lookup_lt_Some.
  unfold selectStory. rewrite Ha. eexists. split; [done|].
  split; [done|]. split.
  { unfold schedule_cues. cbn. by rewrite list_lookup_insert_eq. }
  split.
  { intros c. unfold schedule_cues. cbn. rewrite list_lookup_insert_eq by done.
    cbn. by intros (c' & -> & _)%list_elem_of_fmap. }
  split; [|done].
  intros k Hk. cbn. by rewrite list_lookup_insert_ne.
Qed.

Lemma selectStory_in_range_witness :
  ∃ s', selectStory 1 ex_page = Done s'
        ∧ emotionSchedule s' = Some 1
        ∧ timers s' = timers ex_page.
Proof.
  assert (H0 : (0 ≤ 1)%Z) by lia.
  assert (Hl : stories ex_page !! Z.to_nat 1
               = Some (mkStory "La lune" "/audio/lune_name.mp3"
                         "/audio/lune.opus"
                         [ mkCue 1 "surprise" false; mkCue 3 "ennui" false ]))
    by (by vm_compute).
  destruct (selectStory_in_range 1 ex_page _ H0 Hl)
    as (s' & E & Ek & _ & _ & _ & _ & Et & _).
  exists s'. by repeat split.
Defined.

Lemma set_consumed_fmap_idemp (cs : list Cue) :
  set_consumed false <$> (set_consumed false <$> cs) = set_consumed false <$> cs.
Proof. rewrite <- list_fmap_compose. by apply list_fmap_ext. Qed.

(** X2.  Selecting the same story twice in a row is the same as selecting
    it once, whatever the index. *)
Theorem selectStory_twice (i : Z) (s : State) :
  selectStory i (state_of (selectStory i s)) = selectStory i s.
Proof.
  unfold selectStory at 2 3.
  destruct (array_get (stories s) i) as [story|] eqn:Ha; cbn.
  2: { unfold selectStory. by rewrite Ha. }
  apply array_get_Some in Ha as [Hi Hl].
  assert (Hlt : Z.to_nat i < length (stories s)) by by eapply lookup_lt_Some.
  unfold selectStory, array_get. cbn.
  destruct (0 <=? i)%Z eqn:E; [|apply Z.leb_gt in E; lia].
  rewrite list_lookup_insert_eq by done. cbn.
  rewrite set_consumed_fmap_idemp, list_insert_insert_eq. done.
Qed.

(** ** The story buttons *)

Lemma selectStory_installs (i : Z) (s : State) (story : Story) :
  (0 ≤ i)%Z → stories s !! Z.to_nat i = Some story →
  ∃ s', selectStory i s = Done s'
    ∧ emotionSchedule s' = Some (Z.to_nat i)
    ∧ schedule_cues s' = set_consumed false <$> emotions story
    ∧ timers s' = timers s ∧ timeouts s' = timeouts s
    ∧ src (audioEl s') = audio story.
Proof.
  intros Hi Hl.
  assert (Ha : array_get (stories s) i = Some story) by by apply array_get_Some.
  assert (Hlt : Z.to_nat i < length (stories s)) by by eapply lookup_lt_Some.
  unfold selectStory. rewrite Ha. eexists. split; [done|]. split; [done|].
  split; [|done]. unfold schedule_cues. cbn. by rewrite list_lookup_insert_eq.
Qed.


(** X3.  A click on a story button whose index is out of range throws out
    of [selectStory]: the handler stops there, so the ended flag is not
    cleared, nothing is resumed and the state is the one before the
    click. *)
Theorem clickStory_out_of_range (i : Z) (s : State) :
  (i < 0 ∨ Z.of_nat (length (stories s)) ≤ i)%Z →
  clickStory i s = Threw TypeError s.
Proof.
  intros H. apply array_get_None in H. unfold clickStory, selectStory.
  by rewrite H.
Qed.

Lemma clickStory_out_of_range_witness :
  clickStory 7 ex_ended_paused = Threw TypeError ex_ended_paused.
Proof.
  assert (H : (7 < 0 ∨ Z.of_nat (length (stories ex_ended_paused)) ≤ 7)%Z)
    by (right; by vm_compute).
  exact (clickStory_out_of_range 7 ex_ended_paused H).
Defined.

(** X4.  A click on a story button whose index is in range, in a state
    where every pending trigger is tracked, returns normally and starts
    that story: the scheduler is Armed-Playing on it, in step with the
    audio, with the ended, paused and forced mouth-shut flags clear;
    every cue of the story
    reads unconsumed, whatever it read before; the pending triggers are
    the ones for the story's cues ahead of the position the audio
    element reports once its source is set, and none is left for any
    other story. *)
Theorem clickStory_in_range (i : Z) (s : State) (story : Story) :
  tracked s → (0 ≤ i)%Z → stories s !! Z.to_nat i = Some story →
  ∃ s', clickStory i s = Done s'
    ∧ (ArmedPlaying s' ∧ synchronised s')
    ∧ emotionSchedule s' = Some (Z.to_nat i)
    ∧ schedule_cues s' = set_consumed false <$> emotions story
    ∧ pending s'
      = due_fires (Z.to_nat i) 0 (set_consumed false <$> emotions story)
          (currentTime (audioEl (state_of (selectStory i s)))) (now s)
    ∧ keepMouthShut s' = false
    ∧ src (audioEl s') = audio story.
Proof.
  intros Htr Hi Hl.
  destruct (selectStory_installs i s story Hi Hl)
    as (s0 & E & Ek & Hsc & Et & Eo & Ea).
  unfold clickStory. rewrite E. eexists. split; [done|].
  set (s1 := set_hasEnded false s0).
  assert (Htr1 : tracked s1) by (unfold tracked in *; cbn; by rewrite Et, Eo).
  assert (He1 : hasEnded s1 = false) by done.
  destruct (resumeAudio_frame s1) as (Es & Ee & _ & En & Ec).
  split; [by apply resumeAudio_ArmedPlaying|].
  split; [by rewrite Ee|].
  assert (Hsc' : schedule_cues (resumeAudio s1) = schedule_cues s0).
  { unfold schedule_cues. by rewrite Es, Ee. }
  split; [by rewrite Hsc', Hsc|]. split.
  { rewrite resumeAudio_expected by done. unfold expected.
    change (emotionSchedule s1) with (emotionSchedule s0).
    change (schedule_cues s1) with (schedule_cues s0).
    change (audioEl s1) with (audioEl s0).
    change (now s1) with (now s0).
    rewrite Ek, Hsc. cbn.
    destruct (selectStory_frame s i) as (_&_&_&_&_&_&_&_&En').
    rewrite E in En'. unfold state_of in *. by rewrite En'. }
  rewrite resumeAudio_playing by done.
  destruct (scheduleEmotions_frame
              (audio_play (set_keepMouthShut false (set_isPaused false s1))))
    as (_&_&->&_&_&_&->&_).
  split; [done|exact Ea].
Qed.

Lemma clickStory_in_range_witness :
  ∃ s', clickStory 2 ex_talking = Done s'
        ∧ ArmedPlaying s' ∧ synchronised s'
        ∧ pending_cues s' = [(2, 0); (2, 1)].
Proof.
  assert (Htr : tracked ex_talking) by (by vm_compute).
  assert (H0 : (0 ≤ 2)%Z) by lia.
  assert (Hl : stories ex_talking !! Z.to_nat 2
               = Some (mkStory "Le loup" "/audio/loup_name.mp3"
                         "/audio/loup.opus"
                         [ mkCue 1 "surprise" false;
                           mkCue (3 # 2) "tristesse" false ]))
    by (by vm_compute).
  destruct (clickStory_in_range 2 ex_talking _ Htr H0 Hl)
    as (s' & E & (HA & HS) & _ & _ & Hp & _).
  exists s'. split; [exact E|]. split; [exact HA|]. split; [exact HS|].
  unfold pending_cues. rewrite Hp. by vm_compute.
Defined.

(** ** Pause and resume, twice *)

(** X5.  Calling [pauseAudio] twice in a row is the same as calling it
    once: the second call finds nothing to cancel and changes nothing. *)
Theorem pauseAudio_twice (s : State) :
  pauseAudio (pauseAudio s) = pauseAudio s.
Proof.
  rewrite (pauseAudio_eq (pauseAudio s)). rewrite pauseAudio_eq. cbn.
  unfold set_timeouts, set_timers; cbn. f_equal.
  apply filter_all. intros t _. apply not_elem_of_nil.
Qed.

(** X6.  Calling [resumeAudio] again right after [resumeAudio], on a track
    that has not ended, replaces the triggers by the same ones: the
    pending fires are the same cues due at the same times, nothing else
    of the scheduler changes, and the ids in [timeouts] are replaced by
    as many fresh ones. *)
Theorem resumeAudio_twice (s : State) :
  tracked s → hasEnded s = false →
  let r := resumeAudio s in
  let r2 := resumeAudio r in
  pending r2 = pending r
  ∧ stories r2 = stories r
  ∧ audioEl r2 = audioEl r
  ∧ isPaused r2 = false ∧ keepMouthShut r2 = false
  ∧ length (timeouts r2) = length (timeouts r)
  ∧ ∀ id, id ∈ timeouts r2 → nextId r ≤ id.
Proof.
  intros Htr He r r2.
  pose proof (resumeAudio_ArmedPlaying s Htr He) as ((Hi & He' & Ha & Htr') & _).
  fold r in Hi, He', Ha, Htr'.
  destruct (resumeAudio_frame r) as (Es & Ee & _ & En & Ec).
  assert (Hp : pending r2 = pending r).
  { subst r2. rewrite resumeAudio_expected by done.
    subst r. rewrite resumeAudio_expected by done.
    destruct (resumeAudio_frame s) as (Es' & Ee' & _ & En' & Ec').
    by apply expected_ext. }
  split; [done|]. split; [done|].
  subst r2. rewrite resumeAudio_playing by done.
  set (r0 := audio_play (set_keepMouthShut false (set_isPaused false r))).
  destruct (scheduleEmotions_frame r0) as (_&_&Ea'&_&Ei&_&Ek&_).
  assert (Hsame : audioEl r0 = audioEl r).
  { subst r0. cbn. destruct (audioEl r) as [x y z] eqn:Er. cbn in *.
    by rewrite Ha. }
  split; [by rewrite Ea'|]. split; [by rewrite Ei|]. split; [by rewrite Ek|].
  assert (Hlen : ∀ u, tracked u →
            length (timeouts (scheduleEmotions u)) = length (pending (scheduleEmotions u))
            ∧ ∀ id, id ∈ timeouts (scheduleEmotions u) → nextId u ≤ id).
  { intros u Hu. rewrite scheduleEmotions_pending by done.
    unfold scheduleEmotions, expected.
    rewrite clearScheduledEmotions_eq. cbn.
    destruct (emotionSchedule u) as [k|]; [|split; [done|]].
    2: { intros id H. by apply not_elem_of_nil in H. }
    destruct (arm_cues_timers k 0
                (schedule_cues (set_timeouts []
                   (set_timers (filter (λ t, tid t ∉ timeouts u) (timers u)) u)))
                (set_timeouts []
                   (set_timers (filter (λ t, tid t ∉ timeouts u) (timers u)) u)))
      as (_ & -> & _). cbn. rewrite length_seq. split; [done|].
    intros id Hid%elem_of_seq. lia. }
  assert (Htr0 : tracked r0) by done.
  destruct (Hlen r0 Htr0) as [L1 L2]. split; [|exact L2].
  rewrite L1. fold (resumeAudio r) in *.
  assert (E2 : scheduleEmotions r0 = resumeAudio r)
    by (by rewrite resumeAudio_playing).
  rewrite E2, Hp.
  subst r. rewrite (resumeAudio_playing s) by done.
  symmetry. apply Hlen. done.
Qed.

Lemma resumeAudio_twice_witness :
  tracked ex_at3
  ∧ pending (resumeAudio (resumeAudio ex_at3)) = pending (resumeAudio ex_at3).
Proof.
  assert (Htr : tracked ex_at3) by (by vm_compute).
  assert (He : hasEnded ex_at3 = false) by (by vm_compute).
  pose proof (resumeAudio_twice ex_at3 Htr He) as H. cbv zeta in H.
  split; [exact Htr|]. exact (proj1 H).
Defined.

(** ** [timeouts] only ever cancels cue triggers *)

Lemma owned_frame s s' :
  timers s' = timers s → nextId s' = nextId s → timeouts s' = timeouts s →
  owned s → owned s'.
Proof. intros Et En Eo [H1 H2]. unfold owned. by rewrite Et, En, Eo. Qed.

Lemma owned_clear s : owned (clearScheduledEmotions s).
Proof.
  rewrite clearScheduledEmotions_eq. split; cbn.
  - intros id H. by apply not_elem_of_nil in H.
  - intros t _ _. apply not_elem_of_nil.
Qed.

Lemma owned_arm_cues k j cs s :
  (∀ t, t ∈ timers s → tid t < nextId s) → owned s →
  owned (arm_cues k j cs s).
Proof.
  intros Hfresh [H1 H2]. destruct (arm_cues_timers k j cs s) as (Et & Eo & En).
  cbv zeta in Et, Eo, En. split.
  - intros id. rewrite Eo, En. intros [H|H%elem_of_seq]%elem_of_app; [|lia].
    apply H1 in H. lia.
  - intros t. rewrite Et, Eo. intros [Hin|Hin]%elem_of_app Hc.
    + intros [H|H%elem_of_seq]%elem_of_app; [by eapply H2|].
      apply Hfresh in Hin. lia.
    + apply elem_of_armed_timers in Hin as (_ & _ & k' & j' & Hcb).
      rewrite Hcb in Hc. done.
Qed.

Lemma owned_scheduleEmotions s : wf s → owned (scheduleEmotions s).
Proof.
  intros Hwf. unfold scheduleEmotions.
  destruct (emotionSchedule _) as [k|]; [|apply owned_clear].
  apply owned_arm_cues; [|apply owned_clear].
  apply (wf_fresh _ (wf_clear s Hwf)).
Qed.

Lemma owned_arms s1 s2 :
  (∀ t, t ∈ timers s1 → tid t < nextId s1) →
  arms_no_cue s1 s2 → owned s1 → owned s2.
Proof.
  intros Hfresh [Eo [[Et En]|(d & c & p & Hc & En & Et)]] [H1 H2].
  - unfold owned. by rewrite Et, En, Eo.
  - split.
    + intros id. rewrite Eo, En. intros H%H1. lia.
    + intros t. rewrite Et, Eo. intros [Hin|Hin]%elem_of_app Hnc; [by apply H2|].
      apply list_elem_of_singleton in Hin. subst t. cbn.
      intros H%H1. lia.
Qed.

Lemma elem_of_requeue t (q : list Timer) t' :
  t' ∈ requeue t q →
  ∃ t0, t0 ∈ q ∧ tid t' = tid t0 ∧ cb t' = cb t0 ∧ period t' = period t0.
Proof.
  unfold requeue. destruct (period t) as [p|].
  - intros (t0 & -> & Hin)%list_elem_of_fmap. exists t0. split; [done|].
    apply postpone_same.
  - intros [_ Hin]%list_elem_of_filter. by exists t'.
Qed.

Lemma owned_requeue t s : owned s → owned (set_timers (requeue t (timers s)) s).
Proof.
  intros [H1 H2]. split; [done|]. cbn.
  intros t' (t0 & Hin & -> & -> & _)%elem_of_requeue. by apply H2.
Qed.

Lemma owned_fire t s : wf s → owned s → owned (fire t s).
Proof.
  intros Hwf Ho. unfold fire.
  eapply owned_arms; [|apply run_callback_arms|by apply owned_requeue].
  apply (wf_fresh _ (wf_requeue s t Hwf)).
Qed.

Lemma owned_resumeAudio s : wf s → owned s → owned (resumeAudio s).
Proof.
  intros Hwf Ho. unfold resumeAudio. cbn. destruct (hasEnded s); cbn.
  - by apply (owned_frame s).
  - apply owned_scheduleEmotions. by apply (wf_frame s).
Qed.

Lemma owned_step e s s' : wf s → owned s → step e s = Some s' → owned s'.
Proof.
  intros Hwf Ho. destruct e; cbn.
  - destruct (Qle_b 0 d); [|done]. intros [= <-]. by apply (owned_frame s).
  - destruct (find_timer id s) as [t|]; [|done].
    destruct (Qle_b _ _); [|done]. intros [= <-]. by apply owned_fire.
  - intros [= <-]. by apply (owned_frame s).
  - intros [= <-]. by apply (owned_frame s).
  - intros [= <-]. apply owned_clear.
  - intros [= <-]. by apply owned_resumeAudio.
  - intros [= <-]. destruct (selectStory_frame s index) as (Et & En & Eo & _).
    by apply (owned_frame s).
  - intros [= <-]. destruct (selectStory_frame s index) as (Et & En & Eo & _).
    pose proof (wf_selectStory s index Hwf) as Hwf'.
    unfold clickStory. destruct (selectStory index s) as [s1|x s1]; cbn in *.
    + apply (owned_resumeAudio (set_hasEnded false s1)).
      * by apply (wf_frame s1).
      * by apply (owned_frame s).
    + by apply (owned_frame s).
Qed.

Lemma tidy_run es s s' :
  wf s → owned s → run es s = Some s' → wf s' ∧ owned s'.
Proof.
  revert s. induction es as [|e es IH]; intros s Hwf Ho; cbn.
  - by intros [= <-].
  - destruct (step e s) as [s1|] eqn:E; [|done]. cbn.
    apply IH; [by eapply wf_step|by eapply owned_step].
Qed.

Lemma owned_booted ss img a : owned (booted ss img a).
Proof.
  unfold booted, boot.
  destruct (selectStory_frame (initial ss img a) 0) as (Et & En & Eo & _).
  destruct (selectStory 0 (initial ss img a)) as [s1|x s1]; cbn in *.
  - unfold startClock, owned. cbn. rewrite Eo. split.
    + intros id H. by apply not_elem_of_nil in H.
    + intros t _ _. apply not_elem_of_nil.
  - unfold owned. rewrite Eo, Et. split.
    + intros id H. by apply not_elem_of_nil in H.
    + intros t _ _. apply not_elem_of_nil.
Qed.

Lemma tidy_reachable ss img a es s :
  run es (booted ss img a) = Some s → wf s ∧ owned s.
Proof. apply tidy_run; [apply wf_booted|apply owned_booted]. Qed.

(** A pending timer that is not a cue trigger stays pending through any
    event except its own run. *)
Lemma arms_no_cue_sub s1 s2 t : arms_no_cue s1 s2 → t ∈ timers s1 → t ∈ timers s2.
Proof.
  intros [_ [[-> _]|(d & c & p & _ & _ & ->)]] H; [done|].
  apply elem_of_app. by left.
Qed.

Lemma clear_keeps_noncue s t :
  owned s → t ∈ timers s → not_cue (cb t) → t ∈ timers (clearScheduledEmotions s).
Proof.
  intros [_ H2] Hin Hc. rewrite clearScheduledEmotions_eq. cbn.
  apply list_elem_of_filter. split; [by apply H2|done].
Qed.

Lemma scheduleEmotions_keeps_noncue s t :
  owned s → t ∈ timers s → not_cue (cb t) → t ∈ timers (scheduleEmotions s).
Proof.
  intros Ho Hin Hc. pose proof (clear_keeps_noncue s t Ho Hin Hc) as H.
  unfold scheduleEmotions. destruct (emotionSchedule _) as [k|]; [|done].
  destruct (arm_cues_timers k 0 (schedule_cues (clearScheduledEmotions s))
              (clearScheduledEmotions s)) as (-> & _).
  apply elem_of_app. by left.
Qed.

Lemma resumeAudio_keeps_noncue s t :
  owned s → t ∈ timers s → not_cue (cb t) → t ∈ timers (resumeAudio s).
Proof.
  intros Ho Hin Hc. unfold resumeAudio. cbn. destruct (hasEnded s); cbn; [done|].
  apply scheduleEmotions_keeps_noncue; [|done|done]. by apply (owned_frame s).
Qed.

Lemma fire_keeps t' s t :
  wf s → t' ∈ timers s → t ∈ timers s → tid t ≠ tid t' → t ∈ timers (fire t' s).
Proof.
  intros Hwf Hin' Hin Hne. unfold fire.
  eapply arms_no_cue_sub; [apply run_callback_arms|]. cbn.
  apply elem_of_requeue_other; [apply Hwf|done|done|congruence].
Qed.

Lemma step_keeps_noncue e s s' t :
  wf s → owned s → step e s = Some s' →
  t ∈ timers s → not_cue (cb t) → e ≠ Fire (tid t) → t ∈ timers s'.
Proof.
  intros Hwf Ho Hstep Hin Hc Hne. destruct e.
  - cbn in Hstep. destruct (Qle_b 0 d); [|done]. by simplify_eq.
  - apply step_fire_inv in Hstep as (t' & Hin' & <- & ->).
    apply fire_keeps; try done. congruence.
  - cbn in Hstep. by simplify_eq.
  - cbn in Hstep. by simplify_eq.
  - cbn in Hstep. simplify_eq. unfold pauseAudio.
    apply clear_keeps_noncue; [|done|done]. by apply (owned_frame s).
  - cbn in Hstep. simplify_eq. by apply resumeAudio_keeps_noncue.
  - unfold step in Hstep. simplify_eq.
    by destruct (selectStory_frame s index) as (-> & _).
  - unfold step in Hstep. simplify_eq.
    destruct (selectStory_frame s index) as (Et & En & Eo & _).
    unfold clickStory. destruct (selectStory index s) as [s1|x s1]; cbn in *.
    + apply (resumeAudio_keeps_noncue (set_hasEnded false s1));
        [by apply (owned_frame s)|by cbn; rewrite Et|done].
    + by rewrite Et.
Qed.

(** ** The animation clock *)

Lemma has_interval_step e s s' id c p :
  wf s → owned s → not_cue c → step e s = Some s' →
  has_interval s id c p → has_interval s' id c p.
Proof.
  intros Hwf Ho Hc Hstep (t & Hin & Hid & Hcb & Hp).
  assert (He : e = Fire (tid t) ∨ e ≠ Fire (tid t)).
  { destruct e as [|id0| | | | | |]; try (by right).
    destruct (decide (id0 = tid t)) as [->|?]; [by left|right; congruence]. }
  destruct He as [->|Hne].
  - apply step_fire_inv in Hstep as (t' & Hin' & Hid' & ->).
    assert (t' = t) by (by eapply (NoDup_fmap_eq tid (timers s)); [apply Hwf|..]).
    subst t'. exists (postpone (tid t) p t). split.
    + unfold fire. eapply arms_no_cue_sub; [apply run_callback_arms|]. cbn.
      rewrite (requeue_interval t p) by done. by apply list_elem_of_fmap_2.
    + destruct (postpone_same (tid t) p t) as (-> & -> & ->). done.
  - exists t. split; [|done].
    eapply step_keeps_noncue; try done. by rewrite Hcb.
Qed.

Lemma resumeAudio_currentEmotion s :
  currentEmotion (resumeAudio s) = currentEmotion s.
Proof.
  unfold resumeAudio. cbn. destruct (hasEnded s); cbn; [done|].
  by destruct (scheduleEmotions_frame
                 (audio_play (set_keepMouthShut false (set_isPaused false s))))
    as (_&_&_&_&_&_&_&->&_).
Qed.

Lemma clickStory_frame s i :
  faceImage (state_of (clickStory i s)) = faceImage s
  ∧ currentEmotion (state_of (clickStory i s)) = currentEmotion s
  ∧ now (state_of (clickStory i s)) = now s.
Proof.
  destruct (selectStory_frame s i) as (_&_&_&_&_&_&Ec&Ei&En).
  unfold clickStory. destruct (selectStory i s) as [s1|x s1];
    unfold state_of in *; [|done].
  rewrite resumeAudio_currentEmotion.
  destruct (resumeAudio_frame (set_hasEnded false s1)) as (_&_&->&->&_).
  done.
Qed.

Lemma run_reachable_invariant (P : State → Prop) ss img a :
  P (booted ss img a) →
  (∀ e s s', wf s → owned s → P s → step e s = Some s' → P s') →
  ∀ es s, run es (booted ss img a) = Some s → P s.
Proof.
  intros H0 Hstep es.
  assert (H : ∀ s0, wf s0 → owned s0 → P s0 →
                    ∀ s, run es s0 = Some s → P s).
  { induction es as [|e es IH]; intros s0 Hwf Ho HP s; cbn.
    - by intros [= <-].
    - destruct (step e s0) as [s1|] eqn:E; [|done]. cbn.
      apply IH; [by eapply wf_step|by eapply owned_step|by eapply Hstep]. }
  apply H; [apply wf_booted|apply owned_booted|done].
Qed.

(** X7.  When the catalogue has at least one story, the script's tail
    arms the three intervals of [startClock] (render, blink, mouth) and
    nothing the page does afterwards ever cancels one of them: in every
    state the page can reach, whatever is paused, resumed, selected or
    clicked, each is still pending with its period. *)
Theorem clock_is_never_cancelled
    (st : Story) (ss : list Story) (img : string) (a : Audio)
    (es : list Event) (s : State) :
  run es (booted (st :: ss) img a) = Some s → clock_on s.
Proof.
  apply (run_reachable_invariant clock_on).
  - unfold booted, boot, selectStory. cbn.
    unfold clock_on, has_interval, startClock, setInterval. cbn.
    split; [|split].
    + exists (mkTimer 0 (0 + CONFIG.clock) RenderTick (Some CONFIG.clock)).
      split; [|done]. repeat constructor.
    + exists (mkTimer 1 (0 + CONFIG.blink) BlinkTick (Some CONFIG.blink)).
      split; [|done]. repeat constructor.
    + exists (mkTimer 2 (0 + CONFIG.mouthClose) MouthTick
                (Some CONFIG.mouthClose)).
      split; [|done]. repeat constructor.
  - intros e u u' Hwf Ho (H1 & H2 & H3) Hstep.
    split; [|split]; by eapply has_interval_step.
Qed.

Lemma clock_is_never_cancelled_witness :
  ∃ s, run [Resume; Pause; Click 1; Ended; Resume; Select 2; Pause] ex_page
       = Some s
       ∧ clock_on s.
Proof.
  assert (E : ∃ s, run [Resume; Pause; Click 1; Ended; Resume; Select 2; Pause]
                     ex_page = Some s) by (eexists; by vm_compute).
  destruct E as [s E]. exists s. split; [exact E|].
  exact (clock_is_never_cancelled _ _ _ _ _ s E).
Defined.

(** X8.  When the catalogue is empty, [selectStory(0)] throws at the end
    of the script and [startClock] is never reached: no timer is pending
    then or after any events, no click or selection can succeed, and the
    displayed image stays the one the page came with. *)
Theorem empty_catalogue_never_animates
    (img : string) (a : Audio) (es : list Event) (s : State) :
  run es (booted [] img a) = Some s →
  boot (initial [] img a) = Threw TypeError (initial [] img a)
  ∧ timers s = [] ∧ stories s = [] ∧ emotionSchedule s = None
  ∧ faceImage s = img.
Proof.
  intros Hrun. split; [done|].
  assert (H : ∀ s0, (timers s0 = [] ∧ stories s0 = [] ∧ emotionSchedule s0 = None
                     ∧ timeouts s0 = [] ∧ faceImage s0 = img) →
              ∀ s, run es s0 = Some s →
              timers s = [] ∧ stories s = [] ∧ emotionSchedule s = None
              ∧ timeouts s = [] ∧ faceImage s = img).
  { clear Hrun. induction es as [|e es IH]; intros s0 H0 s1; cbn.
    - by intros [= <-].
    - destruct (step e s0) as [s2|] eqn:E; [|done]. cbn. apply IH.
      destruct H0 as (Ht & Hs & Hk & Ho & Hi). destruct e; cbn in E.
      + destruct (Qle_b 0 d); [|done]. by injection E as <-.
      + unfold find_timer in E. rewrite Ht in E. done.
      + by injection E as <-.
      + by injection E as <-.
      + simplify_eq. rewrite pauseAudio_eq. cbn. by rewrite Ht.
      + simplify_eq. unfold resumeAudio. cbn. destruct (hasEnded s0); cbn; [done|].
        unfold scheduleEmotions. rewrite clearScheduledEmotions_eq. cbn.
        rewrite Hk. cbn. by rewrite Ht.
      + simplify_eq. unfold selectStory, array_get. rewrite Hs.
        by destruct (0 <=? index)%Z; [rewrite lookup_nil|].
      + simplify_eq. unfold clickStory, selectStory, array_get. rewrite Hs.
        by destruct (0 <=? index)%Z; [rewrite lookup_nil|]. }
  destruct (H (booted [] img a) ltac:(done) s Hrun) as (?&?&?&_&?). done.
Qed.

Lemma empty_catalogue_never_animates_witness :
  ∃ s, run [Resume; Elapse 5000; Pause; Resume; Ended]
         (booted [] "/qt/normal2.png" (mkAudio "" true 0)) = Some s
       ∧ boot (initial [] "/qt/normal2.png" (mkAudio "" true 0))
         = Threw TypeError (initial [] "/qt/normal2.png" (mkAudio "" true 0))
       ∧ timers s = [] ∧ stories s = [] ∧ emotionSchedule s = None
       ∧ faceImage s = "/qt/normal2.png".
Proof.
  eexists. split; [by vm_compute|].
  eapply (empty_catalogue_never_animates "/qt/normal2.png" (mkAudio "" true 0)
            [Resume; Elapse 5000; Pause; Resume; Ended]).
  by vm_compute.
Defined.

(** ** Flags and the displayed image *)

Lemma flags_ok_step e s s' : flags_ok s → step e s = Some s' → flags_ok s'.
Proof.
  intros [H1 H2]. destruct e; cbn.
  - destruct (Qle_b 0 d); [|done]. by intros [= <-].
  - destruct (find_timer id s) as [t|]; [|done].
    destruct (Qle_b _ _); [|done]. intros [= <-]. unfold fire, flags_ok.
    by destruct (run_callback_frame (cb t) (set_timers (requeue t (timers s)) s))
      as (_&_&_&->&->&->).
  - by intros [= <-].
  - by intros [= <-].
  - intros [= <-]. by rewrite pauseAudio_eq.
  - intros [= <-]. unfold resumeAudio. cbn. destruct (hasEnded s) eqn:E; cbn.
    + unfold flags_ok. cbn. split; [auto|]. intros [=].
    + unfold flags_ok.
      by destruct (scheduleEmotions_frame
                     (audio_play (set_keepMouthShut false (set_isPaused false s))))
        as (_&_&_&_&->&->&_); cbn; rewrite E.
  - intros [= <-]. unfold flags_ok.
    by destruct (selectStory_frame s index) as (_&_&_&->&->&->&_).
  - intros [= <-].
    destruct (selectStory_frame s index) as (_&_&_&Ei&Eh&Ek&_).
    unfold clickStory. destruct (selectStory index s) as [s1|x s1]; cbn in *.
    + unfold flags_ok.
      by destruct (scheduleEmotions_frame
                     (audio_play (set_keepMouthShut false
                        (set_isPaused false (set_hasEnded false s1)))))
        as (_&_&_&_&->&->&_).
    + unfold flags_ok. by rewrite Ei, Eh, Ek.
Qed.

Lemma flags_ok_booted ss img a : flags_ok (booted ss img a).
Proof.
  unfold booted, boot.
  destruct (selectStory_frame (initial ss img a) 0) as (_&_&_&Ei&Eh&Ek&_).
  destruct (selectStory 0 (initial ss img a)) as [s1|x s1]; cbn in *;
    unfold flags_ok; cbn; by rewrite ?Ei, ?Eh, ?Ek.
Qed.

(** X9.  In every state the page can reach, the mouth is forced shut
    whenever the track has ended and whenever the scheduler is paused; so
    a render tick that draws the idle face after the end of the track
    draws a closed mouth, until a story button is clicked. *)
Theorem mouth_shut_when_ended_or_paused
    (ss : list Story) (img : string) (a : Audio) (es : list Event) (s : State) :
  run es (booted ss img a) = Some s →
  (hasEnded s = true ∨ isPaused s = true → keepMouthShut s = true)
  ∧ (hasEnded s = true → isPaused s = false → currentEmotion s = None →
     faceImage (run_callback RenderTick s) = composition (blinking s) true).
Proof.
  intros Hrun.
  assert (Hf : flags_ok s).
  { revert Hrun. apply (run_reachable_invariant flags_ok).
    - apply flags_ok_booted.
    - intros e u u' _ _. apply flags_ok_step. }
  destruct Hf as [H1 H2]. split; [intros [?|?]; auto|].
  intros He Hp Hc. cbn. unfold renderTick. rewrite Hp, Hc, (H1 He). cbn.
  by rewrite orb_true_r.
Qed.

Lemma mouth_shut_when_ended_or_paused_witness :
  ∃ s, run [Resume; Elapse 6000; Ended; Resume] ex_page = Some s
       ∧ hasEnded s = true
       ∧ faceImage (run_callback RenderTick s) = composition (blinking s) true.
Proof.
  eexists. split; [by vm_compute|]. split; [by vm_compute|].
  eapply (mouth_shut_when_ended_or_paused ex_stories "/qt/normal2.png"
            (mkAudio "" true 0) [Resume; Elapse 6000; Ended; Resume]);
    by vm_compute.
Defined.

Lemma displayEmotion_image img0 e s :
  image_ok img0 s → image_ok img0 (displayEmotion e s).
Proof.
  intros H. unfold displayEmotion.
  destruct (emotionImageMap_get e) as [v|] eqn:E; [|done].
  destruct (truthy_value v); [|done]. right. right. by exists e, v.
Qed.

Lemma image_ok_frame img0 s s' :
  faceImage s' = faceImage s → image_ok img0 s → image_ok img0 s'.
Proof. intros E. unfold image_ok. by rewrite E. Qed.

Lemma image_ok_step img0 e s s' :
  image_ok img0 s → step e s = Some s' → image_ok img0 s'.
Proof.
  intros H. destruct e; cbn.
  - destruct (Qle_b 0 d); [|done]. by intros [= <-].
  - destruct (find_timer id s) as [t|]; [|done].
    destruct (Qle_b _ _); [|done]. intros [= <-]. unfold fire.
    set (s1 := set_timers (requeue t (timers s)) s).
    assert (H1 : image_ok img0 s1) by done.
    destruct (cb t); cbn; try done.
    + destruct (cue_at s1 k j) as [tp|]; [|done].
      apply displayEmotion_image. by apply (image_ok_frame img0 s1).
    + unfold renderTick. destruct (_ && _); [|done].
      right. left. eauto.
  - by intros [= <-].
  - by intros [= <-].
  - intros [= <-]. apply (image_ok_frame img0 s); [|done]. by rewrite pauseAudio_eq.
  - intros [= <-]. apply (image_ok_frame img0 s); [|done].
    by destruct (resumeAudio_frame s) as (_&_&->&_).
  - intros [= <-]. apply (image_ok_frame img0 s); [|done].
    by destruct (selectStory_frame s index) as (_&_&_&_&_&_&_&->&_).
  - intros [= <-]. apply (image_ok_frame img0 s); [|done].
    by destruct (clickStory_frame s index) as (->&_).
Qed.

(** X10.  In every state the page can reach, the displayed image is the
    one the page came with, one of the four blink-by-mouth compositions,
    or [qtBase] followed by the text of what the property read
    [CONFIG.emotionImageMap[key]] answers for some key: the file name of
    one of the map's own entries, or the text of a member the map
    inherits.  Nothing else is ever written to the face. *)
Theorem displayed_image_is_known
    (ss : list Story) (img : string) (a : Audio) (es : list Event) (s : State) :
  run es (booted ss img a) = Some s → image_ok img s.
Proof.
  apply (run_reachable_invariant (image_ok img)).
  - left. unfold booted, boot.
    destruct (selectStory_frame (initial ss img a) 0) as (_&_&_&_&_&_&_&Ei&_).
    by destruct (selectStory 0 (initial ss img a)).
  - intros e u u' _ _. apply image_ok_step.
Qed.

Lemma displayed_image_is_known_witness :
  ∃ s, run [Click 1; Elapse 1000; Fire 3; Elapse 3000; Fire 4; Fire 0] ex_page
       = Some s
       ∧ image_ok "/qt/normal2.png" s.
Proof.
  eexists. split; [by vm_compute|].
  eapply (displayed_image_is_known ex_stories "/qt/normal2.png"
            (mkAudio "" true 0)
            [Click 1; Elapse 1000; Fire 3; Elapse 3000; Fire 4; Fire 0]).
  by vm_compute.
Defined.

(** ** The overlay *)

Lemma mapped_truthy e v :
  emotionImageMap_get e = Some v → truthy e = true.
Proof. destruct e; [by vm_compute|done]. Qed.

Lemma renderTick_overlay e s :
  currentEmotion s = Some e → truthy e = true → renderTick s = s.
Proof.
  intros He Ht. unfold renderTick. rewrite He. cbn. rewrite Ht.
  by rewrite andb_false_r.
Qed.

Lemma displayEmotion_overlay e s :
  (∀ t, t ∈ timers s → t ∈ timers (displayEmotion e s))
  ∧ now (displayEmotion e s) = now s
  ∧ ((currentEmotion (displayEmotion e s) = currentEmotion s
      ∧ faceImage (displayEmotion e s) = faceImage s)
     ∨ (currentEmotion (displayEmotion e s) = Some e
        ∧ (∃ v, emotionImageMap_get e = Some v
                ∧ faceImage (displayEmotion e s)
                  = CONFIG.qtBase +:+ to_text v)
        ∧ ∃ t, t ∈ timers (displayEmotion e s) ∧ cb t = ClearEmotion
               ∧ due t = (now s + CONFIG.emotionDelay)%Q)).
Proof.
  unfold displayEmotion.
  destruct (emotionImageMap_get e) as [v|] eqn:E; [|by auto].
  destruct (truthy_value v); [|by auto]. cbn. split; [|split; [done|]].
  - intros t H. apply elem_of_app. by left.
  - right. split; [done|]. split; [by exists v|].
    exists (mkTimer (nextId s) (now s + CONFIG.emotionDelay) ClearEmotion None).
    split; [|done]. apply elem_of_app. right. left.
Qed.

Lemma overlay_ok_frame s s' :
  currentEmotion s' = currentEmotion s → faceImage s' = faceImage s →
  now s' = now s →
  (∀ t, t ∈ timers s → cb t = ClearEmotion → t ∈ timers s') →
  overlay_ok s → overlay_ok s'.
Proof.
  intros Ec Ei En Ht H e. rewrite Ec, Ei, En. intros He.
  destruct (H e He) as (Hm & t & Hin & Hcb & Hd). split; [done|].
  exists t. auto.
Qed.

Lemma overlay_ok_step e s s' :
  wf s → owned s → overlay_ok s → step e s = Some s' → overlay_ok s'.
Proof.
  intros Hwf Ho H Hstep.
  assert (Hkeep : ∀ t, t ∈ timers s → cb t = ClearEmotion →
                       e ≠ Fire (tid t) → t ∈ timers s').
  { intros t Hin Hcb Hne. eapply step_keeps_noncue; try done. by rewrite Hcb. }
  destruct e.
  - cbn in Hstep. destruct (Qle_b 0 d) eqn:Ed; [|done]. simplify_eq.
    apply Qle_b_true in Ed. intros e He.
    destruct (H e He) as (Hm & t & Hin & Hcb & Hd). split; [done|].
    exists t. split; [done|]. split; [done|]. cbn. lra.
  - apply step_fire_inv in Hstep as (t' & Hin' & <- & ->).
    assert (Hother : ∀ t, t ∈ timers s → cb t = ClearEmotion → cb t' ≠ ClearEmotion
                          → t ∈ timers (fire t' s)).
    { intros t Hin Hcb Hne. apply Hkeep; [done|done|].
      intros [= E].
      assert (t' = t)
        by (by eapply (NoDup_fmap_eq tid (timers s)); [apply Hwf|..]).
      congruence. }
    unfold fire in *. set (s1 := set_timers (requeue t' (timers s)) s) in *.
    destruct (cb t') eqn:Hcb'.
    + cbn. cbn in Hother. destruct (cue_at s1 k j) as [tp|].
      * destruct (displayEmotion_overlay (emotion tp) (write_consumed k j true s1))
          as (Hsub & Hn & [[Hc Hi]|(Hc & Hm & t & Hin & Ht & Hd)]).
        -- intros e. rewrite Hc, Hi, Hn. intros He.
           destruct (H e He) as (Hm & t & Hin & Hcb & Hd). split; [done|].
           exists t. split; [|done]. apply Hother; done.
        -- intros e. rewrite Hc. intros [= <-]. split; [done|].
           exists t. rewrite Hn, Hd. split; [done|]. split; [done|].
           apply Qle_refl.
      * intros e He. destruct (H e He) as (Hm & t & Hin & Hcb & Hd).
        split; [done|]. exists t. split; [|done]. by apply Hother.
    + intros e. cbn. done.
    + cbn. cbn in Hother. intros e He.
      assert (He' : currentEmotion s = Some e).
      { revert He. unfold renderTick. by destruct (_ && _). }
      destruct (H e He') as ((img & Hm & Hi) & t & Hin & Hcb & Hd).
      rewrite (renderTick_overlay e s1 He' (mapped_truthy e img Hm)) in *.
      split; [by exists img|]. exists t. split; [|done]. by apply Hother.
    + eapply (overlay_ok_frame s); [done|done|done| |done].
      intros t Hin Hcb. by apply Hother.
    + eapply (overlay_ok_frame s); [done|done|done| |done].
      intros t Hin Hcb. by apply Hother.
    + eapply (overlay_ok_frame s); [done|done|done| |done].
      intros t Hin Hcb. by apply Hother.
    + eapply (overlay_ok_frame s); [done|done|done| |done].
      intros t Hin Hcb. by apply Hother.
  - cbn in Hstep. simplify_eq. by eapply (overlay_ok_frame s).
  - cbn in Hstep. simplify_eq. by eapply (overlay_ok_frame s).
  - cbn in Hstep. simplify_eq. eapply (overlay_ok_frame s); [..|done].
    + by rewrite pauseAudio_eq.
    + by rewrite pauseAudio_eq.
    + by rewrite pauseAudio_eq.
    + intros t Hin Hcb. by apply Hkeep.
  - cbn in Hstep. simplify_eq. eapply (overlay_ok_frame s); [..|done].
    + apply resumeAudio_currentEmotion.
    + by destruct (resumeAudio_frame s) as (_&_&->&_).
    + by destruct (resumeAudio_frame s) as (_&_&_&->&_).
    + intros t Hin Hcb. by apply Hkeep.
  - unfold step in Hstep. simplify_eq. eapply (overlay_ok_frame s); [..|done].
    + by destruct (selectStory_frame s index) as (_&_&_&_&_&_&->&_).
    + by destruct (selectStory_frame s index) as (_&_&_&_&_&_&_&->&_).
    + by destruct (selectStory_frame s index) as (_&_&_&_&_&_&_&_&->).
    + intros t Hin Hcb. by apply Hkeep.
  - unfold step in Hstep. simplify_eq. eapply (overlay_ok_frame s); [..|done].
    + by destruct (clickStory_frame s index) as (_&->&_).
    + by destruct (clickStory_frame s index) as (->&_).
    + by destruct (clickStory_frame s index) as (_&_&->).
    + intros t Hin Hcb. by apply Hkeep.
Qed.

Lemma overlay_ok_booted ss img a : overlay_ok (booted ss img a).
Proof.
  unfold booted, boot.
  destruct (selectStory_frame (initial ss img a) 0) as (_&_&_&_&_&_&Ec&_).
  intros e. destruct (selectStory 0 (initial ss img a)); cbn in *;
    by rewrite ?Ec.
Qed.

(** X11.  In every state the page can reach, an active overlay is for an
    emotion that the property read [CONFIG.emotionImageMap[emotion]]
    answers for with something truthy, be it one of the map's own entries
    or a member it inherits; the displayed image is [qtBase] followed by
    the text of that answer, so for an own entry it is that emotion's
    image; the render tick leaves it alone, and an auto-clear is pending
    that is due at most [emotionDelay] from now: pausing, resuming,
    selecting and clicking never cancel the auto-clear of the overlay. *)
Theorem active_overlay_has_clear_pending
    (ss : list Story) (img : string) (a : Audio) (es : list Event)
    (s : State) (e : string) :
  run es (booted ss img a) = Some s → currentEmotion s = Some e →
  (∃ v, emotionImageMap_get e = Some v ∧ truthy_value v = true
        ∧ faceImage s = CONFIG.qtBase +:+ to_text v)
  ∧ (∀ img', CONFIG.emotionImageMap !! e = Some img' →
             faceImage s = CONFIG.qtBase +:+ img')
  ∧ run_callback RenderTick s = s
  ∧ ∃ t, t ∈ timers s ∧ cb t = ClearEmotion
         ∧ (due t <= now s + CONFIG.emotionDelay)%Q.
Proof.
  intros Hrun He.
  assert (Hov : overlay_ok s).
  { revert Hrun. apply (run_reachable_invariant overlay_ok).
    - apply overlay_ok_booted.
    - intros ev u u'. apply overlay_ok_step. }
  destruct (Hov e He) as ((v & Hm & Hi) & Ht).
  split; [exists v; by rewrite (emotionImageMap_get_truthy e v Hm)|].
  split.
  { intros img' Hown. unfold emotionImageMap_get in Hm.
    rewrite Hown in Hm. by injection Hm as <-. }
  split; [|done]. cbn. by apply (renderTick_overlay e), (mapped_truthy e v).
Qed.

Lemma active_overlay_has_clear_pending_witness :
  ∃ s, run [Resume; Elapse 2000; Fire 3; Pause; Select 1; Elapse 600] ex_page
       = Some s
       ∧ currentEmotion s = Some "joie"
       ∧ faceImage s = "/qt/joie.png"
       ∧ ∃ t, t ∈ timers s ∧ cb t = ClearEmotion
              ∧ (due t <= now s + CONFIG.emotionDelay)%Q.
Proof.
  assert (E : ∃ s, run [Resume; Elapse 2000; Fire 3; Pause; Select 1; Elapse 600]
                     ex_page = Some s ∧ currentEmotion s = Some "joie"
                     ∧ faceImage s = "/qt/joie.png")
    by (eexists; split; [by vm_compute|split; [by vm_compute|by vm_compute]]).
  destruct E as (s & E & Hc & Hi). exists s. split; [exact E|].
  split; [exact Hc|]. split; [exact Hi|].
  exact (proj2 (proj2 (proj2 (active_overlay_has_clear_pending ex_stories
           "/qt/normal2.png" (mkAudio "" true 0) _ s "joie" E Hc)))).
Defined.

(** ** The shape of the story store, in every reachable state *)

(** X12.  The page only ever writes [consumed] flags in the story store:
    in every state it can reach, the stories are the downloaded ones in
    the same order, each with its name, preview, track and its cues'
    times and emotions, cue by cue. *)
Theorem store_keeps_its_shape
    (ss : list Story) (img : string) (a : Audio) (es : list Event) (s : State) :
  run es (booted ss img a) = Some s →
  skeleton <$> stories s = skeleton <$> ss
  ∧ length (stories s) = length ss
  ∧ ∀ k st, stories s !! k = Some st →
      ∃ st0, ss !! k = Some st0 ∧ name st = name st0 ∧ audio st = audio st0
             ∧ audio_name st = audio_name st0
             ∧ length (emotions st) = length (emotions st0)
             ∧ ∀ j c, emotions st !! j = Some c →
                 ∃ c0, emotions st0 !! j = Some c0 ∧ time c = time c0
                       ∧ emotion c = emotion c0.
Proof.
  intros Hrun.
  assert (H : skeleton <$> stories s = skeleton <$> ss).
  { rewrite (skeleton_run _ _ _ Hrun). apply skeleton_booted. }
  split; [done|]. split; [by apply skeleton_length|].
  intros k st Hk.
  assert (Hk' : (skeleton <$> ss) !! k = Some (skeleton st))
    by (by rewrite <- H, list_lookup_fmap, Hk).
  rewrite list_lookup_fmap in Hk'.
  destruct (ss !! k) as [st0|]; [|done]. cbn in Hk'.
  injection Hk' as H1 H2 H3 H4. exists st0. split; [done|].
  split; [done|]. split; [done|]. split; [done|].
  split; [by apply (f_equal length) in H4; rewrite !length_fmap in H4|].
  intros j c Hj.
  assert (Hj' : ((λ c, (time c, emotion c)) <$> emotions st0) !! j
                = Some (time c, emotion c))
    by (by rewrite H4, list_lookup_fmap, Hj).
  rewrite list_lookup_fmap in Hj'. destruct (emotions st0 !! j) as [c0|]; [|done].
  cbn in Hj'. injection Hj' as <- <-. by exists c0.
Qed.

Lemma store_keeps_its_shape_witness :
  ∃ s, run [Click 1; Elapse 1000; Fire 3; Select 0; Click 2; Pause] ex_page
       = Some s
       ∧ length (stories s) = 3.
Proof.
  assert (E : ∃ s, run [Click 1; Elapse 1000; Fire 3; Select 0; Click 2; Pause]
                     ex_page = Some s) by (eexists; by vm_compute).
  destruct E as [s E]. exists s. split; [exact E|].
  exact (proj1 (proj2 (store_keeps_its_shape ex_stories _ _ _ s E))).
Defined.

(** ** Loading the catalogue *)

Lemma set_stories_same s : set_stories (stories s) s = s.
Proof. by destruct s. Qed.

Lemma fetch_stories_Some fetch urls sts s :
  mapM fetch urls = Some sts →
  fetch_stories fetch urls s
  = (Some (set_stories (stories s ++ sts) s), set_stories (stories s ++ sts) s).
Proof.
  revert sts s. induction urls as [|u urls IH]; intros sts s; cbn.
  - intros [= <-]. by rewrite app_nil_r, set_stories_same.
  - destruct (fetch u) as [st|]; [|done]. cbn.
    destruct (mapM fetch urls) as [sts'|]; [|done]. cbn. intros [= <-].
    rewrite (IH sts') by done. cbn. by rewrite <- app_assoc.
Qed.

Lemma fetch_stories_None fetch urls s :
  mapM fetch urls = None →
  ∃ pre u post sts,
    urls = pre ++ u :: post ∧ mapM fetch pre = Some sts ∧ fetch u = None
    ∧ fetch_stories fetch urls s = (None, set_stories (stories s ++ sts) s).
Proof.
  revert s. induction urls as [|u urls IH]; intros s; cbn; [done|].
  destruct (fetch u) as [st|] eqn:E; cbn.
  - destruct (mapM fetch urls) as [sts'|] eqn:Em; [done|]. intros _.
    destruct (IH (set_stories (stories s ++ [st]) s) eq_refl)
      as (pre & u' & post & sts & -> & Hpre & Hu & ->).
    exists (u :: pre), u', post, (st :: sts). split; [done|].
    split; [by cbn; rewrite E, Hpre|]. split; [done|].
    cbn. by rewrite <- app_assoc.
  - intros _. exists [], u, urls, []. split; [done|]. split; [done|].
    split; [done|]. by rewrite app_nil_r, set_stories_same.
Qed.

Lemma build_table_lookup ss i b :
  build_table ss !! i = Some b ↔
  ∃ st, ss !! i = Some st
        ∧ b = mkButton (name st) (Z.of_nat i) (audio_name st).
Proof.
  unfold build_table. rewrite list_lookup_imap.
  destruct (ss !! i) as [st|]; cbn.
  - split; [intros [= <-]; eauto|]. by intros (st' & [= <-] & ->).
  - split; [done|]. by intros (? & ? & _).
Qed.

(** X13.  The script gets past [await downloadStories()] exactly when the
    index and every story document listed in it could be fetched and
    parsed.  Then the catalogue is the documents in the order of the
    index, the tail of the script runs on it, and the table has one
    button per story, in the same order, with the story's name as text,
    its position as the index passed to [selectStory], and its name clip
    as preview. *)
Theorem page_comes_up_iff_all_fetched
    (index : option (list string)) (fetch : string → option Story)
    (img : string) (a : Audio) (o : Outcome) (table : list Button) :
  main index fetch img a = PageUp o table ↔
  ∃ urls sts,
    index = Some urls ∧ mapM fetch urls = Some sts
    ∧ o = boot (initial sts img a)
    ∧ length table = length sts
    ∧ ∀ i st, sts !! i = Some st →
        table !! i = Some (mkButton (name st) (Z.of_nat i) (audio_name st)).
Proof.
  unfold main, downloadStories, declared. split.
  - destruct index as [urls|]; [|done].
    destruct (mapM fetch urls) as [sts|] eqn:Em.
    + rewrite (fetch_stories_Some _ _ sts) by done. cbn. intros [= <- <-].
      exists urls, sts. split; [done|]. split; [done|]. split; [done|].
      split; [by unfold build_table; rewrite length_imap|].
      intros i st Hi. apply build_table_lookup. eauto.
    + destruct (fetch_stories_None fetch urls (initial [] img a) Em)
        as (_ & _ & _ & sts & _ & _ & _ & ->). done.
  - intros (urls & sts & -> & Em & -> & Hlen & Hrow).
    rewrite (fetch_stories_Some _ _ sts) by done. cbn. f_equal.
    apply list_eq. intros i. destruct (sts !! i) as [st|] eqn:Ei.
    + rewrite (Hrow i st Ei). apply build_table_lookup. eauto.
    + apply lookup_ge_None in Ei.
      rewrite (proj2 (lookup_ge_None table i)) by lia.
      apply lookup_ge_None. unfold build_table. by rewrite length_imap.
Qed.

(** X14.  When the index cannot be loaded, or some story document of it
    cannot, the script stops at [await downloadStories()]: the table is
    not built, no story is selected, the clock is not started, so no
    timer is pending, and the displayed image and the audio element are
    those the page came with.  The catalogue holds the documents that
    were listed before the first one that failed. *)
Theorem failed_download_leaves_page_idle
    (index : option (list string)) (fetch : string → option Story)
    (img : string) (a : Audio) :
  (index = None ∨ ∃ urls, index = Some urls ∧ mapM fetch urls = None) →
  ∃ s, main index fetch img a = PageDown s
       ∧ timers s = [] ∧ timeouts s = [] ∧ emotionSchedule s = None
       ∧ faceImage s = img ∧ audioEl s = a ∧ keepMouthShut s = true
       ∧ match index with
         | None => stories s = []
         | Some urls =>
             ∃ pre u post, urls = pre ++ u :: post ∧ fetch u = None
                           ∧ mapM fetch pre = Some (stories s)
         end.
Proof.
  unfold main, downloadStories, declared.
  intros [->|(urls & -> & Em)].
  - by eexists.
  - destruct (fetch_stories_None fetch urls (initial [] img a) Em)
      as (pre & u & post & sts & -> & Hpre & Hu & ->).
    eexists. split; [done|]. cbn. do 6 (split; [done|]).
    by exists pre, u, post.
Qed.

Lemma failed_download_leaves_page_idle_witness :
  ∃ s, main (Some ["stories/renard.json"; "stories/absent.json";
                   "stories/loup.json"])
         (λ url, if decide (url = "stories/absent.json") then None
                 else ex_stories !! 0)
         "/qt/normal2.png" (mkAudio "" true 0) = PageDown s
       ∧ timers s = [] ∧ length (stories s) = 1.
Proof.
  set (fetch := λ url : string,
         if decide (url = "stories/absent.json") then None else ex_stories !! 0).
  destruct (failed_download_leaves_page_idle
              (Some ["stories/renard.json"; "stories/absent.json";
                     "stories/loup.json"])
              fetch "/qt/normal2.png" (mkAudio "" true 0))
    as (s & E & Ht & _ & _ & _ & _ & _ & pre & u & post & Hu & Hn & Hp).
  { right. eexists. split; [done|]. by vm_compute. }
  exists s. split; [exact E|]. split; [exact Ht|].
  vm_compute in E. by injection E as <-.
Defined.

Lemma clickStory_starts i s st :
  array_get (stories s) i = Some st →
  ∃ s', clickStory i s = Done s'
        ∧ emotionSchedule s' = Some (Z.to_nat i)
        ∧ src (audioEl s') = audio st ∧ paused (audioEl s') = false
        ∧ hasEnded s' = false ∧ isPaused s' = false
        ∧ keepMouthShut s' = false.
Proof.
  intros Hi. unfold clickStory, selectStory. rewrite Hi. eexists.
  split; [done|]. unfold resumeAudio. cbn.
  match goal with |- context [scheduleEmotions ?x] =>
    destruct (scheduleEmotions_frame x) as (_&->&->&_&->&->&->&_) end.
  done.
Qed.

(** X15.  Once the page is up, every button of the table works in every
    state the page can reach: the story at the button's index is there
    and has the button's text as name and the button's preview as name
    clip, so the click never throws; it installs that story, writes its
    narration into the audio source and starts playback. *)
Theorem story_button_never_throws
    (index : option (list string)) (fetch : string → option Story)
    (img : string) (a : Audio) (o : Outcome) (table : list Button)
    (es : list Event) (s : State) (b : Button) :
  main index fetch img a = PageUp o table →
  run es (state_of o) = Some s → b ∈ table →
  ∃ st s', array_get (stories s) (click_index b) = Some st
           ∧ name st = label b ∧ audio_name st = preview b
           ∧ clickStory (click_index b) s = Done s'
           ∧ emotionSchedule s' = Some (Z.to_nat (click_index b))
           ∧ src (audioEl s') = audio st ∧ paused (audioEl s') = false
           ∧ hasEnded s' = false ∧ isPaused s' = false
           ∧ keepMouthShut s' = false.
Proof.
  unfold main, downloadStories, declared.
  destruct index as [urls|]; [|done].
  destruct (mapM fetch urls) as [sts|] eqn:Em.
  2: { destruct (fetch_stories_None fetch urls (initial [] img a) Em)
         as (_ & _ & _ & sts & _ & _ & _ & ->). done. }
  rewrite (fetch_stories_Some _ _ sts) by done. cbn. intros [= <- <-] Hrun Hb.
  apply list_elem_of_lookup in Hb as [i Hb].
  apply build_table_lookup in Hb as (st0 & Hi & ->). cbn [click_index label preview].
  change (boot (set_stories sts (initial [] img a)))
    with (boot (initial sts img a)) in Hrun.
  fold (booted sts img a) in Hrun.
  assert (Hsk : skeleton <$> stories s = skeleton <$> sts).
  { rewrite (skeleton_run _ _ _ Hrun). apply skeleton_booted. }
  assert (Hst : ∃ st, stories s !! i = Some st ∧ skeleton st = skeleton st0).
  { assert (H : (skeleton <$> stories s) !! i = Some (skeleton st0))
      by (by rewrite Hsk, list_lookup_fmap, Hi).
    rewrite list_lookup_fmap in H. destruct (stories s !! i) as [st|]; [|done].
    exists st. split; [done|]. cbn in H. congruence. }
  destruct Hst as (st & Hl & Heq).
  assert (Hget : array_get (stories s) (Z.of_nat i) = Some st).
  { apply array_get_Some. split; [lia|]. by rewrite Nat2Z.id. }
  destruct (clickStory_starts _ _ _ Hget) as (s' & Hc & Hrest).
  exists st, s'. split; [done|].
  injection Heq as H1 H2 H3 H4. by repeat (split; [done|]).
Qed.

Lemma story_button_never_throws_witness :
  ∃ s s', run [Click 1; Elapse 1000; Fire 3; Pause; Ended] ex_page = Some s
          ∧ clickStory 2 s = Done s'
          ∧ hasEnded s' = false ∧ isPaused s' = false.
Proof.
  set (fetch := λ url : string,
         if decide (url = "stories/renard.json") then ex_stories !! 0
         else if decide (url = "stories/lune.json") then ex_stories !! 1
         else if decide (url = "stories/loup.json") then ex_stories !! 2
         else None).
  set (urls := ["stories/renard.json"; "stories/lune.json"; "stories/loup.json"]).
  assert (Hm : main (Some urls) fetch "/qt/normal2.png" (mkAudio "" true 0)
               = PageUp (boot (initial ex_stories "/qt/normal2.png"
                                 (mkAudio "" true 0)))
                   (build_table ex_stories)) by (by vm_compute).
  assert (E : ∃ s, run [Click 1; Elapse 1000; Fire 3; Pause; Ended] ex_page
                   = Some s) by (eexists; by vm_compute).
  destruct E as [s E]. exists s.
  assert (Hb : mkButton "Le loup" 2 "/audio/loup_name.mp3"
               ∈ build_table ex_stories).
  { apply (list_elem_of_lookup_2 _ 2). by vm_compute. }
  destruct (story_button_never_throws _ _ _ _ _ _ _ s _ Hm E Hb)
    as (st & s' & _ & _ & _ & Hc & _ & _ & _ & He & Hp & _).
  exists s'. split; [exact E|]. split; [exact Hc|]. split; [exact He|exact Hp].
Defined.

Lemma page_comes_up_iff_all_fetched_witness :
  main (Some ["stories/renard.json"; "stories/lune.json"; "stories/loup.json"])
       (λ url, if decide (url = "stories/renard.json") then ex_stories !! 0
               else if decide (url = "stories/lune.json") then ex_stories !! 1
               else ex_stories !! 2)
       "/qt/normal2.png" (mkAudio "" true 0)
  = PageUp (boot (initial ex_stories "/qt/normal2.png" (mkAudio "" true 0)))
      (build_table ex_stories).
Proof.
  apply page_comes_up_iff_all_fetched.
  exists ["stories/renard.json"; "stories/lune.json"; "stories/loup.json"],
         ex_stories.
  split; [reflexivity|]. split; [by vm_compute|]. split; [by vm_compute|].
  split; [by vm_compute|].
  intros i st Hi. apply build_table_lookup. eauto.
Defined.

(** ** The blink and the mouth cycle *)

Lemma step_now e s s' : step e s = Some s' → (now s <= now s')%Q.
Proof.
  destruct e; cbn.
  - destruct (Qle_b 0 d) eqn:E; [|done]. intros [= <-]. cbn.
    apply Qle_b_true in E. lra.
  - destruct (find_timer id s) as [t|]; [|done].
    destruct (Qle_b _ _); [|done]. intros [= <-].
    destruct (fire_frame t s) as (_&_&->&_). apply Qle_refl.
  - intros [= <-]. apply Qle_refl.
  - intros [= <-]. apply Qle_refl.
  - intros [= <-]. rewrite pauseAudio_eq. apply Qle_refl.
  - intros [= <-]. destruct (resumeAudio_frame s) as (_&_&_&->&_). apply Qle_refl.
  - intros [= <-]. destruct (selectStory_frame s index) as (_&_&_&_&_&_&_&_&->).
    apply Qle_refl.
  - intros [= <-]. destruct (clickStory_frame s index) as (_&_&->). apply Qle_refl.
Qed.

Lemma resumeAudio_animation s :
  blinking (resumeAudio s) = blinking s
  ∧ closedMouth (resumeAudio s) = closedMouth s.
Proof.
  unfold resumeAudio. cbn. destruct (hasEnded s); cbn; [done|].
  by destruct (scheduleEmotions_frame
                 (audio_play (set_keepMouthShut false (set_isPaused false s))))
    as (_&_&_&_&_&_&_&_&_&->&->).
Qed.

Lemma selectStory_animation i s :
  blinking (state_of (selectStory i s)) = blinking s
  ∧ closedMouth (state_of (selectStory i s)) = closedMouth s.
Proof. unfold selectStory. by destruct (array_get (stories s) i). Qed.

Lemma clickStory_animation i s :
  blinking (state_of (clickStory i s)) = blinking s
  ∧ closedMouth (state_of (clickStory i s)) = closedMouth s.
Proof.
  destruct (selectStory_animation i s) as [E1 E2].
  unfold clickStory. destruct (selectStory i s) as [s1|x s1];
    unfold state_of in *; [|done].
  by destruct (resumeAudio_animation (set_hasEnded false s1)) as [-> ->].
Qed.

Lemma displayEmotion_animation e s :
  blinking (displayEmotion e s) = blinking s
  ∧ closedMouth (displayEmotion e s) = closedMouth s.
Proof.
  unfold displayEmotion. destruct (emotionImageMap_get e); [|done].
  by destruct (truthy_value _).
Qed.

(** What an event does to the two animation flags: the blink and mouth
    closures set and reset their own flag, nothing else writes either. *)
Lemma step_animation e s s' :
  step e s = Some s' →
  match e with
  | Fire id =>
      ∃ t, t ∈ timers s ∧ tid t = id ∧ s' = fire t s
           ∧ blinking s' = match cb t with
                           | BlinkTick => true | BlinkOff => false
                           | _ => blinking s end
           ∧ closedMouth s' = match cb t with
                              | MouthTick => true | MouthOff => false
                              | _ => closedMouth s end
  | _ => blinking s' = blinking s ∧ closedMouth s' = closedMouth s
  end.
Proof.
  destruct e.
  - cbn. destruct (Qle_b 0 d); [|done]. by intros [= <-].
  - intros (t & Hin & Hid & ->)%step_fire_inv. exists t.
    split; [done|]. split; [done|]. split; [done|]. unfold fire.
    destruct (cb t); cbn; try done.
    + destruct (cue_at _ k j) as [tp|]; [|done].
      by destruct (displayEmotion_animation (emotion tp)
                     (write_consumed k j true
                        (set_timers (requeue t (timers s)) s))) as [-> ->].
    + unfold renderTick. by destruct (_ && _).
  - by intros [= <-].
  - by intros [= <-].
  - cbn. intros [= <-]. by rewrite pauseAudio_eq.
  - cbn. intros [= <-]. apply resumeAudio_animation.
  - unfold step. intros [= <-]. apply selectStory_animation.
  - unfold step. intros [= <-]. apply clickStory_animation.
Qed.

Lemma reset_pending_kept e s s' c d :
  wf s → owned s → not_cue c → step e s = Some s' →
  (∀ t, t ∈ timers s → e = Fire (tid t) → cb t ≠ c) →
  reset_pending s c d → reset_pending s' c d.
Proof.
  intros Hwf Ho Hc Hstep Hne (t & Hin & Hcb & Hp & Hd).
  exists t. split.
  - eapply step_keeps_noncue; try done; [by rewrite Hcb|].
    intros ->. by apply (Hne t).
  - split; [done|]. split; [done|]. apply step_now in Hstep. lra.
Qed.

Lemma reset_pending_setTimeout c d s :
  reset_pending (snd (setTimeout c d s)) c d.
Proof.
  exists (mkTimer (nextId s) (now s + d) c None). split.
  - apply elem_of_app. right. left.
  - split; [done|]. split; [done|]. apply Qle_refl.
Qed.

Lemma animation_ok_step e s s' :
  wf s → owned s → animation_ok s → step e s = Some s' → animation_ok s'.
Proof.
  intros Hwf Ho [Hb Hm] Hstep. pose proof (step_animation e s s' Hstep) as Ha.
  assert (Hsame : ∀ t t', t ∈ timers s → t' ∈ timers s →
                          Fire (tid t) = Fire (tid t') → t = t').
  { intros t t' Hin Hin' [= E].
    by eapply (NoDup_fmap_eq tid (timers s)); [apply Hwf|..]. }
  destruct e as [d|id|pos| | | |index|index];
    try (destruct Ha as [Eb Em]; split; intros H;
         [rewrite Eb in H|rewrite Em in H];
         (eapply reset_pending_kept;
          [exact Hwf|exact Ho|exact I|exact Hstep|by intros ? ? [=]|auto])).
  destruct Ha as (t & Hin & <- & -> & Eb & Em).
  split; intros H; [rewrite Eb in H|rewrite Em in H];
    destruct (cb t) eqn:Hcb; try done;
    try (eapply reset_pending_kept;
         [exact Hwf|exact Ho|exact I|exact Hstep| |auto];
         intros t' Hin' E; rewrite <- (Hsame t t' Hin Hin' E); congruence).
  - unfold fire. rewrite Hcb. apply reset_pending_setTimeout.
  - unfold fire. rewrite Hcb. apply reset_pending_setTimeout.
Qed.

Lemma animation_ok_booted ss img a : animation_ok (booted ss img a).
Proof.
  unfold booted, boot.
  destruct (selectStory_animation 0 (initial ss img a)) as [Eb Em].
  destruct (selectStory 0 (initial ss img a)) as [s1|x s1];
    unfold state_of in *; split; cbn; rewrite ?Eb, ?Em; done.
Qed.

(** X16.  In every state the page can reach, shut eyes have their
    reopening pending, due at most [blinkDuration] from now, and a closed
    mouth has its reopening pending, due at most [mouthCloseDuration]
    from now: each flag is raised only by its own interval, together with
    the one-shot timer that lowers it, and nothing the page does cancels
    that timer. *)
Theorem blink_and_mouth_reopen
    (ss : list Story) (img : string) (a : Audio) (es : list Event) (s : State) :
  run es (booted ss img a) = Some s →
  (blinking s = true →
   ∃ t, t ∈ timers s ∧ cb t = BlinkOff ∧ period t = None
        ∧ (due t <= now s + CONFIG.blinkDuration)%Q)
  ∧ (closedMouth s = true →
     ∃ t, t ∈ timers s ∧ cb t = MouthOff ∧ period t = None
          ∧ (due t <= now s + CONFIG.mouthCloseDuration)%Q).
Proof.
  apply (run_reachable_invariant animation_ok).
  - apply animation_ok_booted.
  - intros e u u'. apply animation_ok_step.
Qed.

Lemma blink_and_mouth_reopen_witness :
  ∃ s, run [Click 0; Elapse 500; Fire 2; Pause; Select 1; Elapse 100] ex_page
       = Some s
       ∧ closedMouth s = true
       ∧ ∃ t, t ∈ timers s ∧ cb t = MouthOff ∧ period t = None
              ∧ (due t <= now s + CONFIG.mouthCloseDuration)%Q.
Proof.
  assert (E : ∃ s, run [Click 0; Elapse 500; Fire 2; Pause; Select 1; Elapse 100]
                     ex_page = Some s ∧ closedMouth s = true)
    by (eexists; split; [by vm_compute|by vm_compute]).
  destruct E as (s & E & Hc). exists s. split; [exact E|]. split; [exact Hc|].
  exact (proj2 (blink_and_mouth_reopen ex_stories "/qt/normal2.png"
                  (mkAudio "" true 0) _ s E) Hc).
Defined.

(** ** What [clearScheduledEmotions] cancels *)

Lemma filter_ext_in {A} (P Q : A → Prop) `{∀ x, Decision (P x)}
    `{∀ x, Decision (Q x)} (l : list A) :
  (∀ x, x ∈ l → P x ↔ Q x) → filter P l = filter Q l.
Proof.
  induction l as [|a l IH]; intros Hl; [done|].
  assert (Ha : P a ↔ Q a) by (apply Hl; left).
  assert (Hr : filter P l = filter Q l)
    by (apply IH; intros x Hx; apply Hl; by right).
  destruct (decide (P a)) as [Hp|Hp].
  - rewrite !filter_cons_True by tauto. by rewrite Hr.
  - rewrite !filter_cons_False by tauto. done.
Qed.

(** X17.  In every state the page can reach, [timeouts] holds the id of
    every pending cue trigger and of no other pending timer.  So
    [clearScheduledEmotions], and with it [pauseAudio], cancels exactly
    the cue triggers: all of them, and none of the clock's intervals, no
    pending reopening of the eyes or the mouth, and no pending
    auto-clear of the overlay. *)
Theorem clear_cancels_exactly_the_cue_triggers
    (ss : list Story) (img : string) (a : Audio) (es : list Event) (s : State) :
  run es (booted ss img a) = Some s →
  timers (clearScheduledEmotions s)
  = filter (λ t, cue_trigger t = false) (timers s)
  ∧ timers (pauseAudio s) = filter (λ t, cue_trigger t = false) (timers s)
  ∧ timeouts (clearScheduledEmotions s) = []
  ∧ ∀ t, t ∈ timers s → (tid t ∈ timeouts s ↔ cue_trigger t = true).
Proof.
  intros Hrun. destruct (tidy_reachable _ _ _ _ _ Hrun) as [Hwf [_ Ho]].
  pose proof (proj1 (tracked_spec s) (wf_tracked s Hwf)) as Htr.
  assert (Hiff : ∀ t, t ∈ timers s → (tid t ∈ timeouts s ↔ cue_trigger t = true)).
  { intros t Hin. unfold cue_trigger. split.
    - intros Hid. destruct (cb t) eqn:Hcb; try done;
        exfalso; apply (Ho t Hin); try done; by rewrite Hcb.
    - destruct (cb t) as [k j| | | | | |] eqn:Hcb; try done. intros _.
      by destruct (Htr t k j Hin Hcb). }
  assert (Hf : filter (λ t, tid t ∉ timeouts s) (timers s)
               = filter (λ t, cue_trigger t = false) (timers s)).
  { apply filter_ext_in. intros t Hin. rewrite (Hiff t Hin).
    by destruct (cue_trigger t). }
  split; [by rewrite clearScheduledEmotions_eq|].
  split; [by rewrite pauseAudio_eq|].
  split; [by rewrite clearScheduledEmotions_eq|done].
Qed.

Lemma clear_cancels_exactly_the_cue_triggers_witness :
  ∃ s, run [Click 0; Elapse 2000; Fire 3; Elapse 100; Fire 0] ex_page = Some s
       ∧ length (timers s) = 5
       ∧ length (timers (pauseAudio s)) = 4.
Proof.
  assert (E : ∃ s, run [Click 0; Elapse 2000; Fire 3; Elapse 100; Fire 0] ex_page
                   = Some s ∧ length (timers s) = 5
                     ∧ length (filter (λ t, cue_trigger t = false) (timers s)) = 4)
    by (eexists; split; [by vm_compute|split; [by vm_compute|by vm_compute]]).
  destruct E as (s & E & H5 & H4). exists s. split; [exact E|].
  split; [exact H5|].
  destruct (clear_cancels_exactly_the_cue_triggers ex_stories _ _ _ s E)
    as (_ & -> & _). exact H4.
Defined.

(** ** A cue fires at most once per selection *)

Lemma fired_cue_Some e s k j :
  fired_cue e s = Some (k, j) →
  ∃ t, e = Fire (tid t) ∧ t ∈ timers s ∧ cb t = CueFire k j.
Proof.
  destruct e as [|id| | | | | |]; try done. cbn.
  destruct (find_timer id s) as [t|] eqn:Ef; [|done]. cbn.
  apply find_timer_Some in Ef as [Hin <-].
  unfold cue_of. destruct (cb t) as [k' j'| | | | | |] eqn:Hcb; try done. cbn.
  intros [= <- <-]. by exists t.
Qed.

(** A cue that reads unconsumed after an event that installs no story read
    unconsumed before it. *)
Lemma unconsumed_before e s s' k j c :
  negb (selecting e) = true → step e s = Some s' →
  cue_at s' k j = Some c → consumed c = false →
  ∃ c0, cue_at s k j = Some c0 ∧ consumed c0 = false.
Proof.
  intros He Hstep Hc Hf. destruct e; try done.
  - cbn in Hstep. destruct (Qle_b 0 d); [|done]. simplify_eq. eauto.
  - apply step_fire_inv in Hstep as (t & Hin & _ & ->).
    destruct (decide (cb t = CueFire k j)) as [Hcb|Hcb].
    + rewrite (fire_cue_at_own t s k j Hcb) in Hc.
      destruct (cue_at s k j) as [c0|]; [|done]. cbn in Hc.
      injection Hc as <-. done.
    + rewrite (fire_cue_at_other t s k j Hcb) in Hc. eauto.
  - cbn in Hstep. simplify_eq. eauto.
  - cbn in Hstep. simplify_eq. eauto.
  - cbn in Hstep. simplify_eq. rewrite pauseAudio_eq in Hc. eauto.
  - cbn in Hstep. simplify_eq. unfold cue_at in Hc.
    destruct (resumeAudio_frame s) as (Es & _). rewrite Es in Hc. eauto.
Qed.

Lemma cue_log_unconsumed es s k j :
  wf s → forallb (λ e, negb (selecting e)) es = true →
  (k, j) ∈ cue_log es s →
  ∃ c, cue_at s k j = Some c ∧ consumed c = false.
Proof.
  revert s. induction es as [|e es IH]; intros s Hwf Hes; cbn.
  { intros H. by apply not_elem_of_nil in H. }
  cbn in Hes. apply andb_true_iff in Hes as [He Hes].
  destruct (step e s) as [s'|] eqn:E.
  2: { intros H. by apply not_elem_of_nil in H. }
  intros [H|H]%elem_of_app.
  - destruct (fired_cue e s) as [[k' j']|] eqn:Ef; cbn in H.
    2: { by apply not_elem_of_nil in H. }
    apply list_elem_of_singleton in H. injection H as -> ->.
    apply fired_cue_Some in Ef as (t & _ & Hin & Hcb).
    apply (wf_unconsumed s Hwf). apply elem_of_pending_cues. eauto.
  - destruct (IH s' (wf_step e s s' Hwf E) Hes H) as (c & Hc & Hf).
    by eapply unconsumed_before.
Qed.

(** X18.  Between two selections no cue fires twice.  From any state the
    page can reach, over any events that install no story (timers,
    pauses, resumes, seeks, the end of the track), the cue triggers that
    run are for pairwise different cues, and each is for a cue that read
    unconsumed at the start: a cue that is consumed never fires again
    until its story is selected again, wherever the audio position is
    moved. *)
Theorem no_cue_fires_twice
    (ss : list Story) (img : string) (a : Audio) (es0 es : list Event)
    (s : State) :
  run es0 (booted ss img a) = Some s →
  forallb (λ e, negb (selecting e)) es = true →
  NoDup (cue_log es s)
  ∧ ∀ k j, (k, j) ∈ cue_log es s →
           ∃ c, cue_at s k j = Some c ∧ consumed c = false.
Proof.
  intros Hrun Hes. destruct (tidy_reachable _ _ _ _ _ Hrun) as [Hwf _].
  split; [|intros k j; by apply cue_log_unconsumed].
  clear Hrun. revert s Hwf Hes. induction es as [|e es IH]; intros s Hwf Hes; cbn.
  { constructor. }
  cbn in Hes. apply andb_true_iff in Hes as [He Hes].
  destruct (step e s) as [s'|] eqn:E; [|constructor].
  pose proof (wf_step e s s' Hwf E) as Hwf'.
  destruct (fired_cue e s) as [[k j]|] eqn:Ef; cbn; [|by apply IH].
  apply NoDup_cons. split; [|by apply IH].
  intros H. destruct (cue_log_unconsumed es s' k j Hwf' Hes H) as (c & Hc & Hf).
  apply fired_cue_Some in Ef as (t & -> & Hin & Hcb).
  apply step_fire_inv in E as (t' & Hin' & Hid & ->).
  assert (t' = t) by (by eapply (NoDup_fmap_eq tid (timers s)); [apply Hwf|..]).
  subst t'. rewrite (fire_cue_at_own t s k j Hcb) in Hc.
  destruct (cue_at s k j) as [c0|]; [|done]. cbn in Hc. injection Hc as <-.
  done.
Qed.

Lemma no_cue_fires_twice_witness :
  ∃ s, run [Click 0] ex_page = Some s
       ∧ cue_log [Elapse 2000; Fire 3; Seek 0; Pause; Resume; Elapse 5000;
                  Fire 6] s = [(0, 0); (0, 1)]
       ∧ NoDup (cue_log [Elapse 2000; Fire 3; Seek 0; Pause; Resume;
                         Elapse 5000; Fire 6] s).
Proof.
  assert (E : ∃ s, run [Click 0] ex_page = Some s
                   ∧ cue_log [Elapse 2000; Fire 3; Seek 0; Pause; Resume;
                              Elapse 5000; Fire 6] s = [(0, 0); (0, 1)])
    by (eexists; split; [by vm_compute|by vm_compute]).
  destruct E as (s & E & Hl). exists s. split; [exact E|]. split; [exact Hl|].
  exact (proj1 (no_cue_fires_twice ex_stories _ _ _
                  [Elapse 2000; Fire 3; Seek 0; Pause; Resume; Elapse 5000;
                   Fire 6] s E eq_refl)).
Defined.

(** ** The overlay ends *)

Lemma Qle_b_false a b : Qle_b a b = false → (b < a)%Q.
Proof. unfold Qle_b. by destruct (Qlt_le_dec b a). Qed.

(** What holds at every turn of the event loop holds when [advance]
    returns, and then no timer is due any more. *)
Lemma advance_invariant (J : State → Prop) (T : Q) :
  (∀ u d, J u → J (set_now d u)) →
  (∀ u t, J u → t ∈ timers u → (due t <= T)%Q → J (fire t u)) →
  ∀ fuel s u, J s → advance fuel T s = Some u →
  J u ∧ now u = T ∧ ∀ t, t ∈ timers u → (T < due t)%Q.
Proof.
  intros Hnow Hfire.
  assert (Hstop : ∀ s t, next_timer (timers s) = Some t →
                         Qle_b (due t) T = false →
                         ∀ t', t' ∈ timers s → (T < due t')%Q).
  { intros s t En E t' Ht'. apply next_timer_min in En as [_ Hmin].
    apply Qle_b_false in E. eapply Qlt_le_trans; [exact E|by apply Hmin]. }
  assert (Hnone : ∀ s, next_timer (timers s) = None →
                       ∀ t', t' ∈ timers s → (T < due t')%Q).
  { intros s En t' Ht'. apply next_timer_None in En. rewrite En in Ht'.
    by apply not_elem_of_nil in Ht'. }
  induction fuel as [|fuel IH]; intros s u HJ; cbn;
    destruct (next_timer (timers s)) as [t|] eqn:En.
  - destruct (Qle_b (due t) T) eqn:E; [done|]. intros [= <-].
    split; [by apply Hnow|]. split; [done|]. by apply (Hstop s t).
  - intros [= <-]. split; [by apply Hnow|]. split; [done|]. by apply Hnone.
  - destruct (Qle_b (due t) T) eqn:E.
    + apply IH. apply Qle_b_true in E. apply next_timer_min in En as [Hin _].
      destruct (Qle_b (due t) (now s)); apply Hfire; auto.
    + intros [= <-].
      split; [by apply Hnow|]. split; [done|]. by apply (Hstop s t).
  - intros [= <-]. split; [by apply Hnow|]. split; [done|]. by apply Hnone.
Qed.

Lemma run_callback_currentEmotion c s :
  currentEmotion (run_callback c s)
  = match c with
    | CueFire k j => currentEmotion (run_callback (CueFire k j) s)
    | ClearEmotion => None
    | _ => currentEmotion s
    end.
Proof.
  destruct c; cbn; try done. unfold renderTick. by destruct (_ && _).
Qed.

(** When no cue trigger is due within the next [emotionDelay], no overlay
    is active once the event loop has caught up with that time. *)
Lemma overlay_cleared_when_caught_up
    (ss : list Story) (img : string) (a : Audio) (es : list Event)
    (s u : State) (fuel : nat) :
  run es (booted ss img a) = Some s →
  (∀ f, f ∈ pending s → (now s + CONFIG.emotionDelay < f.2)%Q) →
  advance fuel (now s + CONFIG.emotionDelay) s = Some u →
  currentEmotion u = None
  ∧ now u = (now s + CONFIG.emotionDelay)%Q
  ∧ (isPaused u = false →
     faceImage (run_callback RenderTick u)
     = composition (blinking u) (closedMouth u || keepMouthShut u)).
Proof.
  intros Hrun Hquiet Hadv. set (T := (now s + CONFIG.emotionDelay)%Q) in *.
  destruct (tidy_reachable _ _ _ _ _ Hrun) as [Hwf Ho].
  assert (Hov : overlay_ok s).
  { revert Hrun. apply (run_reachable_invariant overlay_ok).
    - apply overlay_ok_booted.
    - intros ev v v'. apply overlay_ok_step. }
  set (J := λ v : State,
         wf v ∧ (∀ f, f ∈ pending v → (T < f.2)%Q)
         ∧ ∀ e, currentEmotion v = Some e → clear_by T v).
  destruct (advance_invariant J T) with (fuel := fuel) (s := s) (u := u)
    as ((Hwfu & _ & Hclr) & Hnow & Hlate); try done.
  - intros v d (H1 & H2 & H3). split; [by apply (wf_frame v)|]. done.
  - intros v t (H1 & H2 & H3) Hin Hdue.
    assert (Hnc : ∀ k j, cb t ≠ CueFire k j).
    { intros k j Hcb.
      assert (H : (k, j, due t) ∈ pending v) by (apply elem_of_pending; eauto).
      apply H2 in H. cbn in H. lra. }
    split; [by apply wf_fire|]. split.
    + intros f Hf. apply H2. eapply elem_of_sublist; [exact Hf|].
      by apply fire_pending_sublist.
    + intros e. unfold fire at 1. rewrite run_callback_currentEmotion.
      destruct (cb t) as [k j| | | | | |] eqn:Hcb; try done;
        try (by destruct (Hnc k j));
        (intros He; destruct (H3 e He) as (t0 & Hin0 & Hcb0 & Hd0);
         exists t0; split; [|done];
         apply fire_keeps; [done|done|done|];
         intros Hid;
         assert (t0 = t)
           by (by eapply (NoDup_fmap_eq tid (timers v)); [apply H1|..]);
         congruence).
  - split; [done|]. split; [done|]. intros e He.
    destruct (Hov e He) as (_ & t & Hin & Hcb & Hd). by exists t.
  - assert (Hnone : currentEmotion u = None).
    { destruct (currentEmotion u) as [e|] eqn:He; [|done].
      destruct (Hclr e eq_refl) as (t & Hin & _ & Hd).
      apply Hlate in Hin. lra. }
    split; [done|]. split; [done|]. intros Hp. cbn. unfold renderTick.
    by rewrite Hp, Hnone.
Qed.

(** ** The event loop catches up *)

Lemma Qfloor_unique (x : Q) (z : Z) :
  (inject_Z z <= x)%Q → (x < inject_Z (z + 1))%Q → Qfloor x = z.
Proof.
  intros H1 H2.
  assert (L1 : (z <= Qfloor x)%Z).
  { rewrite <- (Qfloor_Z z). by apply Qfloor_resp_le. }
  assert (L2 : (Qfloor x < z + 1)%Z).
  { rewrite Zlt_Qlt. eapply Qle_lt_trans; [apply Qfloor_le|done]. }
  lia.
Qed.

Lemma fires_left_postpone T t p :
  period t = Some p → (0 < p)%Q → (due t <= T)%Q →
  S (fires_left T (postpone (tid t) p t)) = fires_left T t.
Proof.
  intros Ep Hp Hd. unfold fires_left, postpone. rewrite decide_True by done.
  cbn [due period]. rewrite Ep. rewrite (proj2 (Qle_b_true (due t) T)) by done.
  assert (Hp0 : ¬ (p == 0)%Q) by lra.
  set (x := ((T - due t) / p)%Q).
  assert (Hx0 : (0 <= x)%Q) by (apply Qle_shift_div_l; lra).
  destruct (Qle_b (due t + p) T) eqn:E.
  - apply Qle_b_true in E. f_equal.
    assert (Hx1 : (1 <= x)%Q) by (apply Qle_shift_div_l; lra).
    assert (Hf1 : (1 <= Qfloor x)%Z).
    { change 1%Z with (Qfloor (inject_Z 1)). by apply Qfloor_resp_le. }
    assert (Heq : ((T - (due t + p)) / p == x - 1)%Q) by (unfold x; by field).
    rewrite (Qfloor_comp _ _ Heq).
    rewrite (Qfloor_unique (x - 1) (Qfloor x - 1)).
    + lia.
    + unfold Z.sub. rewrite inject_Z_plus, inject_Z_opp. pose proof (Qfloor_le x).
      change (inject_Z 1) with 1%Q. lra.
    + replace (Qfloor x - 1 + 1)%Z with (Qfloor x) by lia.
      pose proof (Qlt_floor x) as H. rewrite inject_Z_plus in H.
      change (inject_Z 1) with 1%Q in H. lra.
  - apply Qle_b_false in E. f_equal.
    assert (Hx1 : (x < 1)%Q) by (apply Qlt_shift_div_r; lra).
    rewrite (Qfloor_unique x 0); [done|done|done].
Qed.

Lemma cost_pos c : 0 < cost c.
Proof. destruct c; cbn; lia. Qed.

Lemma fires_left_due T t : (due t <= T)%Q → 0 < fires_left T t.
Proof.
  intros H. unfold fires_left. rewrite (proj2 (Qle_b_true _ _) H).
  destruct (period t); lia.
Qed.

Lemma weight_le_backlog T (q : list Timer) t :
  t ∈ q → weight T t ≤ sum_list_with (weight T) q.
Proof.
  induction q as [|a q IH]; intros Hin.
  { by apply not_elem_of_nil in Hin. }
  cbn. apply elem_of_cons in Hin as [->|Hin]; [lia|].
  apply IH in Hin. lia.
Qed.

Lemma backlog_oneshot T (q : list Timer) t :
  NoDup (tid <$> q) → t ∈ q →
  sum_list_with (weight T) (filter (λ t', tid t' ≠ tid t) q) + weight T t
  = sum_list_with (weight T) q.
Proof.
  induction q as [|a q IH]; intros Hnd Hin.
  { by apply not_elem_of_nil in Hin. }
  cbn in Hnd. apply NoDup_cons in Hnd as [Ha Hnd].
  apply elem_of_cons in Hin as [->|Hin].
  - rewrite filter_cons_False by (intros H; by apply H).
    rewrite filter_all; [cbn; lia|].
    intros x Hx E. apply Ha. rewrite <- E. by apply list_elem_of_fmap_2.
  - rewrite filter_cons_True.
    + cbn. rewrite <- (IH Hnd Hin). lia.
    + intros E. apply Ha. rewrite E. by apply list_elem_of_fmap_2.
Qed.

Lemma backlog_interval T (q : list Timer) t p :
  NoDup (tid <$> q) → t ∈ q →
  sum_list_with (weight T) (postpone (tid t) p <$> q) + weight T t
  = sum_list_with (weight T) q + weight T (postpone (tid t) p t).
Proof.
  induction q as [|a q IH]; intros Hnd Hin.
  { by apply not_elem_of_nil in Hin. }
  cbn in Hnd. apply NoDup_cons in Hnd as [Ha Hnd].
  apply elem_of_cons in Hin as [->|Hin]; cbn.
  - assert (E : postpone (tid a) p <$> q = q).
    { rewrite <- (list_fmap_id q) at 2. apply list_fmap_ext.
      intros i x Hx. unfold postpone. rewrite decide_False; [done|].
      intros E. apply Ha. rewrite <- E.
      apply list_elem_of_fmap_2. by eapply list_elem_of_lookup_2. }
    rewrite E. lia.
  - assert (E : postpone (tid t) p a = a).
    { unfold postpone. rewrite decide_False; [done|].
      intros E. apply Ha. rewrite E. by apply list_elem_of_fmap_2. }
    rewrite E. pose proof (IH Hnd Hin). lia.
Qed.

(** What a callback adds to the queue weighs less than its own run. *)
Lemma run_callback_spawn T c s :
  ∃ l, timers (run_callback c s) = timers s ++ l
       ∧ sum_list_with (weight T) l < cost c
       ∧ ∀ t, t ∈ l → period t = None.
Proof.
  assert (H0 : ∀ u, ∃ l, timers u = timers u ++ l
                         ∧ sum_list_with (weight T) l < cost c
                         ∧ ∀ t, t ∈ l → period t = None).
  { intros u. exists []. rewrite app_nil_r. split; [done|].
    split; [apply cost_pos|]. intros t Ht. by apply not_elem_of_nil in Ht. }
  assert (H1 : ∀ u c' d, cost c = 2 → cost c' = 1 →
            ∃ l, timers (snd (setTimeout c' d u)) = timers u ++ l
                 ∧ sum_list_with (weight T) l < cost c
                 ∧ ∀ t, t ∈ l → period t = None).
  { intros u c' d E2 E1. eexists. split; [done|]. split.
    - cbn. unfold weight, fires_left. cbn. rewrite E1, E2.
      destruct (Qle_b _ _); cbn; lia.
    - by intros t ->%list_elem_of_singleton. }
  destruct c; cbn.
  - destruct (cue_at s k j) as [tp|]; [|apply H0].
    unfold displayEmotion.
    destruct (emotionImageMap_get (emotion tp)) as [img|];
      [|apply (H0 (write_consumed k j true s))].
    destruct (truthy_value img); [|apply (H0 (write_consumed k j true s))].
    apply (H1 (set_faceImage _ (set_currentEmotion _ (write_consumed k j true s)))
              ClearEmotion); done.
  - apply (H0 (set_currentEmotion None s)).
  - unfold renderTick. destruct (_ && _); [|apply H0].
    apply (H0 (set_faceImage _ s)).
  - by apply (H1 (set_blinking true s) BlinkOff).
  - apply (H0 (set_blinking false s)).
  - by apply (H1 (set_closedMouth true s) MouthOff).
  - apply (H0 (set_closedMouth false s)).
Qed.

Lemma backlog_fire T t s :
  NoDup (tid <$> timers s) → periods_ok s → t ∈ timers s → (due t <= T)%Q →
  backlog T (fire t s) < backlog T s.
Proof.
  intros Hnd Hp Hin Hd. unfold backlog, fire.
  destruct (run_callback_spawn T (cb t) (set_timers (requeue t (timers s)) s))
    as (l & -> & Hl & _). cbn. rewrite sum_list_with_app.
  pose proof (fires_left_due T t Hd) as Hf.
  destruct (period t) as [p|] eqn:Ep.
  - rewrite (requeue_interval t p) by done.
    pose proof (backlog_interval T (timers s) t p Hnd Hin) as H.
    pose proof (fires_left_postpone T t p Ep (Hp t p Hin Ep) Hd) as H'.
    unfold weight in H at 2 4. destruct (postpone_same (tid t) p t) as (_ & Ec & _).
    rewrite Ec in H. nia.
  - rewrite requeue_oneshot by done.
    pose proof (backlog_oneshot T (timers s) t Hnd Hin) as H.
    unfold weight in H at 2. unfold fires_left in H, Hf.
    rewrite Ep in H, Hf. destruct (Qle_b (due t) T); lia.
Qed.

Lemma periods_ok_fire t s : periods_ok s → periods_ok (fire t s).
Proof.
  intros Hp t' p. unfold fire.
  destruct (run_callback_spawn 0 (cb t) (set_timers (requeue t (timers s)) s))
    as (l & -> & _ & Hl). cbn.
  intros [H|H]%elem_of_app Ep.
  - apply elem_of_requeue in H as (t0 & Hin & _ & _ & E). apply (Hp t0); congruence.
  - apply Hl in H. congruence.
Qed.

(** [advance] returns when given as much fuel as the backlog. *)
Lemma advance_enough T fuel s :
  wf s → periods_ok s → backlog T s ≤ fuel → is_Some (advance fuel T s).
Proof.
  revert s. induction fuel as [|fuel IH]; intros s Hwf Hp Hb; cbn;
    destruct (next_timer (timers s)) as [t|] eqn:En; try done.
  - destruct (Qle_b (due t) T) eqn:E; [|done]. exfalso.
    apply Qle_b_true in E. apply next_timer_min in En as [Hin _].
    pose proof (weight_le_backlog T (timers s) t Hin) as H.
    assert (0 < weight T t).
    { pose proof (fires_left_due T t E). pose proof (cost_pos (cb t)).
      unfold weight. nia. }
    unfold backlog in Hb. lia.
  - destruct (Qle_b (due t) T) eqn:E; [|done].
    apply Qle_b_true in E. apply next_timer_min in En as [Hin _].
    set (s1 := if Qle_b (due t) (now s) then s else set_now (due t) s).
    assert (Et : timers s1 = timers s) by (subst s1; by destruct (Qle_b _ _)).
    assert (Hwf1 : wf s1) by (subst s1; destruct (Qle_b _ _); [done|by apply (wf_frame s)]).
    assert (Hp1 : periods_ok s1) by (unfold periods_ok; by rewrite Et).
    apply IH; [apply wf_fire; [done|by rewrite Et]|by apply periods_ok_fire|].
    pose proof (backlog_fire T t s1) as H. unfold backlog in *. rewrite Et in H.
    specialize (H (wf_ids s Hwf) Hp1 Hin E). lia.
Qed.

Lemma periods_ok_sub s s' :
  (∀ t, t ∈ timers s' → t ∈ timers s ∨ period t = None) →
  periods_ok s → periods_ok s'.
Proof.
  intros Hsub Hp t p Hin Ep. destruct (Hsub t Hin) as [H|H]; [|congruence].
  by apply (Hp t).
Qed.

Lemma scheduleEmotions_timers s t :
  t ∈ timers (scheduleEmotions s) → t ∈ timers s ∨ period t = None.
Proof.
  unfold scheduleEmotions. rewrite clearScheduledEmotions_eq. cbn.
  destruct (emotionSchedule s) as [k|].
  - match goal with |- context [arm_cues k 0 ?cs ?u] =>
      destruct (arm_cues_timers k 0 cs u) as (-> & _) end.
    cbn. intros [H|H]%elem_of_app.
    + apply list_elem_of_filter in H as [_ H]. by left.
    + right. by apply elem_of_armed_timers in H as (_ & ? & _).
  - cbn. intros H. apply list_elem_of_filter in H as [_ H]. by left.
Qed.

Lemma resumeAudio_timers s t :
  t ∈ timers (resumeAudio s) → t ∈ timers s ∨ period t = None.
Proof.
  unfold resumeAudio. cbn. destruct (hasEnded s); cbn; [by left|].
  intros H. apply scheduleEmotions_timers in H. exact H.
Qed.

Lemma periods_ok_step e s s' : periods_ok s → step e s = Some s' → periods_ok s'.
Proof.
  intros Hp. destruct e; cbn.
  - destruct (Qle_b 0 d); [|done]. by intros [= <-].
  - destruct (find_timer id s) as [t|]; [|done].
    destruct (Qle_b _ _); [|done]. intros [= <-]. by apply periods_ok_fire.
  - by intros [= <-].
  - by intros [= <-].
  - intros [= <-]. apply (periods_ok_sub s); [|done]. rewrite pauseAudio_eq. cbn.
    intros t H. apply list_elem_of_filter in H as [_ H]. by left.
  - intros [= <-]. apply (periods_ok_sub s); [|done]. apply resumeAudio_timers.
  - intros [= <-]. apply (periods_ok_sub s); [|done].
    destruct (selectStory_frame s index) as (-> & _). by left.
  - intros [= <-]. apply (periods_ok_sub s); [|done].
    destruct (selectStory_frame s index) as (Et & _).
    unfold clickStory. destruct (selectStory index s) as [s1|x s1];
      unfold state_of in *; [|rewrite Et; by left].
    intros t [H|H]%resumeAudio_timers; [left|by right].
    cbn in H. by rewrite <- Et.
Qed.

Lemma periods_ok_booted ss img a : periods_ok (booted ss img a).
Proof.
  unfold booted, boot.
  destruct (selectStory_frame (initial ss img a) 0) as (Et & _).
  destruct (selectStory 0 (initial ss img a)) as [s1|x s1]; unfold state_of in *.
  - intros t p. unfold startClock. cbn. rewrite Et. cbn. intros Hin Ep.
    repeat (apply elem_of_cons in Hin as [->|Hin]; [cbn in Ep; by simplify_eq|]).
    by apply not_elem_of_nil in Hin.
  - intros t p. rewrite Et. intros Hin. by apply not_elem_of_nil in Hin.
Qed.

Lemma periods_ok_reachable ss img a es s :
  run es (booted ss img a) = Some s → periods_ok s.
Proof.
  apply (run_reachable_invariant periods_ok).
  - apply periods_ok_booted.
  - intros e u u' _ _. apply periods_ok_step.
Qed.

(** X21.  The event loop of the page always catches up.  From any state
    the page can reach and for any target time, running the due timers
    in order comes to an end: the intervals of [startClock] have positive
    periods, and a callback arms at most one timer, a one-shot that arms
    nothing.  As many turns as the backlog counts suffice; afterwards the
    clock reads the target time and every pending timer is due later. *)
Theorem event_loop_catches_up
    (ss : list Story) (img : string) (a : Audio) (es : list Event)
    (s : State) (T : Q) (fuel : nat) :
  run es (booted ss img a) = Some s → backlog T s ≤ fuel →
  ∃ u, advance fuel T s = Some u
       ∧ now u = T ∧ ∀ t, t ∈ timers u → (T < due t)%Q.
Proof.
  intros Hrun Hfuel. destruct (tidy_reachable _ _ _ _ _ Hrun) as [Hwf _].
  destruct (advance_enough T fuel s Hwf (periods_ok_reachable _ _ _ _ _ Hrun)
              Hfuel) as [u Hu].
  exists u. split; [done|].
  by destruct (advance_invariant (λ _, True) T (λ _ _ _, I) (λ _ _ _ _ _, I)
                 fuel s u I Hu) as (_ & ? & ?).
Qed.

Lemma event_loop_catches_up_witness :
  ∃ s u, run [Click 0; Elapse 1000] ex_page = Some s
         ∧ backlog 4000 s = 60
         ∧ advance 60 4000 s = Some u ∧ now u = 4000%Q.
Proof.
  assert (E : ∃ s, run [Click 0; Elapse 1000] ex_page = Some s
                   ∧ backlog 4000 s = 60)
    by (eexists; split; [by vm_compute|by vm_compute]).
  destruct E as (s & E & Hb).
  destruct (event_loop_catches_up ex_stories _ _ _ s 4000 60 E) as (u & A & Hn & _).
  { by rewrite Hb. }
  exists s, u. split; [exact E|]. split; [exact Hb|]. split; [exact A|exact Hn].
Defined.

(** X19.  An overlay does not outlast [emotionDelay] unless a cue renews
    it.  From any state the page can reach in which no cue trigger is due
    within the next [emotionDelay], the event loop, running every timer
    on time, gets to that time, and then no overlay is active, so the
    next render tick draws the idle face again (when the scheduler is not
    paused). *)
Theorem overlay_ends_after_delay
    (ss : list Story) (img : string) (a : Audio) (es : list Event)
    (s : State) (fuel : nat) :
  run es (booted ss img a) = Some s →
  (∀ f, f ∈ pending s → (now s + CONFIG.emotionDelay < f.2)%Q) →
  backlog (now s + CONFIG.emotionDelay) s ≤ fuel →
  ∃ u, advance fuel (now s + CONFIG.emotionDelay) s = Some u
       ∧ currentEmotion u = None
       ∧ now u = (now s + CONFIG.emotionDelay)%Q
       ∧ (isPaused u = false →
          faceImage (run_callback RenderTick u)
          = composition (blinking u) (closedMouth u || keepMouthShut u)).
Proof.
  intros Hrun Hquiet Hfuel. destruct (tidy_reachable _ _ _ _ _ Hrun) as [Hwf _].
  destruct (advance_enough (now s + CONFIG.emotionDelay) fuel s Hwf
              (periods_ok_reachable _ _ _ _ _ Hrun) Hfuel) as [u Hu].
  exists u. split; [done|].
  by apply (overlay_cleared_when_caught_up ss img a es s u fuel).
Qed.

Lemma overlay_ends_after_delay_witness :
  ∃ s u, run [Click 0; Elapse 2000; Fire 3] ex_page = Some s
         ∧ currentEmotion s = Some "joie"
         ∧ advance 100 (now s + CONFIG.emotionDelay) s = Some u
         ∧ currentEmotion u = None.
Proof.
  assert (E : ∃ s, run [Click 0; Elapse 2000; Fire 3] ex_page = Some s
                   ∧ currentEmotion s = Some "joie"
                   ∧ pending s = [(0, 1, 5000%Q)]
                   ∧ now s = 2000%Q
                   ∧ backlog (now s + CONFIG.emotionDelay) s ≤ 100)
    by (eexists; split; [by vm_compute|split; [by vm_compute|
          split; [by vm_compute|split; [by vm_compute|vm_compute; lia]]]]).
  destruct E as (s & E & Hc & Hp & Hn & Hb).
  destruct (overlay_ends_after_delay ex_stories _ _ _ s 100 E)
    as (u & A & Hu & _); [|exact Hb|].
  { intros f. rewrite Hp, Hn. intros ->%list_elem_of_singleton. by vm_compute. }
  exists s, u. split; [exact E|]. split; [exact Hc|]. split; [exact A|exact Hu].
Defined.

(** * Properties of the story generator *)

Lemma extractEmotions_step (s : make_story.JSString) :
  make_story.extractEmotions s
  = match make_story.regex_exec s with
    | None => ([], [])
    | Some (skipped, group, rest) =>
        ((match make_story.trim skipped with
          | [] => []
          | _ => [make_story.mkPart (make_story.trim skipped)
                    (make_story.trim group)]
          end) ++ (make_story.extractEmotions rest).1,
         make_story.trim group :: (make_story.extractEmotions rest).2)
    end.
Proof.
  rewrite make_story.extractEmotions_equation_1.
  change (make_story.regex_exec s)
    with (proj1_sig (make_story.inspect (make_story.regex_exec s))) at 2.
  by destruct (make_story.inspect (make_story.regex_exec s))
    as [[[[k g] r]|] Ho].
Qed.

Lemma close_tag_Some s g r :
  make_story.close_tag s = Some (g, r) →
  s = g ++ 93%N :: r
  ∧ ∀ c, c ∈ g → c ≠ 93%N ∧ make_story.is_line_terminator c = false.
Proof.
  revert g r. induction s as [|c s IH]; intros g r; cbn; [done|].
  destruct (c =? 93)%N eqn:E.
  - apply N.eqb_eq in E as ->. intros [= <- <-]. split; [done|].
    intros c H. by apply not_elem_of_nil in H.
  - apply N.eqb_neq in E.
    destruct (make_story.is_line_terminator c) eqn:El; [done|].
    destruct (make_story.close_tag s) as [[g' r']|]; [|done]. cbn.
    intros [= <- <-]. destruct (IH _ _ eq_refl) as [-> Hg]. split; [done|].
    intros c' [->|Hc]%elem_of_cons; [done|by apply Hg].
Qed.

Lemma regex_exec_Some s k g r :
  make_story.regex_exec s = Some (k, g, r) →
  s = k ++ 91%N :: g ++ 93%N :: r
  ∧ ∀ c, c ∈ g → c ≠ 93%N ∧ make_story.is_line_terminator c = false.
Proof.
  revert k g r. induction s as [|c s IH]; intros k g r; cbn; [done|].
  destruct (if (c =? 91)%N then make_story.close_tag s else None)
    as [[g' r']|] eqn:E.
  - intros [= <- <- <-]. destruct (c =? 91)%N eqn:Ec; [|done].
    apply N.eqb_eq in Ec as ->. apply close_tag_Some in E as [-> Hg]. done.
  - destruct (make_story.regex_exec s) as [[[k' g'] r']|]; [|done]. cbn.
    intros [= <- <- <-]. destruct (IH _ _ _ eq_refl) as [-> Hg]. done.
Qed.

Lemma regex_exec_shorter s k g r :
  make_story.regex_exec s = Some (k, g, r) → length r < length s.
Proof.
  intros [-> _]%regex_exec_Some. rewrite !length_app. cbn.
  rewrite length_app. cbn. lia.
Qed.

(** ** [trim] *)

Lemma trimStart_suffix s : make_story.trimStart s `suffix_of` s.
Proof.
  induction s as [|c s IH]; cbn; [done|].
  destruct (make_story.is_white_space c); [|done].
  by apply suffix_cons_r.
Qed.

Lemma trimStart_head s c r :
  make_story.trimStart s = c :: r → make_story.is_white_space c = false.
Proof.
  induction s as [|c' s IH]; cbn; [done|].
  destruct (make_story.is_white_space c') eqn:E; [done|]. by intros [= <- _].
Qed.

Lemma trimStart_id s :
  (∀ c r, s = c :: r → make_story.is_white_space c = false) →
  make_story.trimStart s = s.
Proof.
  destruct s as [|c s]; [done|]. intros H. cbn. by rewrite (H c s eq_refl).
Qed.

Lemma trim_sublist s : make_story.trim s `sublist_of` s.
Proof.
  unfold make_story.trim.
  pose proof (trimStart_suffix s) as [w1 E1].
  pose proof (trimStart_suffix (reverse (make_story.trimStart s))) as [w2 E2].
  apply (f_equal reverse) in E2. rewrite reverse_involutive, reverse_app in E2.
  set (t := reverse (make_story.trimStart (reverse (make_story.trimStart s))))
    in *.
  assert (E : s = w1 ++ t ++ reverse w2) by congruence.
  clearbody t. rewrite E. by apply sublist_inserts_l, sublist_inserts_r.
Qed.

Lemma trim_head s c r :
  make_story.trim s = c :: r → make_story.is_white_space c = false.
Proof.
  unfold make_story.trim. intros E.
  pose proof (trimStart_suffix (reverse (make_story.trimStart s))) as [w2 E2].
  apply (f_equal reverse) in E2.
  rewrite reverse_involutive, reverse_app, E in E2.
  cbn in E2. by apply (trimStart_head s c (r ++ reverse w2)).
Qed.

Lemma trim_last s c r :
  make_story.trim s = r ++ [c] → make_story.is_white_space c = false.
Proof.
  unfold make_story.trim. intros E. apply (f_equal reverse) in E.
  rewrite reverse_involutive, reverse_snoc in E.
  by apply trimStart_head in E.
Qed.

Lemma trim_trim s : make_story.trim (make_story.trim s) = make_story.trim s.
Proof.
  assert (H1 : make_story.trimStart (make_story.trim s) = make_story.trim s).
  { apply trimStart_id. intros c r. apply trim_head. }
  unfold make_story.trim at 1. rewrite H1.
  assert (H2 : make_story.trimStart (reverse (make_story.trim s))
               = reverse (make_story.trim s)).
  { apply trimStart_id. intros c r E. apply (trim_last s c (reverse r)).
    apply (f_equal reverse) in E.
    by rewrite reverse_involutive, reverse_cons in E. }
  rewrite H2. apply reverse_involutive.
Qed.

(** ** [extractEmotions] *)

Lemma extractEmotions_ind (P : make_story.JSString → Prop) :
  (∀ s, (∀ k g r, make_story.regex_exec s = Some (k, g, r) → P r) → P s) →
  ∀ s, P s.
Proof.
  intros H s.
  assert (Hn : ∀ n s, length s < n → P s).
  { clear s. induction n as [|n IH]; intros s Hs; [lia|].
    apply H. intros k g r E. apply IH. apply regex_exec_shorter in E. lia. }
  apply (Hn (S (length s))). lia.
Qed.


Lemma close_tag_group g r :
  Forall (λ c, c ≠ 93%N ∧ make_story.is_line_terminator c = false) g →
  make_story.close_tag (g ++ 93%N :: r) = Some (g, r).
Proof.
  induction 1 as [|c g [Hc Hl] _ IH]; cbn; [done|].
  apply N.eqb_neq in Hc. by rewrite Hc, Hl, IH.
Qed.

(** The leftmost match is at the first opening bracket when a closing
    bracket follows it on its line. *)
Lemma regex_exec_first t g r :
  91%N ∉ t →
  Forall (λ c, c ≠ 93%N ∧ make_story.is_line_terminator c = false) g →
  make_story.regex_exec (t ++ 91%N :: g ++ 93%N :: r) = Some (t, g, r).
Proof.
  intros Ht Hg. induction t as [|c t IH]; cbn.
  - by rewrite close_tag_group.
  - apply not_elem_of_cons in Ht as [Hc Ht].
    apply not_eq_sym, N.eqb_neq in Hc. by rewrite Hc, (IH Ht).
Qed.

Lemma close_tag_no_close s : 93%N ∉ s → make_story.close_tag s = None.
Proof.
  induction s as [|c s IH]; cbn; [done|].
  intros [Hc Hs]%not_elem_of_cons.
  apply not_eq_sym, N.eqb_neq in Hc. rewrite Hc, (IH Hs).
  by destruct (make_story.is_line_terminator c).
Qed.

Lemma regex_exec_no_close s : 93%N ∉ s → make_story.regex_exec s = None.
Proof.
  induction s as [|c s IH]; cbn; [done|].
  intros [Hc Hs]%not_elem_of_cons.
  rewrite (close_tag_no_close s Hs), (IH Hs). by destruct (c =? 91)%N.
Qed.

(** Every part comes from a stretch of the text that ends at the opening
    bracket of a tag, and carries that tag's name. *)
Lemma extractEmotions_pairing (s : make_story.JSString) (p : make_story.Part) :
  p ∈ (make_story.extractEmotions s).1 →
  ∃ pre k g post,
    s = pre ++ k ++ 91%N :: g ++ 93%N :: post
    ∧ (pre = [] ∨ ∃ pre', pre = pre' ++ [93%N])
    ∧ make_story.regex_exec (k ++ 91%N :: g ++ 93%N :: post)
      = Some (k, g, post)
    ∧ make_story.text p = make_story.trim k
    ∧ make_story.emotion p = make_story.trim g.
Proof.
  revert p. induction s as [s IH] using extractEmotions_ind. intros p.
  rewrite extractEmotions_step.
  destruct (make_story.regex_exec s) as [[[k g] r]|] eqn:E; cbn.
  2: { intros H. by apply not_elem_of_nil in H. }
  pose proof E as [Es _]%regex_exec_Some.
  intros [Hp|Hp]%elem_of_app.
  - exists [], k, g, r. split; [done|]. split; [by left|].
    split; [by rewrite <- Es|].
    destruct (make_story.trim k) as [|c k'] eqn:Ek.
    { by apply not_elem_of_nil in Hp. }
    by apply list_elem_of_singleton in Hp as ->.
  - destruct (IH k g r eq_refl p Hp)
      as (pre & k' & g' & post & Er & Hpre & Hm & Ht & He).
    exists (k ++ 91%N :: g ++ 93%N :: pre), k', g', post.
    split.
    { rewrite Es, Er. rewrite <- (app_assoc k). cbn.
      by rewrite <- (app_assoc g). }
    split; [|done]. right.
    destruct Hpre as [->|[pre' ->]].
    + exists (k ++ 91%N :: g). by rewrite <- (app_assoc k).
    + exists (k ++ 91%N :: g ++ 93%N :: pre').
      rewrite <- (app_assoc k). cbn. by rewrite <- (app_assoc g).
Qed.

(** A text made of narration and tags in turn, with no opening bracket in
    the narration: what [extractEmotions] returns for it. *)
Lemma extractEmotions_tagged (segs : list (make_story.JSString * make_story.JSString))
    (tail : make_story.JSString) :
  Forall (λ x, (91%N ∉ x.1)
               ∧ Forall (λ c, c ≠ 93%N
                              ∧ make_story.is_line_terminator c = false) x.2)
         segs →
  93%N ∉ tail →
  make_story.extractEmotions
    (concat ((λ x, x.1 ++ 91%N :: x.2 ++ [93%N]) <$> segs) ++ tail)
  = (omap (λ x, match make_story.trim x.1 with
                | [] => None
                | _ => Some (make_story.mkPart (make_story.trim x.1)
                               (make_story.trim x.2))
                end) segs,
     (λ x, make_story.trim x.2) <$> segs).
Proof.
  intros Hs Ht. induction Hs as [|[t g] segs [H1 H2] _ IH].
  - cbn. by rewrite extractEmotions_step, regex_exec_no_close.
  - rewrite !fmap_cons. cbn [concat fst snd] in *.
    rewrite <- !app_assoc. cbn [app]. rewrite <- !app_assoc. cbn [app].
    rewrite extractEmotions_step, regex_exec_first by done. rewrite IH.
    cbn [omap list_omap fst snd].
    by destruct (make_story.trim t).
Qed.

(** X22.  [extractEmotions] keeps only narration that can be spoken: every
    part has a text that is not empty and has no white space at either
    end, and carries the trimmed name of the tag that follows it: the
    part's text is the trimmed stretch of the raw text that starts at
    the beginning or right after a closing bracket and ends at the
    opening bracket of the next tag the pattern finds, and the part's
    emotion is that tag's trimmed name.  There are at most as many parts
    as tags (a tag with nothing but white space before it gives no
    part), the parts' emotions are tag names in the order of the text,
    and a tag name is trimmed and holds neither a closing bracket nor a
    line break.  For a text made of narration and tags in turn, where no
    narration holds an opening bracket and no tag name a closing bracket
    or a line break, followed by text without closing bracket, the
    result is exactly: one part per narration that is not blank, with
    the narration trimmed and the name of its tag trimmed, in order; and
    every tag's trimmed name, in order. *)
Theorem extractEmotions_parts (s : make_story.JSString) :
  length (make_story.extractEmotions s).1
  ≤ length (make_story.extractEmotions s).2
  ∧ (make_story.emotion <$> (make_story.extractEmotions s).1)
    `sublist_of` (make_story.extractEmotions s).2
  ∧ (∀ p, p ∈ (make_story.extractEmotions s).1 →
          make_story.text p ≠ []
          ∧ make_story.trim (make_story.text p) = make_story.text p)
  ∧ (∀ e, e ∈ (make_story.extractEmotions s).2 →
          make_story.trim e = e
          ∧ ∀ c, c ∈ e → c ≠ 93%N ∧ make_story.is_line_terminator c = false)
  ∧ (∀ p, p ∈ (make_story.extractEmotions s).1 →
          ∃ pre k g post,
            s = pre ++ k ++ 91%N :: g ++ 93%N :: post
            ∧ (pre = [] ∨ ∃ pre', pre = pre' ++ [93%N])
            ∧ make_story.regex_exec (k ++ 91%N :: g ++ 93%N :: post)
              = Some (k, g, post)
            ∧ make_story.text p = make_story.trim k
            ∧ make_story.emotion p = make_story.trim g)
  ∧ ∀ segs tail,
      Forall (λ x, (91%N ∉ x.1)
                   ∧ Forall (λ c, c ≠ 93%N
                                  ∧ make_story.is_line_terminator c = false)
                            x.2) segs →
      93%N ∉ tail →
      s = concat ((λ x, x.1 ++ 91%N :: x.2 ++ [93%N]) <$> segs) ++ tail →
      make_story.extractEmotions s
      = (omap (λ x, match make_story.trim x.1 with
                    | [] => None
                    | _ => Some (make_story.mkPart (make_story.trim x.1)
                                   (make_story.trim x.2))
                    end) segs,
         (λ x, make_story.trim x.2) <$> segs).
Proof.
  assert (H : length (make_story.extractEmotions s).1
              ≤ length (make_story.extractEmotions s).2
    ∧ (make_story.emotion <$> (make_story.extractEmotions s).1)
      `sublist_of` (make_story.extractEmotions s).2
    ∧ (∀ p, p ∈ (make_story.extractEmotions s).1 →
            make_story.text p ≠ []
            ∧ make_story.trim (make_story.text p) = make_story.text p)
    ∧ ∀ e, e ∈ (make_story.extractEmotions s).2 →
           make_story.trim e = e
           ∧ ∀ c, c ∈ e → c ≠ 93%N ∧ make_story.is_line_terminator c = false).
  { induction s as [s IH] using extractEmotions_ind.
    rewrite extractEmotions_step.
    destruct (make_story.regex_exec s) as [[[k g] r]|] eqn:E; cbn.
    2: { split; [done|]. split; [done|].
         split; intros x H; by apply not_elem_of_nil in H. }
    destruct (IH k g r eq_refl) as (H1 & H2 & H3 & H4).
    apply regex_exec_Some in E as [_ Hg].
    assert (He : make_story.trim (make_story.trim g) = make_story.trim g
                 ∧ ∀ c, c ∈ make_story.trim g →
                        c ≠ 93%N ∧ make_story.is_line_terminator c = false).
    { split; [apply trim_trim|]. intros c Hc. apply Hg.
      eapply elem_of_sublist; [exact Hc|apply trim_sublist]. }
    pose proof (trim_trim k) as Hk.
    destruct (make_story.trim k) as [|c k'];
      cbn [app length fmap list_fmap fst snd].
    - split; [lia|]. split; [by apply sublist_cons|]. split; [done|].
      intros e [->|Hin]%elem_of_cons; [done|by apply H4].
    - split; [lia|]. split; [by apply sublist_skip|]. split.
      + intros p [->|Hin]%elem_of_cons; [|by apply H3].
        cbn [make_story.text]. done.
      + intros e [->|Hin]%elem_of_cons; [done|by apply H4]. }
  destruct H as (H1 & H2 & H3 & H4).
  split; [done|]. split; [done|]. split; [done|]. split; [done|].
  split; [intros p; apply extractEmotions_pairing|].
  intros segs tail Hs Ht ->. by apply extractEmotions_tagged.
Qed.

Lemma extractEmotions_parts_witness :
  make_story.extractEmotions
    [73; 108; 32; 114; 105; 116; 32; 91; 106; 111; 105; 101; 93;
     32; 91; 32; 112; 101; 117; 114; 93; 32; 70; 105; 110; 46]%N
  = ([make_story.mkPart [73; 108; 32; 114; 105; 116]%N [106; 111; 105; 101]%N],
     [[106; 111; 105; 101]; [112; 101; 117; 114]]%N).
Proof.
  refine (proj2 (proj2 (proj2 (proj2 (proj2 (extractEmotions_parts _)))))
            [([73; 108; 32; 114; 105; 116; 32], [106; 111; 105; 101]);
             ([32], [32; 112; 101; 117; 114])]%N
            [32; 70; 105; 110; 46]%N _ _ eq_refl).
  - apply (bool_decide_unpack _). by vm_compute.
  - apply (bool_decide_unpack _). by vm_compute.
Defined.

Lemma close_tag_app s tail :
  93%N ∉ tail →
  make_story.close_tag (s ++ tail)
  = (λ '(g, r), (g, r ++ tail)) <$> make_story.close_tag s.
Proof.
  intros Ht. induction s as [|c s IH]; cbn.
  - induction tail as [|c tail IHt]; cbn; [done|].
    apply not_elem_of_cons in Ht as [Hc Ht].
    destruct (c =? 93)%N eqn:E; [apply N.eqb_eq in E; congruence|].
    destruct (make_story.is_line_terminator c); [done|].
    by rewrite (IHt Ht).
  - destruct (c =? 93)%N; [done|].
    destruct (make_story.is_line_terminator c); [done|].
    rewrite IH. by destruct (make_story.close_tag s) as [[g r]|].
Qed.

Lemma regex_exec_app s tail :
  93%N ∉ tail →
  make_story.regex_exec (s ++ tail)
  = (λ '(k, g, r), (k, g, r ++ tail)) <$> make_story.regex_exec s.
Proof.
  intros Ht. induction s as [|c s IH]; cbn.
  - induction tail as [|c tail IHt]; cbn; [done|].
    pose proof Ht as Ht'. apply not_elem_of_cons in Ht' as [Hc Ht'].
    rewrite (IHt Ht'). cbn.
    destruct (c =? 91)%N; [|done].
    rewrite <- (app_nil_l tail), close_tag_app by done. done.
  - rewrite IH.
    destruct (c =? 91)%N.
    + rewrite close_tag_app by done.
      destruct (make_story.close_tag s) as [[g r]|]; cbn; [done|].
      by destruct (make_story.regex_exec s) as [[[k g] r]|].
    + by destruct (make_story.regex_exec s) as [[[k g] r]|].
Qed.

(** X23.  Narration after the last tag is dropped: text appended to the
    raw text changes neither the parts nor the emotions unless it holds a
    closing bracket.  In particular a text without closing bracket gives
    no part at all. *)
Theorem text_after_last_tag_is_dropped (s tail : make_story.JSString) :
  93%N ∉ tail →
  make_story.extractEmotions (s ++ tail) = make_story.extractEmotions s
  ∧ make_story.extractEmotions tail = ([], []).
Proof.
  intros Ht.
  assert (H : ∀ s, make_story.extractEmotions (s ++ tail)
                   = make_story.extractEmotions s).
  { clear s.
    apply (extractEmotions_ind
             (λ s, make_story.extractEmotions (s ++ tail)
                   = make_story.extractEmotions s)).
    intros s IH. rewrite (extractEmotions_step (s ++ tail)), (extractEmotions_step s).
    rewrite regex_exec_app by done.
    destruct (make_story.regex_exec s) as [[[k g] r]|] eqn:E; cbn; [|done].
    by rewrite (IH k g r eq_refl). }
  split; [apply H|]. rewrite <- (app_nil_l tail), H.
  by rewrite extractEmotions_step.
Qed.

Lemma text_after_last_tag_is_dropped_witness :
  make_story.extractEmotions
    ([73; 108; 32; 114; 105; 116; 32; 91; 106; 111; 105; 101; 93]
     ++ [32; 70; 105; 110; 46])%N
  = make_story.extractEmotions
      [73; 108; 32; 114; 105; 116; 32; 91; 106; 111; 105; 101; 93]%N.
Proof.
  refine (proj1 (text_after_last_tag_is_dropped _ [32; 70; 105; 110; 46]%N _)).
  intros H. repeat (apply elem_of_cons in H as [H|H]; [done|]).
  by apply not_elem_of_nil in H.
Defined.

(** ** The time stamps *)




